(** * Shallow embedding of the CPP-Advanced concurrency lessons

    The programs are embedded as interleaving state machines: every
    thread function becomes a step function on its program counter and
    the shared globals, a mutex is an owner cell that makes [lock]
    partial, and a condition variable is the flag "the waiting thread is
    parked".  Integer loop counters are kept in [Z]; where the source
    type can overflow ([int sum] in [Operation]) the 32-bit wrap-around
    is written out. *)

From Stdlib Require Import ZArith List Bool Lia.
Import ListNotations.
Open Scope Z_scope.

(** ** Shared helpers *)

(** [iota n] is the list [0; 1; ...; n-1] of loop indices. *)
Definition iota (n : nat) : list Z := map Z.of_nat (seq 0 n).

(** [range lo n] is [lo; lo+1; ...; lo+n-1]. *)
Definition range (lo : Z) (n : nat) : list Z := map (fun k => lo + Z.of_nat k) (seq 0 n).

Definition obind {A B} (o : option A) (k : A -> option B) : option B :=
  match o with Some a => k a | None => None end.

Fixpoint iter_opt {A} (n : nat) (f : A -> option A) (a : A) : option A :=
  match n with
  | O => Some a
  | S m => obind (f a) (iter_opt m f)
  end.

(** ** 10_Thread_ConditionVariable_example.cpp *)

Module CVExample.

Definition SIZE : Z := 10.

Inductive thread := Downloader | Processor.

(** The lines the two threads write to [std::cout]. *)
Inductive line :=
| StartedDownload
| Pushed (i : Z)
| FinishedDownload
| WaitingForData
| Processed (value : Z)
| AllProcessed.

(** The globals of the file.  [g_Mutex] holds the owner of the mutex;
    [g_CV] is true while the (only) waiting thread, the processor, is
    parked inside [g_CV.wait]. *)
Record shared := mkShared {
  g_Data : list Z;
  g_DownloadFinished : bool;
  g_Mutex : option thread;
  g_CV : bool;
  cout : list line }.

Definition set_Data (d : list Z) (g : shared) : shared :=
  mkShared d (g_DownloadFinished g) (g_Mutex g) (g_CV g) (cout g).
Definition set_DownloadFinished (b : bool) (g : shared) : shared :=
  mkShared (g_Data g) b (g_Mutex g) (g_CV g) (cout g).
Definition set_Mutex (m : option thread) (g : shared) : shared :=
  mkShared (g_Data g) (g_DownloadFinished g) m (g_CV g) (cout g).
Definition set_CV (b : bool) (g : shared) : shared :=
  mkShared (g_Data g) (g_DownloadFinished g) (g_Mutex g) b (cout g).
Definition set_cout (o : list line) (g : shared) : shared :=
  mkShared (g_Data g) (g_DownloadFinished g) (g_Mutex g) (g_CV g) o.

(** std::mutex::lock: only a free mutex can be taken; [None] is "the
    caller has to wait". *)
Definition lock (t : thread) (g : shared) : option shared :=
  match g_Mutex g with
  | None => Some (set_Mutex (Some t) g)
  | Some _ => None
  end.

Definition unlock (g : shared) : shared := set_Mutex None g.

(** std::condition_variable::notify_one: a parked thread becomes
    runnable; without a parked thread the call has no effect. *)
Definition notify_one (g : shared) : shared := set_CV false g.

Definition push_back (v : Z) (g : shared) : shared := set_Data (g_Data g ++ [v]) g.

Definition empty (g : shared) : bool :=
  match g_Data g with [] => true | _ :: _ => false end.

Definition print (l : line) (g : shared) : shared := set_cout (cout g ++ [l]) g.

(** The predicate of line 55. *)
Definition wait_pred (g : shared) : bool := negb (empty g) || g_DownloadFinished g.

(** Program points of [Download] (lines 25-45). *)
Inductive dl_pc :=
| D_Start
| D_Loop (i : Z)
| D_Lock (i : Z)
| D_Push (i : Z)
| D_Unlock (i : Z)
| D_Notify (i : Z)
| D_LockFin
| D_SetFlag
| D_UnlockFin
| D_NotifyFin
| D_PrintFin
| D_Done.

(** One statement of [Download]. *)
Definition Download (pc : dl_pc) (g : shared) : option (dl_pc * shared) :=
  match pc with
  | D_Start => Some (D_Loop 0, print StartedDownload g)
  | D_Loop i => Some (if i <? SIZE then D_Lock i else D_LockFin, g)
  | D_Lock i => obind (lock Downloader g) (fun g' => Some (D_Push i, g'))
  | D_Push i => Some (D_Unlock i, print (Pushed i) (push_back i g))
  | D_Unlock i => Some (D_Notify i, unlock g)
  | D_Notify i => Some (D_Loop (i + 1), notify_one g)
  | D_LockFin => obind (lock Downloader g) (fun g' => Some (D_SetFlag, g'))
  | D_SetFlag => Some (D_UnlockFin, set_DownloadFinished true g)
  | D_UnlockFin => Some (D_NotifyFin, unlock g)
  | D_NotifyFin => Some (D_PrintFin, notify_one g)
  | D_PrintFin => Some (D_Done, print FinishedDownload g)
  | D_Done => None
  end.

(** Program points of [ProcessData] (lines 48-73).  [C_Blocked] is the
    inside of [g_CV.wait]: the mutex is released and the thread is
    parked until [g_CV] is cleared, then it takes the mutex again and
    tests the predicate again. *)
Inductive pr_pc :=
| C_Start
| C_Lock
| C_Wait
| C_Blocked
| C_Inner
| C_Unlock (value : Z)
| C_Process (value : Z)
| C_Relock
| C_Check
| C_Exit
| C_Done.

(** One statement of [ProcessData]. *)
Definition ProcessData (pc : pr_pc) (g : shared) : option (pr_pc * shared) :=
  match pc with
  | C_Start => Some (C_Lock, print WaitingForData g)
  | C_Lock => obind (lock Processor g) (fun g' => Some (C_Wait, g'))
  | C_Wait =>
      if wait_pred g then Some (C_Inner, g)
      else Some (C_Blocked, set_CV true (unlock g))
  | C_Blocked =>
      if g_CV g then None
      else obind (lock Processor g) (fun g' => Some (C_Wait, g'))
  | C_Inner =>
      match g_Data g with
      | [] => Some (C_Check, g)
      | value :: rest => Some (C_Unlock value, set_Data rest g)
      end
  | C_Unlock value => Some (C_Process value, unlock g)
  | C_Process value => Some (C_Relock, print (Processed value) g)
  | C_Relock => obind (lock Processor g) (fun g' => Some (C_Inner, g'))
  | C_Check =>
      if g_DownloadFinished g && empty g then Some (C_Exit, unlock g)
      else Some (C_Lock, unlock g)
  | C_Exit => Some (C_Done, print AllProcessed g)
  | C_Done => None
  end.

(** The two threads started by [main]. *)
Record state := mkState {
  globals : shared;
  producer : dl_pc;
  consumer : pr_pc }.

Definition init : state :=
  mkState (mkShared [] false None false []) D_Start C_Start.

(** What the scheduler can pick: a statement of one thread, or a
    spurious wakeup of the parked thread. *)
Inductive actor := Run (t : thread) | Spurious.

Definition step (a : actor) (s : state) : option state :=
  match a with
  | Run Downloader =>
      obind (Download (producer s) (globals s))
            (fun '(pc, g) => Some (mkState g pc (consumer s)))
  | Run Processor =>
      obind (ProcessData (consumer s) (globals s))
            (fun '(pc, g) => Some (mkState g (producer s) pc))
  | Spurious =>
      if g_CV (globals s) then Some (mkState (notify_one (globals s)) (producer s) (consumer s))
      else None
  end.

Fixpoint run (sched : list actor) (s : state) : option state :=
  match sched with
  | [] => Some s
  | a :: rest => obind (step a s) (run rest)
  end.

Inductive reachable : state -> Prop :=
| reach_init : reachable init
| reach_step a s s' : reachable s -> step a s = Some s' -> reachable s'.

(** The state a schedule leads to from [init]; a schedule that asks a
    blocked thread to move is not followed. *)
Definition exec (sched : list actor) : state :=
  match run sched init with
  | Some s => s
  | None => init
  end.

(** Two schedules: the downloader runs to its end before the processor
    starts, and the downloader alone. *)
Definition downloader_alone : list actor := repeat (Run Downloader) 57.
Definition downloader_first : list actor :=
  repeat (Run Downloader) 57 ++ repeat (Run Processor) 46.
(** The same, stopped right after the processor has removed the last
    item. *)
Definition drained : list actor :=
  repeat (Run Downloader) 57 ++ repeat (Run Processor) 40.

(** *** The queue operations of the file

    [push], [close] and [pop] are the statement sequences of the file
    run without interruption: the body of the download loop (lines
    30-35), the shutdown block (lines 38-42) and the processor's loop
    from the point where it asks for the next item up to the point where
    it holds an item, leaves the loop, or parks itself. *)

Definition dl_statement (c : dl_pc * shared) : option (dl_pc * shared) :=
  Download (fst c) (snd c).

Definition push (v : Z) (g : shared) : option shared :=
  option_map snd (iter_opt 4 dl_statement (D_Lock v, g)).

Definition close (g : shared) : option shared :=
  option_map snd (iter_opt 4 dl_statement (D_LockFin, g)).

Inductive pop_result := Item (value : Z) | NoMoreItems | WouldBlock.

Fixpoint pop_from (fuel : nat) (pc : pr_pc) (g : shared) : option (pop_result * shared) :=
  match pc with
  | C_Process value => Some (Item value, g)
  | C_Exit => Some (NoMoreItems, g)
  | C_Blocked => Some (WouldBlock, g)
  | _ =>
      match fuel with
      | O => None
      | S f => obind (ProcessData pc g) (fun c => pop_from f (fst c) (snd c))
      end
  end.

(** A pop that starts at the top of the outer loop (line 52) and one
    that starts after an item has been processed (line 63). *)
Definition pop (g : shared) : option (pop_result * shared) := pop_from 6 C_Lock g.
Definition pop_again (g : shared) : option (pop_result * shared) := pop_from 6 C_Relock g.

(** A producer that issues a list of calls and a consumer that pops a
    number of times, interleaved call by call.  Each call runs without
    interruption, and a pop that would have to wait is not a step of
    this client: it tells in which order results come, not whether they
    come.  The two threads with the consumer waiting inside its pop are
    in [Scenario]. *)
Inductive call := Push (v : Z) | Close.






Definition fresh : shared := mkShared [] false None false [].


Definition pushes_of (prog : list call) : list Z :=
  flat_map (fun c => match c with Push v => [v] | Close => [] end) prog.


(** The producer of the scenario: it pushes [xs] and closes. *)
Definition push_all_then_close (xs : list Z) : list call := map Push xs ++ [Close].

(** *** What the output and the program points say about a state *)

Definition pushed (o : list line) : list Z :=
  flat_map (fun l => match l with Pushed i => [i] | _ => [] end) o.

Definition processed (o : list line) : list Z :=
  flat_map (fun l => match l with Processed v => [v] | _ => [] end) o.

(** The item the processor has removed and not yet reported. *)
Definition in_hand (pc : pr_pc) : list Z :=
  match pc with
  | C_Unlock v | C_Process v => [v]
  | _ => []
  end.

(** Everything the processor has taken out of the list so far. *)
Definition popped (s : state) : list Z :=
  processed (cout (globals s)) ++ in_hand (consumer s).

Definition dl_holds (pc : dl_pc) : bool :=
  match pc with
  | D_Push _ | D_Unlock _ | D_SetFlag | D_UnlockFin => true
  | _ => false
  end.

Definition pr_holds (pc : pr_pc) : bool :=
  match pc with
  | C_Wait | C_Inner | C_Unlock _ | C_Check => true
  | _ => false
  end.

Definition owner (s : state) : option thread :=
  if dl_holds (producer s) then Some Downloader
  else if pr_holds (consumer s) then Some Processor
  else None.

(** Number of items [Download] has appended at a program point. *)
Definition dl_count (pc : dl_pc) : Z :=
  match pc with
  | D_Start => 0
  | D_Loop i | D_Lock i | D_Push i => i
  | D_Unlock i | D_Notify i => i + 1
  | _ => SIZE
  end.

Definition dl_range (pc : dl_pc) : Prop :=
  match pc with
  | D_Loop i => 0 <= i <= SIZE
  | D_Lock i | D_Push i | D_Unlock i | D_Notify i => 0 <= i < SIZE
  | _ => True
  end.

Definition dl_flag (pc : dl_pc) : bool :=
  match pc with
  | D_UnlockFin | D_NotifyFin | D_PrintFin | D_Done => true
  | _ => false
  end.

(** [Download] has changed the shared data and not yet notified. *)
Definition dl_notifying (pc : dl_pc) : bool :=
  match pc with
  | D_Unlock _ | D_Notify _ | D_UnlockFin | D_NotifyFin => true
  | _ => false
  end.

(** The processor is inside a pop: it holds no item and has not left
    the loop. *)
Definition pr_asking (pc : pr_pc) : bool :=
  match pc with
  | C_Start | C_Lock | C_Wait | C_Blocked | C_Relock | C_Inner | C_Check => true
  | _ => false
  end.

Definition no_downloader (a : actor) : bool :=
  match a with
  | Run Downloader => false
  | _ => true
  end.

Definition pr_exited (pc : pr_pc) : bool :=
  match pc with
  | C_Exit | C_Done => true
  | _ => false
  end.

Record Inv (s : state) : Prop := mkInv {
  inv_mutex : g_Mutex (globals s) = owner s;
  inv_excl : dl_holds (producer s) && pr_holds (consumer s) = false;
  inv_parked : g_CV (globals s) = true -> consumer s = C_Blocked;
  inv_wakeup : g_CV (globals s) = true ->
               wait_pred (globals s) = false \/ dl_notifying (producer s) = true;
  inv_flag : g_DownloadFinished (globals s) = dl_flag (producer s);
  inv_range : dl_range (producer s);
  inv_pushed : pushed (cout (globals s)) = iota (Z.to_nat (dl_count (producer s)));
  inv_fifo : pushed (cout (globals s)) = popped s ++ g_Data (globals s);
  inv_exit : pr_exited (consumer s) = true ->
             g_DownloadFinished (globals s) = true /\ g_Data (globals s) = [] }.

(** Steps left for the two threads once the flag is set and the list is
    empty. *)
Definition dl_rank (pc : dl_pc) : nat :=
  match pc with
  | D_UnlockFin => 3
  | D_NotifyFin => 2
  | D_PrintFin => 1
  | D_Done => 0
  | _ => 4
  end.

Definition pr_rank (pc : pr_pc) : nat :=
  match pc with
  | C_Done => 0
  | C_Exit => 1
  | C_Check => 2
  | C_Inner => 3
  | C_Wait => 4
  | C_Relock => 4
  | C_Lock => 5
  | C_Blocked => 5
  | C_Process _ => 5
  | C_Start => 6
  | C_Unlock _ => 6
  end.

Definition rank (s : state) : nat :=
  (dl_rank (producer s) + pr_rank (consumer s) + if g_CV (globals s) then 1 else 0)%nat.

(** On every path the processor reaches [C_Done]: a state is either
    there already, or one of the two threads can move and every
    successor (spurious wakeups included) is again such a state. *)
Inductive finishes : state -> Prop :=
| fin_done s : consumer s = C_Done -> finishes s
| fin_step s :
    (exists t s', step (Run t) s = Some s') ->
    (forall a s', step a s = Some s' -> finishes s') ->
    finishes s.

End CVExample.

(** ** 9_Thread_condition_variable.cpp *)

Module CondVar.

Definition SIZE : Z := 5.

(** The two threads of [main]: [t1] runs [Producer], [t2] runs
    [Consumer]. *)
Inductive thread := t1 | t2.

Inductive line :=
| Produced (i : Z)
| Consumed (item : Z).

(** [cv] is true while [t2] is parked inside [cv.wait]. *)
Record shared := mkShared {
  mtx : option thread;
  cv : bool;
  g_data : list Z;
  cout : list line }.

Definition lock (t : thread) (g : shared) : option shared :=
  match mtx g with
  | None => Some (mkShared (Some t) (cv g) (g_data g) (cout g))
  | Some _ => None
  end.

Definition unlock (g : shared) : shared := mkShared None (cv g) (g_data g) (cout g).

Definition notify_one (g : shared) : shared := mkShared (mtx g) false (g_data g) (cout g).

Definition park (g : shared) : shared := mkShared None true (g_data g) (cout g).

Definition push (i : Z) (g : shared) : shared :=
  mkShared (mtx g) (cv g) (g_data g ++ [i]) (cout g).

Definition pop (g : shared) : shared :=
  mkShared (mtx g) (cv g) (tl (g_data g)) (cout g).

Definition empty (g : shared) : bool :=
  match g_data g with [] => true | _ :: _ => false end.

Definition print (l : line) (g : shared) : shared :=
  mkShared (mtx g) (cv g) (g_data g) (cout g ++ [l]).

(** Program points of [Producer] (lines 22-32). *)
Inductive producer_pc :=
| P_Loop (i : Z)
| P_Lock (i : Z)
| P_Push (i : Z)
| P_Unlock (i : Z)
| P_Notify (i : Z)
| P_Done.

Definition Producer (pc : producer_pc) (g : shared) : option (producer_pc * shared) :=
  match pc with
  | P_Loop i => Some (if i <=? SIZE then P_Lock i else P_Done, g)
  | P_Lock i => obind (lock t1 g) (fun g' => Some (P_Push i, g'))
  | P_Push i => Some (P_Unlock i, print (Produced i) (push i g))
  | P_Unlock i => Some (P_Notify i, unlock g)
  | P_Notify i => Some (P_Loop (i + 1), notify_one g)
  | P_Done => None
  end.

(** Program points of [Consumer] (lines 35-51).  [front] on an empty
    queue is undefined; the step function has no successor there. *)
Inductive consumer_pc :=
| K_Loop (i : Z)
| K_Lock (i : Z)
| K_Wait (i : Z)
| K_Blocked (i : Z)
| K_Front (i : Z)
| K_Pop (i item : Z)
| K_Print (i item : Z)
| K_Unlock (i : Z)
| K_Done.

Definition Consumer (pc : consumer_pc) (g : shared) : option (consumer_pc * shared) :=
  match pc with
  | K_Loop i => Some (if i <=? SIZE then K_Lock i else K_Done, g)
  | K_Lock i => obind (lock t2 g) (fun g' => Some (K_Wait i, g'))
  | K_Wait i =>
      if negb (empty g) then Some (K_Front i, g)
      else Some (K_Blocked i, park g)
  | K_Blocked i =>
      if cv g then None
      else obind (lock t2 g) (fun g' => Some (K_Wait i, g'))
  | K_Front i =>
      match g_data g with
      | item :: _ => Some (K_Pop i item, g)
      | [] => None
      end
  | K_Pop i item => Some (K_Print i item, pop g)
  | K_Print i item => Some (K_Unlock i, print (Consumed item) g)
  | K_Unlock i => Some (K_Loop (i + 1), unlock g)
  | K_Done => None
  end.

Record state := mkState {
  globals : shared;
  producer : producer_pc;
  consumer : consumer_pc }.

Definition init : state :=
  mkState (mkShared None false [] []) (P_Loop 1) (K_Loop 1).

Inductive actor := Run (t : thread) | Spurious.

Definition step (a : actor) (s : state) : option state :=
  match a with
  | Run t1 =>
      obind (Producer (producer s) (globals s))
            (fun c => Some (mkState (snd c) (fst c) (consumer s)))
  | Run t2 =>
      obind (Consumer (consumer s) (globals s))
            (fun c => Some (mkState (snd c) (producer s) (fst c)))
  | Spurious =>
      if cv (globals s) then Some (mkState (notify_one (globals s)) (producer s) (consumer s))
      else None
  end.

Fixpoint run (sched : list actor) (s : state) : option state :=
  match sched with
  | [] => Some s
  | a :: rest => obind (step a s) (run rest)
  end.

Inductive reachable : state -> Prop :=
| reach_init : reachable init
| reach_step a s s' : reachable s -> step a s = Some s' -> reachable s'.

Definition exec (sched : list actor) : state :=
  match run sched init with
  | Some s => s
  | None => init
  end.

(** One turn of each loop in lockstep: the producer's five statements,
    then the consumer's seven. *)
Definition lockstep : list actor :=
  concat (repeat (repeat (Run t1) 5 ++ repeat (Run t2) 7) 5) ++ [Run t1; Run t2].

Definition produced (o : list line) : list Z :=
  flat_map (fun l => match l with Produced i => [i] | _ => [] end) o.

Definition consumed (o : list line) : list Z :=
  flat_map (fun l => match l with Consumed v => [v] | _ => [] end) o.

(** The item removed from the queue and not yet reported. *)
Definition in_hand (pc : consumer_pc) : list Z :=
  match pc with
  | K_Print _ item => [item]
  | _ => []
  end.

Definition p_holds (pc : producer_pc) : bool :=
  match pc with
  | P_Push _ | P_Unlock _ => true
  | _ => false
  end.

Definition k_holds (pc : consumer_pc) : bool :=
  match pc with
  | K_Wait _ | K_Front _ | K_Pop _ _ | K_Print _ _ | K_Unlock _ => true
  | _ => false
  end.

Definition owner (s : state) : option thread :=
  if p_holds (producer s) then Some t1
  else if k_holds (consumer s) then Some t2
  else None.

(** Number of items produced at a program point of [Producer]. *)
Definition p_count (pc : producer_pc) : Z :=
  match pc with
  | P_Loop i | P_Lock i | P_Push i => i - 1
  | P_Unlock i | P_Notify i => i
  | P_Done => SIZE
  end.

Definition p_range (pc : producer_pc) : Prop :=
  match pc with
  | P_Loop i => 1 <= i <= SIZE + 1
  | P_Lock i | P_Push i | P_Unlock i | P_Notify i => 1 <= i <= SIZE
  | P_Done => True
  end.

(** Number of items reported at a program point of [Consumer]. *)
Definition k_count (pc : consumer_pc) : Z :=
  match pc with
  | K_Loop i | K_Lock i | K_Wait i | K_Blocked i | K_Front i
  | K_Pop i _ | K_Print i _ => i - 1
  | K_Unlock i => i
  | K_Done => SIZE
  end.

Definition k_range (pc : consumer_pc) : Prop :=
  match pc with
  | K_Loop i => 1 <= i <= SIZE + 1
  | K_Lock i | K_Wait i | K_Blocked i | K_Front i | K_Pop i _
  | K_Print i _ | K_Unlock i => 1 <= i <= SIZE
  | K_Done => True
  end.

(** The copy made by [front] is the head of the queue until [pop]. *)
Definition front_ok (pc : consumer_pc) (d : list Z) : Prop :=
  match pc with
  | K_Pop _ item => exists rest, d = item :: rest
  | _ => True
  end.

(** [t2] is inside a pop: it holds no item. *)
Definition k_asking (pc : consumer_pc) : bool :=
  match pc with
  | K_Lock _ | K_Wait _ | K_Blocked _ => true
  | _ => false
  end.

Definition no_producer (a : actor) : bool :=
  match a with
  | Run t1 => false
  | _ => true
  end.

Record Inv (s : state) : Prop := mkInv {
  inv_mutex : mtx (globals s) = owner s;
  inv_excl : p_holds (producer s) && k_holds (consumer s) = false;
  inv_p_range : p_range (producer s);
  inv_k_range : k_range (consumer s);
  inv_produced : produced (cout (globals s)) = range 1 (Z.to_nat (p_count (producer s)));
  inv_consumed : Z.of_nat (length (consumed (cout (globals s)))) = k_count (consumer s);
  inv_front : front_ok (consumer s) (g_data (globals s));
  inv_fifo : produced (cout (globals s)) =
             consumed (cout (globals s)) ++ in_hand (consumer s) ++ g_data (globals s) }.

End CondVar.

(** ** 5_Thread_mutex.cpp *)

Module MutexDemo.

Definition SIZE : Z := 100000.

(** The two worker threads of [main]. *)
Inductive thread := thDownloader | thDownloader2.

Record shared := mkShared {
  g_Data : list Z;
  g_Mutex : option thread }.

(** Program points of [Download] and [Download2], whose bodies are the
    same.  [push_back] is not atomic: it is split into reading the list
    and writing the extended list back, so that an append made by the
    other thread in between would be lost.  [None] in the state is a
    thread that [main] has not created yet. *)
Inductive dl_pc :=
| L_Loop (i : Z)
| L_Lock (i : Z)
| L_Read (i : Z)
| L_Write (i : Z) (seen : list Z)
| L_Unlock (i : Z)
| L_Done.

Definition lock (t : thread) (g : shared) : option shared :=
  match g_Mutex g with
  | None => Some (mkShared (g_Data g) (Some t))
  | Some _ => None
  end.

Definition unlock (g : shared) : shared := mkShared (g_Data g) None.

Definition worker (t : thread) (pc : dl_pc) (g : shared) : option (dl_pc * shared) :=
  match pc with
  | L_Loop i => Some (if i <? SIZE then L_Lock i else L_Done, g)
  | L_Lock i => obind (lock t g) (fun g' => Some (L_Read i, g'))
  | L_Read i => Some (L_Write i (g_Data g), g)
  | L_Write i seen => Some (L_Unlock i, mkShared (seen ++ [i]) (g_Mutex g))
  | L_Unlock i => Some (L_Loop (i + 1), unlock g)
  | L_Done => None
  end.

Definition Download := worker thDownloader.
Definition Download2 := worker thDownloader2.

(** Program points of [main] (lines 51-79). *)
Inductive main_pc :=
| M_Create1
| M_Create2
| M_Join1
| M_Join2
| M_Print
| M_Return.

Record state := mkState {
  globals : shared;
  th1 : option dl_pc;
  th2 : option dl_pc;
  main : main_pc;
  cout : list Z }.

Definition init : state := mkState (mkShared [] None) None None M_Create1 [].

Definition finished (t : option dl_pc) : bool :=
  match t with
  | Some L_Done => true
  | _ => false
  end.

Definition main_step (s : state) : option state :=
  match main s with
  | M_Create1 => Some (mkState (globals s) (Some (L_Loop 0)) (th2 s) M_Create2 (cout s))
  | M_Create2 => Some (mkState (globals s) (th1 s) (Some (L_Loop 0)) M_Join1 (cout s))
  | M_Join1 =>
      if finished (th1 s) then Some (mkState (globals s) (th1 s) (th2 s) M_Join2 (cout s))
      else None
  | M_Join2 =>
      if finished (th2 s) then Some (mkState (globals s) (th1 s) (th2 s) M_Print (cout s))
      else None
  | M_Print =>
      Some (mkState (globals s) (th1 s) (th2 s) M_Return
                    (cout s ++ [Z.of_nat (length (g_Data (globals s)))]))
  | M_Return => None
  end.

Inductive actor := Main | Run (t : thread).

Definition step (a : actor) (s : state) : option state :=
  match a with
  | Main => main_step s
  | Run thDownloader =>
      obind (th1 s) (fun pc =>
      obind (Download pc (globals s)) (fun c =>
      Some (mkState (snd c) (Some (fst c)) (th2 s) (main s) (cout s))))
  | Run thDownloader2 =>
      obind (th2 s) (fun pc =>
      obind (Download2 pc (globals s)) (fun c =>
      Some (mkState (snd c) (th1 s) (Some (fst c)) (main s) (cout s))))
  end.

Fixpoint run (sched : list actor) (s : state) : option state :=
  match sched with
  | [] => Some s
  | a :: rest => obind (step a s) (run rest)
  end.

Inductive reachable : state -> Prop :=
| reach_init : reachable init
| reach_step a s s' : reachable s -> step a s = Some s' -> reachable s'.

(** Number of appends a thread has completed at a program point. *)
Definition appended (t : option dl_pc) : Z :=
  match t with
  | None => 0
  | Some (L_Loop i) | Some (L_Lock i) | Some (L_Read i) | Some (L_Write i _) => i
  | Some (L_Unlock i) => i + 1
  | Some L_Done => SIZE
  end.

Definition in_range (t : option dl_pc) : Prop :=
  match t with
  | None | Some L_Done => True
  | Some (L_Loop i) => 0 <= i <= SIZE
  | Some (L_Lock i) | Some (L_Read i) | Some (L_Write i _) | Some (L_Unlock i) => 0 <= i < SIZE
  end.

Definition holds (t : option dl_pc) : bool :=
  match t with
  | Some (L_Read _) | Some (L_Write _ _) | Some (L_Unlock _) => true
  | _ => false
  end.

Definition owner (s : state) : option thread :=
  if holds (th1 s) then Some thDownloader
  else if holds (th2 s) then Some thDownloader2
  else None.

(** Between the two halves of [push_back] the list is the one read. *)
Definition seen_ok (t : option dl_pc) (d : list Z) : Prop :=
  match t with
  | Some (L_Write _ seen) => seen = d
  | _ => True
  end.

Definition main_ok (s : state) : Prop :=
  match main s with
  | M_Create1 => th1 s = None /\ th2 s = None /\ cout s = []
  | M_Create2 => th2 s = None /\ cout s = []
  | M_Join1 => cout s = []
  | M_Join2 => finished (th1 s) = true /\ cout s = []
  | M_Print => finished (th1 s) = true /\ finished (th2 s) = true /\ cout s = []
  | M_Return => finished (th1 s) = true /\ finished (th2 s) = true /\
                cout s = [Z.of_nat (length (g_Data (globals s)))]
  end.

Record Inv (s : state) : Prop := mkInv {
  inv_mutex : g_Mutex (globals s) = owner s;
  inv_excl : holds (th1 s) && holds (th2 s) = false;
  inv_range1 : in_range (th1 s);
  inv_range2 : in_range (th2 s);
  inv_seen1 : seen_ok (th1 s) (g_Data (globals s));
  inv_seen2 : seen_ok (th2 s) (g_Data (globals s));
  inv_size : Z.of_nat (length (g_Data (globals s))) = appended (th1 s) + appended (th2 s);
  inv_main : main_ok s }.

(** The state in which the first worker has run to its end alone, then
    the second, and [main] has printed. *)
Definition sequential_end : state :=
  mkState (mkShared (iota (Z.to_nat SIZE) ++ iota (Z.to_nat SIZE)) None)
          (Some L_Done) (Some L_Done) M_Return [2 * SIZE].

End MutexDemo.

(** ** 8_Thread_promise.cpp *)

Module PromiseDemo.

(** [int] is 32 bits wide.  Signed overflow is undefined in C++; the
    two's-complement wrap-around of the usual targets is written out, so
    that every [int] value lies between [INT_MIN] and [INT_MAX]. *)
Definition INT_MIN : Z := - 2 ^ 31.
Definition INT_MAX : Z := 2 ^ 31 - 1.
Definition wrap (z : Z) : Z := (z + 2 ^ 31) mod 2 ^ 32 - 2 ^ 31.

(** An object thrown as [std::exception], told apart by its message. *)
Inductive exn := std_exception (what : nat).

(** Modelled from the spec: the one-shot value/error channel
    ([std::promise] with its [std::future], which belong to the C++
    standard library and are not under src/).  The spec describes it as
    a tagged result cell with the three states Empty, Value and Error, a
    single "complete" transition that can occur at most once (a second
    attempt is a usage error), a blocking retrieval, and retrieval
    usable exactly once. *)
Inductive cell := Empty | Value (v : Z) | Error (e : exn).

Record channel := mkChannel {
  contents : cell;
  valid : bool }.

Definition fresh : channel := mkChannel Empty true.

Inductive completion := Completed (c : channel) | AlreadySatisfied.

Definition set_value (v : Z) (c : channel) : completion :=
  match contents c with
  | Empty => Completed (mkChannel (Value v) (valid c))
  | _ => AlreadySatisfied
  end.

Definition set_exception (e : exn) (c : channel) : completion :=
  match contents c with
  | Empty => Completed (mkChannel (Error e) (valid c))
  | _ => AlreadySatisfied
  end.

Inductive retrieval :=
| Returns (v : Z) (c : channel)
| Throws (e : exn) (c : channel)
| Blocks
| NoState.

Definition get (c : channel) : retrieval :=
  if valid c then
    match contents c with
    | Empty => Blocks
    | Value v => Returns v (mkChannel (Value v) false)
    | Error e => Throws e (mkChannel (Error e) false)
    end
  else NoState.

(** The loop of lines 27-33: [fuel] bounds the number of turns. *)
Fixpoint loop (fuel : nat) (count i sum : Z) : Z :=
  match fuel with
  | O => sum
  | S f => if i <? count then loop f count (i + 1) (wrap (sum + i)) else sum
  end.

Definition accumulate (count : Z) : Z := loop (Z.to_nat count) count 0 0.

(** [Operation] (lines 14-41) on a channel whose error is a
    [std::exception]: the returned [int] and the channel after the
    retrieval, or [None] when it does not return, which is while
    [f.get()] blocks on an empty cell and when there is no valid future
    to read.  The exceptions that leave [Operation] (a stored object
    that is not a [std::exception], the [future_error] of a second
    [get_future]) are told apart in [PromiseErrors]. *)
Definition Operation (data : channel) : option (Z * channel) :=
  match get data with
  | Returns count c => Some (accumulate count, c)
  | Throws ex c => Some (-1, c)
  | Blocks => None
  | NoState => None
  end.

(** [main] (lines 43-76) with the value it sets as a parameter: the task
    is launched and blocks, the value is set, the task runs, and the sum
    is retrieved from the task's own future [result] when that is valid.
    The outcome is the sum printed and the two channels. *)
Definition main_with (v : Z) : option (Z * channel * channel) :=
  let data := fresh in
  match Operation data with
  | Some _ => None
  | None =>
      match set_value v data with
      | Completed data1 =>
          match Operation data1 with
          | Some (r, data2) =>
              let result := mkChannel (Value r) true in
              if valid result then
                match get result with
                | Returns sum result' => Some (sum, data2, result')
                | _ => None
                end
              else None
          | None => None
          end
      | AlreadySatisfied => None
      end
  end.

Definition main : option (Z * channel * channel) := main_with 10.

End PromiseDemo.

(** ** A step budget for 10_Thread_ConditionVariable_example.cpp *)

Module CVExampleBound.
Import CVExample.

(** Statements [Download] still has to execute. *)
Definition dl_left (pc : dl_pc) : Z :=
  match pc with
  | D_Start => 57
  | D_Loop i => 5 * (SIZE - i) + 6
  | D_Lock i => 5 * (SIZE - i) + 5
  | D_Push i => 5 * (SIZE - i) + 4
  | D_Unlock i => 5 * (SIZE - i) + 3
  | D_Notify i => 5 * (SIZE - i) + 2
  | D_LockFin => 5
  | D_SetFlag => 4
  | D_UnlockFin => 3
  | D_NotifyFin => 2
  | D_PrintFin => 1
  | D_Done => 0
  end.

(** Statements [ProcessData] can execute before it needs the
    downloader or a wakeup, with [n] items in the list and the flag
    [f]: four per item, and the way out of the loop or into the wait. *)
Definition after_items (f : bool) : Z := if f then 3 else 4.

Definition from_lock (n : Z) (f : bool) : Z :=
  if negb (n =? 0) || f then 4 * n + after_items f + 2 else 2.

Definition pr_left (pc : pr_pc) (n : Z) (f cv : bool) : Z :=
  match pc with
  | C_Done => 0
  | C_Exit => 1
  | C_Check => if f && (n =? 0) then 2 else from_lock n f + 1
  | C_Inner => 4 * n + after_items f
  | C_Relock => 4 * n + after_items f + 1
  | C_Process _ => 4 * n + after_items f + 2
  | C_Unlock _ => 4 * n + after_items f + 3
  | C_Wait => from_lock n f - 1
  | C_Lock => from_lock n f
  | C_Blocked => from_lock n f - (if cv then 2 else 0)
  | C_Start => from_lock n f + 1
  end.

Definition budget (s : state) : Z :=
  9 * dl_left (producer s)
  + pr_left (consumer s) (Z.of_nat (length (g_Data (globals s))))
            (g_DownloadFinished (globals s)) (g_CV (globals s)).

Definition statements (sched : list actor) : Z :=
  Z.of_nat (length (filter (fun a => match a with Run _ => true | Spurious => false end) sched)).

Definition wakeups (sched : list actor) : Z :=
  Z.of_nat (length (filter (fun a => match a with Run _ => false | Spurious => true end) sched)).

End CVExampleBound.

(** ** Safety of the waits in 9_Thread_condition_variable.cpp *)

Module CondVarSafety.
Import CondVar.

(** [Producer] has pushed and not yet notified. *)
Definition p_notifying (pc : producer_pc) : bool :=
  match pc with
  | P_Unlock _ | P_Notify _ => true
  | _ => false
  end.

Definition at_front (pc : consumer_pc) : bool :=
  match pc with
  | K_Front _ => true
  | _ => false
  end.

Definition parked (pc : consumer_pc) : bool :=
  match pc with
  | K_Blocked _ => true
  | _ => false
  end.

Record Safe (s : state) : Prop := mkSafe {
  safe_front : at_front (consumer s) = true -> g_data (globals s) <> [];
  safe_parked : cv (globals s) = true -> parked (consumer s) = true;
  safe_wake : cv (globals s) = true ->
              g_data (globals s) = [] \/ p_notifying (producer s) = true }.

End CondVarSafety.

(** ** Contents and length of the runs of 5_Thread_mutex.cpp *)

Module MutexDemoContent.
Import MutexDemo.

(** 1 when a worker at this program point has appended [v], else 0. *)
Definition below (v : Z) (t : option dl_pc) : nat :=
  if (0 <=? v) && (v <? appended t) then 1%nat else 0%nat.

Definition Counted (s : state) : Prop :=
  forall v, count_occ Z.eq_dec (g_Data (globals s)) v
            = (below v (th1 s) + below v (th2 s))%nat.

(** The threads [main] has created exist. *)
Definition started (s : state) : Prop :=
  match main s with
  | M_Create1 => True
  | M_Create2 => th1 s <> None
  | _ => th1 s <> None /\ th2 s <> None
  end.

(** Statements a worker still has to execute. *)
Definition thread_left (t : option dl_pc) : Z :=
  match t with
  | None => 5 * SIZE + 1
  | Some (L_Loop i) => 5 * (SIZE - i) + 1
  | Some (L_Lock i) => 5 * (SIZE - i)
  | Some (L_Read i) => 5 * (SIZE - i) - 1
  | Some (L_Write i _) => 5 * (SIZE - i) - 2
  | Some (L_Unlock i) => 5 * (SIZE - i) - 3
  | Some L_Done => 0
  end.

Definition main_left (pc : main_pc) : Z :=
  match pc with
  | M_Create1 => 5
  | M_Create2 => 4
  | M_Join1 => 3
  | M_Join2 => 2
  | M_Print => 1
  | M_Return => 0
  end.

Definition steps_left (s : state) : Z :=
  thread_left (th1 s) + thread_left (th2 s) + main_left (main s).

End MutexDemoContent.

(** ** 7_Thread_launch_policies.cpp *)

Module LaunchPolicies.

(** [Operation] (lines 28-39): the same loop as in the promise demo,
    on the argument itself. *)
Definition Operation (count : Z) : Z :=
  PromiseDemo.loop (Z.to_nat count) count 0 0.

(** What [wait_until] can report (lines 68-84); which one it is depends
    on the clock. *)
Inductive future_status := deferred | ready | timeout.

Inductive line :=
| MainContinues
| TaskIsDeferred
| ResultIsReady
| TaskStillRunning
| FinalSum (sum : Z).

Definition report (st : future_status) : line :=
  match st with
  | deferred => TaskIsDeferred
  | ready => ResultIsReady
  | timeout => TaskStillRunning
  end.

(** The output of [main] (lines 41-90) for a given status and a given
    argument of the task; the future returned by [std::async] is valid. *)
Definition main_with (count : Z) (st : future_status) : list line :=
  [MainContinues; report st; FinalSum (Operation count)].

Definition main (st : future_status) : list line := main_with 10 st.

End LaunchPolicies.

(** ** 2_Thread_pass_arguments.cpp *)

Module PassArguments.

Definition SIZE : Z := 5000000.

Inductive line :=
| MainStarted
| StringCtor
| StringCopy
| StringAssign
| StringDtor
| DownloadStarted
| DownloadFinished
| MainAnother
| WeAreDone.

(** Program points of [Download] (lines 44-50); its parameter is a
    reference to [file], which it never reads. *)
Inductive dl_pc :=
| W_Start
| W_Loop (i : Z)
| W_Push (i : Z)
| W_Finish
| W_Done.

(** Program points of [main] (lines 53-71).  [M_Destroy] is the end of
    the scope: [threadObj] is destroyed first, then [file]. *)
Inductive main_pc :=
| M_Start
| M_File
| M_Create
| M_Another
| M_Joinable
| M_Join
| M_Done
| M_Destroy
| M_Exit.

Inductive outcome := Running | Returned | Terminated.

(** [worker] is [None] until the thread is created; [joinable] is the
    state of [threadObj]; [file_alive] is true between the constructor
    and the destructor of [file]. *)
Record state := mkState {
  g_Data : list Z;
  cout : list line;
  worker : option dl_pc;
  main : main_pc;
  joinable : bool;
  file_alive : bool;
  status : outcome }.

Definition init : state := mkState [] [] None M_Start false false Running.

Definition Download (pc : dl_pc) (s : state) : option state :=
  match pc with
  | W_Start =>
      Some (mkState (g_Data s) (cout s ++ [DownloadStarted]) (Some (W_Loop 0))
                    (main s) (joinable s) (file_alive s) (status s))
  | W_Loop i =>
      Some (mkState (g_Data s) (cout s) (Some (if i <? SIZE then W_Push i else W_Finish))
                    (main s) (joinable s) (file_alive s) (status s))
  | W_Push i =>
      Some (mkState (g_Data s ++ [i]) (cout s) (Some (W_Loop (i + 1)))
                    (main s) (joinable s) (file_alive s) (status s))
  | W_Finish =>
      Some (mkState (g_Data s) (cout s ++ [DownloadFinished]) (Some W_Done)
                    (main s) (joinable s) (file_alive s) (status s))
  | W_Done => None
  end.

Definition finished (w : option dl_pc) : bool :=
  match w with
  | Some W_Done => true
  | _ => false
  end.

(** One statement of [main].  [std::ref(file)] hands the thread a
    reference, so creating the thread copies nothing.  Destroying a
    joinable [std::thread] calls [std::terminate]. *)
Definition main_step (s : state) : option state :=
  match main s with
  | M_Start =>
      Some (mkState (g_Data s) (cout s ++ [MainStarted]) (worker s) M_File
                    (joinable s) (file_alive s) (status s))
  | M_File =>
      Some (mkState (g_Data s) (cout s ++ [StringCtor]) (worker s) M_Create
                    (joinable s) true (status s))
  | M_Create =>
      Some (mkState (g_Data s) (cout s) (Some W_Start) M_Another
                    true (file_alive s) (status s))
  | M_Another =>
      Some (mkState (g_Data s) (cout s ++ [MainAnother]) (worker s) M_Joinable
                    (joinable s) (file_alive s) (status s))
  | M_Joinable =>
      Some (mkState (g_Data s) (cout s) (worker s) (if joinable s then M_Join else M_Done)
                    (joinable s) (file_alive s) (status s))
  | M_Join =>
      if finished (worker s)
      then Some (mkState (g_Data s) (cout s) (worker s) M_Done false (file_alive s) (status s))
      else None
  | M_Done =>
      Some (mkState (g_Data s) (cout s ++ [WeAreDone]) (worker s) M_Destroy
                    (joinable s) (file_alive s) (status s))
  | M_Destroy =>
      if joinable s
      then Some (mkState (g_Data s) (cout s) (worker s) M_Exit
                         (joinable s) (file_alive s) Terminated)
      else Some (mkState (g_Data s) (cout s ++ [StringDtor]) (worker s) M_Exit
                         (joinable s) false Returned)
  | M_Exit => None
  end.

Inductive actor := Main | Worker.

(** Nothing runs once the process has ended. *)
Definition step (a : actor) (s : state) : option state :=
  match status s with
  | Running =>
      match a with
      | Main => main_step s
      | Worker => obind (worker s) (fun pc => Download pc s)
      end
  | _ => None
  end.

Fixpoint run (sched : list actor) (s : state) : option state :=
  match sched with
  | [] => Some s
  | a :: rest => obind (step a s) (run rest)
  end.

Inductive reachable : state -> Prop :=
| reach_init : reachable init
| reach_step a s s' : reachable s -> step a s = Some s' -> reachable s'.

(** Number of items appended at a program point of [Download]. *)
Definition appended (w : option dl_pc) : Z :=
  match w with
  | None | Some W_Start => 0
  | Some (W_Loop i) | Some (W_Push i) => i
  | Some W_Finish | Some W_Done => SIZE
  end.

Definition in_range (w : option dl_pc) : Prop :=
  match w with
  | Some (W_Loop i) => 0 <= i <= SIZE
  | Some (W_Push i) => 0 <= i < SIZE
  | _ => True
  end.

Definition main_ok (s : state) : Prop :=
  match main s with
  | M_Start | M_File =>
      worker s = None /\ joinable s = false /\ file_alive s = false /\
      ~ In WeAreDone (cout s) /\ ~ In StringDtor (cout s) /\ ~ In StringCtor (cout s)
  | M_Create =>
      worker s = None /\ joinable s = false /\ file_alive s = true /\
      ~ In WeAreDone (cout s) /\ ~ In StringDtor (cout s)
  | M_Another | M_Joinable | M_Join =>
      worker s <> None /\ joinable s = true /\ file_alive s = true /\
      ~ In WeAreDone (cout s) /\ ~ In StringDtor (cout s)
  | M_Done =>
      finished (worker s) = true /\ joinable s = false /\ file_alive s = true /\
      ~ In WeAreDone (cout s) /\ ~ In StringDtor (cout s)
  | M_Destroy =>
      finished (worker s) = true /\ joinable s = false /\ file_alive s = true /\
      ~ In StringDtor (cout s)
  | M_Exit =>
      finished (worker s) = true /\ joinable s = false /\ file_alive s = false
  end.

Record Inv (s : state) : Prop := mkInv {
  inv_range : in_range (worker s);
  inv_data : g_Data s = iota (Z.to_nat (appended (worker s)));
  inv_finished : finished (worker s) = true -> In DownloadFinished (cout s);
  inv_copy : ~ In StringCopy (cout s) /\ ~ In StringAssign (cout s);
  inv_status : status s = Terminated -> False;
  inv_returned : status s = Returned <-> main s = M_Exit;
  inv_main : main_ok s }.

(** The state at the end of a complete run in which the worker runs
    after [main] has printed its second line. *)
Definition complete_run_end : state :=
  mkState (iota (Z.to_nat SIZE))
          [MainStarted; StringCtor; MainAnother; DownloadStarted; DownloadFinished;
           WeAreDone; StringDtor]
          (Some W_Done) M_Exit false false Returned.

End PassArguments.

(** ** 1_Thread_creation.cpp *)

Module ThreadCreation.

Definition SIZE : Z := 5000000.

Inductive line :=
| MainStarted
| DownloadStarted
| DownloadFinished
| MainAnother
| WeAreDone.

(** Program points of [Download] (lines 21-27). *)
Inductive dl_pc :=
| W_Start
| W_Loop (i : Z)
| W_Push (i : Z)
| W_Finish
| W_Done.

(** Program points of [main] (lines 29-62); the calls to [detach] and
    [join] are commented out in the file.  [M_Return] is [return 0],
    where [threadObj] is destroyed. *)
Inductive main_pc :=
| M_Start
| M_Create
| M_Another
| M_Done
| M_Return
| M_Exit.

Inductive outcome := Running | Returned | Terminated.

Record state := mkState {
  g_Data : list Z;
  cout : list line;
  worker : option dl_pc;
  main : main_pc;
  joinable : bool;
  status : outcome }.

Definition init : state := mkState [] [] None M_Start false Running.

Definition Download (pc : dl_pc) (s : state) : option state :=
  match pc with
  | W_Start =>
      Some (mkState (g_Data s) (cout s ++ [DownloadStarted]) (Some (W_Loop 0))
                    (main s) (joinable s) (status s))
  | W_Loop i =>
      Some (mkState (g_Data s) (cout s) (Some (if i <? SIZE then W_Push i else W_Finish))
                    (main s) (joinable s) (status s))
  | W_Push i =>
      Some (mkState (g_Data s ++ [i]) (cout s) (Some (W_Loop (i + 1)))
                    (main s) (joinable s) (status s))
  | W_Finish =>
      Some (mkState (g_Data s) (cout s ++ [DownloadFinished]) (Some W_Done)
                    (main s) (joinable s) (status s))
  | W_Done => None
  end.

(** One statement of [main].  Destroying a joinable [std::thread] calls
    [std::terminate] (the note at lines 58-59 of the file). *)
Definition main_step (s : state) : option state :=
  match main s with
  | M_Start =>
      Some (mkState (g_Data s) (cout s ++ [MainStarted]) (worker s) M_Create
                    (joinable s) (status s))
  | M_Create =>
      Some (mkState (g_Data s) (cout s) (Some W_Start) M_Another true (status s))
  | M_Another =>
      Some (mkState (g_Data s) (cout s ++ [MainAnother]) (worker s) M_Done
                    (joinable s) (status s))
  | M_Done =>
      Some (mkState (g_Data s) (cout s ++ [WeAreDone]) (worker s) M_Return
                    (joinable s) (status s))
  | M_Return =>
      Some (mkState (g_Data s) (cout s) (worker s) M_Exit (joinable s)
                    (if joinable s then Terminated else Returned))
  | M_Exit => None
  end.

Inductive actor := Main | Worker.

(** Nothing runs once the process has ended. *)
Definition step (a : actor) (s : state) : option state :=
  match status s with
  | Running =>
      match a with
      | Main => main_step s
      | Worker => obind (worker s) (fun pc => Download pc s)
      end
  | _ => None
  end.

Fixpoint run (sched : list actor) (s : state) : option state :=
  match sched with
  | [] => Some s
  | a :: rest => obind (step a s) (run rest)
  end.

Inductive reachable : state -> Prop :=
| reach_init : reachable init
| reach_step a s s' : reachable s -> step a s = Some s' -> reachable s'.

Definition appended (w : option dl_pc) : Z :=
  match w with
  | None | Some W_Start => 0
  | Some (W_Loop i) | Some (W_Push i) => i
  | Some W_Finish | Some W_Done => SIZE
  end.

Definition in_range (w : option dl_pc) : Prop :=
  match w with
  | Some (W_Loop i) => 0 <= i <= SIZE
  | Some (W_Push i) => 0 <= i < SIZE
  | _ => True
  end.

Definition main_ok (s : state) : Prop :=
  match main s with
  | M_Start | M_Create => worker s = None /\ joinable s = false /\ status s = Running
  | M_Another | M_Done | M_Return => joinable s = true /\ status s = Running
  | M_Exit => joinable s = true /\ status s = Terminated
  end.

Record Inv (s : state) : Prop := mkInv {
  inv_range : in_range (worker s);
  inv_data : g_Data s = iota (Z.to_nat (appended (worker s)));
  inv_main : main_ok s }.

(** [main] runs to its end before the new thread executes anything. *)
Definition main_only : list actor := [Main; Main; Main; Main; Main].

End ThreadCreation.

(** ** A step budget for 9_Thread_condition_variable.cpp *)

Module CondVarBound.
Import CondVar.

(** Statements [Producer] still has to execute. *)
Definition p_left (pc : producer_pc) : Z :=
  match pc with
  | P_Loop i => 5 * (SIZE + 1 - i) + 1
  | P_Lock i => 5 * (SIZE + 1 - i)
  | P_Push i => 5 * (SIZE + 1 - i) - 1
  | P_Unlock i => 5 * (SIZE + 1 - i) - 2
  | P_Notify i => 5 * (SIZE + 1 - i) - 3
  | P_Done => 0
  end.

(** Statements [Consumer] still has to execute when it is never made to
    wait again: seven per turn of its loop. *)
Definition k_left (pc : consumer_pc) (parked : bool) : Z :=
  match pc with
  | K_Loop i => 7 * (SIZE + 1 - i) + 1
  | K_Lock i => 7 * (SIZE + 1 - i)
  | K_Wait i => 7 * (SIZE + 1 - i) - 1
  | K_Blocked i => 7 * (SIZE + 1 - i) - (if parked then 2 else 0)
  | K_Front i => 7 * (SIZE + 1 - i) - 2
  | K_Pop i _ => 7 * (SIZE + 1 - i) - 3
  | K_Print i _ => 7 * (SIZE + 1 - i) - 4
  | K_Unlock i => 7 * (SIZE + 1 - i) - 5
  | K_Done => 0
  end.

Definition budget (s : state) : Z :=
  3 * p_left (producer s) + k_left (consumer s) (cv (globals s)).

Definition statements (sched : list actor) : Z :=
  Z.of_nat (length (filter (fun a => match a with Run _ => true | Spurious => false end) sched)).

Definition wakeups (sched : list actor) : Z :=
  Z.of_nat (length (filter (fun a => match a with Run _ => false | Spurious => true end) sched)).

End CondVarBound.

(** ** 6_Thread_task_based_concurrency.cpp *)

Module TaskBased.

(** [Add] and [mul] return an [int]. *)
Definition Add_value (a b : Z) : Z := PromiseDemo.wrap (a + b).
Definition mul_value (a b : Z) : Z := PromiseDemo.wrap (a * b).

(** What is written to [std::cout]; a result line of [main] is written
    in two parts, the text before the call of [get] and the number after
    it. *)
Inductive line :=
| MainStarted
| Adding
| Multiplying
| MainAnother
| AdditionIs
| MultiplicationIs
| Number (r : Z)
| WeAreDone.

(** Program points of a task ([Add], lines 22-26, and [mul], lines
    29-33): the message, then the return of the value into the future. *)
Inductive task_pc :=
| T_Print
| T_Return
| T_Done.

(** Program points of [main] (lines 36-64). *)
Inductive main_pc :=
| M_Start
| M_Async1
| M_Async2
| M_Another
| M_Label1
| M_Get1
| M_Label2
| M_Get2
| M_Done
| M_Exit.

(** [task1], [task2] are [None] until launched; [result1], [result2]
    are the futures, [None] until the task has returned. *)
Record state := mkState {
  cout : list line;
  task1 : option task_pc;
  task2 : option task_pc;
  result1 : option Z;
  result2 : option Z;
  main : main_pc }.

Definition init : state := mkState [] None None None None M_Start.

Definition Add (a b : Z) (pc : task_pc) (s : state) : option state :=
  match pc with
  | T_Print =>
      Some (mkState (cout s ++ [Adding]) (Some T_Return) (task2 s)
                    (result1 s) (result2 s) (main s))
  | T_Return =>
      Some (mkState (cout s) (Some T_Done) (task2 s)
                    (Some (Add_value a b)) (result2 s) (main s))
  | T_Done => None
  end.

Definition mul (a b : Z) (pc : task_pc) (s : state) : option state :=
  match pc with
  | T_Print =>
      Some (mkState (cout s ++ [Multiplying]) (task1 s) (Some T_Return)
                    (result1 s) (result2 s) (main s))
  | T_Return =>
      Some (mkState (cout s) (task1 s) (Some T_Done)
                    (result1 s) (Some (mul_value a b)) (main s))
  | T_Done => None
  end.

Definition say (l : line) (next : main_pc) (s : state) : state :=
  mkState (cout s ++ [l]) (task1 s) (task2 s) (result1 s) (result2 s) next.

(** One statement of [main]; [get] has no successor while the future is
    not ready. *)
Definition main_step (s : state) : option state :=
  match main s with
  | M_Start => Some (say MainStarted M_Async1 s)
  | M_Async1 =>
      Some (mkState (cout s) (Some T_Print) (task2 s) (result1 s) (result2 s) M_Async2)
  | M_Async2 =>
      Some (mkState (cout s) (task1 s) (Some T_Print) (result1 s) (result2 s) M_Another)
  | M_Another => Some (say MainAnother M_Label1 s)
  | M_Label1 => Some (say AdditionIs M_Get1 s)
  | M_Get1 =>
      match result1 s with
      | Some r => Some (say (Number r) M_Label2 s)
      | None => None
      end
  | M_Label2 => Some (say MultiplicationIs M_Get2 s)
  | M_Get2 =>
      match result2 s with
      | Some r => Some (say (Number r) M_Done s)
      | None => None
      end
  | M_Done => Some (say WeAreDone M_Exit s)
  | M_Exit => None
  end.

Inductive actor := Main | Task1 | Task2.

(** The arguments of the two tasks are parameters; [main] passes 10 and
    20 to both. *)
Definition step (a b : Z) (w : actor) (s : state) : option state :=
  match w with
  | Main => main_step s
  | Task1 => obind (task1 s) (fun pc => Add a b pc s)
  | Task2 => obind (task2 s) (fun pc => mul a b pc s)
  end.

Fixpoint run (a b : Z) (sched : list actor) (s : state) : option state :=
  match sched with
  | [] => Some s
  | w :: rest => obind (step a b w s) (run a b rest)
  end.

Inductive reachable (a b : Z) : state -> Prop :=
| reach_init : reachable a b init
| reach_step w s s' : reachable a b s -> step a b w s = Some s' -> reachable a b s'.

(** The lines written by [main] itself. *)
Definition by_main (l : line) : bool :=
  match l with
  | Adding | Multiplying => false
  | _ => true
  end.

Definition main_output (s : state) : list line := filter by_main (cout s).

(** What [main] has written when it is at a program point. *)
Definition written (a b : Z) (pc : main_pc) : list line :=
  match pc with
  | M_Start => []
  | M_Async1 | M_Async2 | M_Another => [MainStarted]
  | M_Label1 => [MainStarted; MainAnother]
  | M_Get1 => [MainStarted; MainAnother; AdditionIs]
  | M_Label2 => [MainStarted; MainAnother; AdditionIs; Number (Add_value a b)]
  | M_Get2 => [MainStarted; MainAnother; AdditionIs; Number (Add_value a b);
               MultiplicationIs]
  | M_Done => [MainStarted; MainAnother; AdditionIs; Number (Add_value a b);
               MultiplicationIs; Number (mul_value a b)]
  | M_Exit => [MainStarted; MainAnother; AdditionIs; Number (Add_value a b);
               MultiplicationIs; Number (mul_value a b); WeAreDone]
  end.

Definition launched1 (pc : main_pc) : bool :=
  match pc with
  | M_Start | M_Async1 => false
  | _ => true
  end.

Definition launched2 (pc : main_pc) : bool :=
  match pc with
  | M_Start | M_Async1 | M_Async2 => false
  | _ => true
  end.

Definition task_ok (t : option task_pc) (r : option Z) (v : Z) (msg : line)
                   (launched : bool) (o : list line) : Prop :=
  match t with
  | None => launched = false /\ r = None /\ ~ In msg o
  | Some T_Print => launched = true /\ r = None /\ ~ In msg o
  | Some T_Return => launched = true /\ r = None /\ In msg o
  | Some T_Done => launched = true /\ r = Some v /\ In msg o
  end.

(** [main] is past its first, its second [get]. *)
Definition got1 (pc : main_pc) : bool :=
  match pc with
  | M_Label2 | M_Get2 | M_Done | M_Exit => true
  | _ => false
  end.

Definition got2 (pc : main_pc) : bool :=
  match pc with
  | M_Done | M_Exit => true
  | _ => false
  end.

Record Inv (a b : Z) (s : state) : Prop := mkInv {
  inv_main : main_output s = written a b (main s);
  inv_task1 : task_ok (task1 s) (result1 s) (Add_value a b) Adding
                      (launched1 (main s)) (cout s);
  inv_task2 : task_ok (task2 s) (result2 s) (mul_value a b) Multiplying
                      (launched2 (main s)) (cout s);
  inv_got1 : got1 (main s) = true -> result1 s <> None;
  inv_got2 : got2 (main s) = true -> result2 s <> None }.

Definition task_left (t : option task_pc) : nat :=
  match t with
  | None | Some T_Print => 2
  | Some T_Return => 1
  | Some T_Done => 0
  end.

Definition main_left (pc : main_pc) : nat :=
  match pc with
  | M_Start => 9
  | M_Async1 => 8
  | M_Async2 => 7
  | M_Another => 6
  | M_Label1 => 5
  | M_Get1 => 4
  | M_Label2 => 3
  | M_Get2 => 2
  | M_Done => 1
  | M_Exit => 0
  end.

Definition steps_left (s : state) : nat :=
  (main_left (main s) + task_left (task1 s) + task_left (task2 s))%nat.

End TaskBased.

(** ** 3_Thread_return_value_from_thread.cpp *)

Module ReturnValue.

(** [Add] (lines 16-20) and [mul] (lines 22-26) return an [int]. *)
Definition Add_value (a b : Z) : Z := PromiseDemo.wrap (a + b).
Definition mul_value (a b : Z) : Z := PromiseDemo.wrap (a * b).

Inductive line :=
| Adding
| Multiplying
| AdditionIs
| MultiplicationIs
| Number (r : Z)
| MainWaiting
| WeAreDone.

(** [main2] (lines 49-67): both tasks are called in the main thread,
    then the two results are written. *)
Definition main2_with (a b : Z) : list line :=
  [Adding; Multiplying; Number (Add_value a b); Number (mul_value a b)].

Definition main2 : list line := main2_with 10 20.

(** Program points of a thread that runs a packaged task: the message
    of the function, the return of the value into the future, the end
    of the thread. *)
Inductive task_pc :=
| T_Print
| T_Return
| T_End
| T_Done.

(** Program points of [main] (lines 71-97). *)
Inductive main_pc :=
| M_Thread1
| M_Thread2
| M_Label1
| M_Get1
| M_Label2
| M_Get2
| M_Waiting
| M_Join1
| M_Join2
| M_Done
| M_Return
| M_Exit.

Inductive outcome := Running | Returned | Terminated.

(** [t1], [t2] are [None] until the threads are created; [joinable1],
    [joinable2] are the states of the two [std::thread] objects. *)
Record state := mkState {
  cout : list line;
  t1 : option task_pc;
  t2 : option task_pc;
  result1 : option Z;
  result2 : option Z;
  joinable1 : bool;
  joinable2 : bool;
  main : main_pc;
  status : outcome }.

Definition init : state := mkState [] None None None None false false M_Thread1 Running.

Definition task1 (a b : Z) (pc : task_pc) (s : state) : option state :=
  match pc with
  | T_Print =>
      Some (mkState (cout s ++ [Adding]) (Some T_Return) (t2 s) (result1 s) (result2 s)
                    (joinable1 s) (joinable2 s) (main s) (status s))
  | T_Return =>
      Some (mkState (cout s) (Some T_End) (t2 s) (Some (Add_value a b)) (result2 s)
                    (joinable1 s) (joinable2 s) (main s) (status s))
  | T_End =>
      Some (mkState (cout s) (Some T_Done) (t2 s) (result1 s) (result2 s)
                    (joinable1 s) (joinable2 s) (main s) (status s))
  | T_Done => None
  end.

Definition task2 (a b : Z) (pc : task_pc) (s : state) : option state :=
  match pc with
  | T_Print =>
      Some (mkState (cout s ++ [Multiplying]) (t1 s) (Some T_Return) (result1 s) (result2 s)
                    (joinable1 s) (joinable2 s) (main s) (status s))
  | T_Return =>
      Some (mkState (cout s) (t1 s) (Some T_End) (result1 s) (Some (mul_value a b))
                    (joinable1 s) (joinable2 s) (main s) (status s))
  | T_End =>
      Some (mkState (cout s) (t1 s) (Some T_Done) (result1 s) (result2 s)
                    (joinable1 s) (joinable2 s) (main s) (status s))
  | T_Done => None
  end.

Definition finished (t : option task_pc) : bool :=
  match t with
  | Some T_Done => true
  | _ => false
  end.

Definition say (l : line) (next : main_pc) (s : state) : state :=
  mkState (cout s ++ [l]) (t1 s) (t2 s) (result1 s) (result2 s)
          (joinable1 s) (joinable2 s) next (status s).

(** One statement of [main]: [get] waits for the future, [join] for the
    end of the thread; at [M_Return] the two thread objects are
    destroyed, which calls [std::terminate] if one is still joinable. *)
Definition main_step (s : state) : option state :=
  match main s with
  | M_Thread1 =>
      Some (mkState (cout s) (Some T_Print) (t2 s) (result1 s) (result2 s)
                    true (joinable2 s) M_Thread2 (status s))
  | M_Thread2 =>
      Some (mkState (cout s) (t1 s) (Some T_Print) (result1 s) (result2 s)
                    (joinable1 s) true M_Label1 (status s))
  | M_Label1 => Some (say AdditionIs M_Get1 s)
  | M_Get1 =>
      match result1 s with
      | Some r => Some (say (Number r) M_Label2 s)
      | None => None
      end
  | M_Label2 => Some (say MultiplicationIs M_Get2 s)
  | M_Get2 =>
      match result2 s with
      | Some r => Some (say (Number r) M_Waiting s)
      | None => None
      end
  | M_Waiting => Some (say MainWaiting M_Join1 s)
  | M_Join1 =>
      if finished (t1 s)
      then Some (mkState (cout s) (t1 s) (t2 s) (result1 s) (result2 s)
                         false (joinable2 s) M_Join2 (status s))
      else None
  | M_Join2 =>
      if finished (t2 s)
      then Some (mkState (cout s) (t1 s) (t2 s) (result1 s) (result2 s)
                         (joinable1 s) false M_Done (status s))
      else None
  | M_Done => Some (say WeAreDone M_Return s)
  | M_Return =>
      Some (mkState (cout s) (t1 s) (t2 s) (result1 s) (result2 s)
                    (joinable1 s) (joinable2 s) M_Exit
                    (if joinable1 s || joinable2 s then Terminated else Returned))
  | M_Exit => None
  end.

Inductive actor := Main | Thread1 | Thread2.

Definition step (a b : Z) (w : actor) (s : state) : option state :=
  match status s with
  | Running =>
      match w with
      | Main => main_step s
      | Thread1 => obind (t1 s) (fun pc => task1 a b pc s)
      | Thread2 => obind (t2 s) (fun pc => task2 a b pc s)
      end
  | _ => None
  end.

Fixpoint run (a b : Z) (sched : list actor) (s : state) : option state :=
  match sched with
  | [] => Some s
  | w :: rest => obind (step a b w s) (run a b rest)
  end.

Definition by_main (l : line) : bool :=
  match l with
  | Adding | Multiplying => false
  | _ => true
  end.

Definition main_output (s : state) : list line := filter by_main (cout s).

Definition numbers (o : list line) : list Z :=
  flat_map (fun l => match l with Number r => [r] | _ => [] end) o.

Definition written (a b : Z) (pc : main_pc) : list line :=
  match pc with
  | M_Thread1 | M_Thread2 | M_Label1 => []
  | M_Get1 => [AdditionIs]
  | M_Label2 => [AdditionIs; Number (Add_value a b)]
  | M_Get2 => [AdditionIs; Number (Add_value a b); MultiplicationIs]
  | M_Waiting => [AdditionIs; Number (Add_value a b); MultiplicationIs;
                  Number (mul_value a b)]
  | M_Join1 | M_Join2 | M_Done =>
      [AdditionIs; Number (Add_value a b); MultiplicationIs; Number (mul_value a b);
       MainWaiting]
  | M_Return | M_Exit =>
      [AdditionIs; Number (Add_value a b); MultiplicationIs; Number (mul_value a b);
       MainWaiting; WeAreDone]
  end.

Definition created1 (pc : main_pc) : bool :=
  match pc with
  | M_Thread1 => false
  | _ => true
  end.

Definition created2 (pc : main_pc) : bool :=
  match pc with
  | M_Thread1 | M_Thread2 => false
  | _ => true
  end.

Definition got1 (pc : main_pc) : bool :=
  match pc with
  | M_Thread1 | M_Thread2 | M_Label1 | M_Get1 => false
  | _ => true
  end.

Definition got2 (pc : main_pc) : bool :=
  match pc with
  | M_Thread1 | M_Thread2 | M_Label1 | M_Get1 | M_Label2 | M_Get2 => false
  | _ => true
  end.

Definition joined1 (pc : main_pc) : bool :=
  match pc with
  | M_Join2 | M_Done | M_Return | M_Exit => true
  | _ => false
  end.

Definition joined2 (pc : main_pc) : bool :=
  match pc with
  | M_Done | M_Return | M_Exit => true
  | _ => false
  end.

Definition task_ok (t : option task_pc) (r : option Z) (v : Z) (msg : line)
                   (created : bool) (o : list line) : Prop :=
  match t with
  | None => created = false /\ r = None /\ ~ In msg o
  | Some T_Print => created = true /\ r = None /\ ~ In msg o
  | Some T_Return => created = true /\ r = None /\ In msg o
  | Some T_End | Some T_Done => created = true /\ r = Some v /\ In msg o
  end.

Record Inv (a b : Z) (s : state) : Prop := mkInv {
  inv_main : main_output s = written a b (main s);
  inv_task1 : task_ok (t1 s) (result1 s) (Add_value a b) Adding
                      (created1 (main s)) (cout s);
  inv_task2 : task_ok (t2 s) (result2 s) (mul_value a b) Multiplying
                      (created2 (main s)) (cout s);
  inv_got1 : got1 (main s) = true -> result1 s <> None;
  inv_got2 : got2 (main s) = true -> result2 s <> None;
  inv_joinable1 : joinable1 s = created1 (main s) && negb (joined1 (main s));
  inv_joinable2 : joinable2 s = created2 (main s) && negb (joined2 (main s));
  inv_joined1 : joined1 (main s) = true -> finished (t1 s) = true;
  inv_joined2 : joined2 (main s) = true -> finished (t2 s) = true;
  inv_status : status s = match main s with M_Exit => Returned | _ => Running end }.

Definition task_left (t : option task_pc) : nat :=
  match t with
  | None | Some T_Print => 3
  | Some T_Return => 2
  | Some T_End => 1
  | Some T_Done => 0
  end.

Definition main_left (pc : main_pc) : nat :=
  match pc with
  | M_Thread1 => 11
  | M_Thread2 => 10
  | M_Label1 => 9
  | M_Get1 => 8
  | M_Label2 => 7
  | M_Get2 => 6
  | M_Waiting => 5
  | M_Join1 => 4
  | M_Join2 => 3
  | M_Done => 2
  | M_Return => 1
  | M_Exit => 0
  end.

Definition steps_left (s : state) : nat :=
  (main_left (main s) + task_left (t1 s) + task_left (t2 s))%nat.

End ReturnValue.

(** ** The queue operations of 10_Thread_ConditionVariable_example.cpp
       used by two threads *)

Module Scenario.
Import CVExample.

(** A producer thread that issues a list of calls, against the consumer
    thread of the file, stopped after a number of pops; the two are
    interleaved statement by statement.  Each call of the producer is
    the statements of [Download] for it (lines 31-35 for a push, lines
    39-42 for the close).  The consumer is [ProcessData] as it stands:
    a pop has returned when it holds an item (line 62) or leaves the
    loop (line 68), the first pop enters at line 52 and a pop after an
    item at line 63.  Inside a pop the consumer really waits: parked in
    [g_CV.wait] it has no statement to execute until a [notify_one] or a
    spurious wakeup has cleared [g_CV]. *)

Definition call_start (c : call) : dl_pc :=
  match c with
  | Push v => D_Lock v
  | Close => D_LockFin
  end.

(** The statement after the [notify_one] of a call is not part of it. *)
Definition call_ended (pc : dl_pc) : bool :=
  match pc with
  | D_Loop _ | D_PrintFin => true
  | _ => false
  end.

(** What a pop has returned at the program point that ends it. *)
Definition pop_end (pc : pr_pc) : option (option Z) :=
  match pc with
  | C_Process value => Some (Some value)
  | C_Exit => Some None
  | _ => None
  end.

(** [calling] is the next statement of the call in progress, [None]
    between two calls; [consumer] is the program point of [ProcessData]
    and [pops] the number of results the consumer still asks for. *)
Record state := mkState {
  queue : shared;
  calling : option dl_pc;
  todo : list call;
  consumer : pr_pc;
  pops : nat;
  results : list (option Z) }.

Definition init (prog : list call) (n : nat) : state :=
  mkState fresh None prog C_Start n [].

Definition produce (s : state) : option state :=
  match calling s with
  | Some pc =>
      obind (Download pc (queue s))
            (fun c => Some (mkState (snd c)
                                    (if call_ended (fst c) then None else Some (fst c))
                                    (todo s) (consumer s) (pops s) (results s)))
  | None =>
      match todo s with
      | [] => None
      | c :: rest =>
          obind (Download (call_start c) (queue s))
                (fun c' => Some (mkState (snd c') (Some (fst c')) rest
                                         (consumer s) (pops s) (results s)))
      end
  end.

Definition popped_to (c : pr_pc * shared) (n : nat) (s : state) : state :=
  match pop_end (fst c) with
  | Some r => mkState (snd c) (calling s) (todo s) (fst c) n (results s ++ [r])
  | None => mkState (snd c) (calling s) (todo s) (fst c) (S n) (results s)
  end.

Definition consume (s : state) : option state :=
  match pops s with
  | O => None
  | S n => obind (ProcessData (consumer s) (queue s)) (fun c => Some (popped_to c n s))
  end.

Definition step (a : actor) (s : state) : option state :=
  match a with
  | Run Downloader => produce s
  | Run Processor => consume s
  | Spurious =>
      if g_CV (queue s)
      then Some (mkState (notify_one (queue s)) (calling s) (todo s)
                         (consumer s) (pops s) (results s))
      else None
  end.

Fixpoint run (sched : list actor) (s : state) : option state :=
  match sched with
  | [] => Some s
  | a :: rest => obind (step a s) (run rest)
  end.

Definition returned (pc : pr_pc) : bool :=
  match pc with
  | C_Done => true
  | _ => false
  end.

(** The producer has made all its calls, and the consumer has its
    results or has returned. *)
Definition finished (s : state) : bool :=
  match calling s, todo s with
  | None, [] => (pops s =? 0)%nat || returned (consumer s)
  | _, _ => false
  end.

(** A pop that was parked goes on from inside [g_CV.wait] (line 55). *)
Definition resume (g : shared) : option (pop_result * shared) :=
  obind (ProcessData C_Blocked g) (fun c => pop_from 6 (fst c) (snd c)).

(** A schedule in which the consumer parks in every pop before the
    producer makes its next call. *)
Definition first_park : list actor := repeat (Run Processor) 3.
Definition serve : list actor := repeat (Run Downloader) 4 ++ repeat (Run Processor) 4.
Definition next_park : list actor := repeat (Run Processor) 6.
Definition parked_each_time (k : nat) : list actor :=
  first_park ++ concat (repeat (serve ++ next_park) k) ++ serve.

(** *** What the program points say about a state *)

Definition unpushed (c : option dl_pc) : list Z :=
  match c with
  | Some (D_Push v) => [v]
  | _ => []
  end.

Definition held (pc : pr_pc) : list Z :=
  match pc with
  | C_Unlock v => [v]
  | _ => []
  end.

Definition p_holds (c : option dl_pc) : bool :=
  match c with
  | Some pc => dl_holds pc
  | None => false
  end.

Definition p_notifying (c : option dl_pc) : bool :=
  match c with
  | Some pc => dl_notifying pc
  | None => false
  end.

(** The producer has set the flag. *)
Definition closed (c : option dl_pc) (t : list call) : bool :=
  match c, t with
  | Some D_UnlockFin, _ | Some D_NotifyFin, _ => true
  | None, [] => true
  | _, _ => false
  end.

Definition p_shape (c : option dl_pc) (t : list call) : Prop :=
  match c with
  | None => t = [] \/ exists rest, t = push_all_then_close rest
  | Some (D_Push _) | Some (D_Unlock _) | Some (D_Notify _) =>
      exists rest, t = push_all_then_close rest
  | Some D_SetFlag | Some D_UnlockFin | Some D_NotifyFin => t = []
  | Some _ => False
  end.

(** Where the consumer stands when it asks for no further result. *)
Definition stopped (pc : pr_pc) : bool :=
  match pc with
  | C_Start | C_Process _ | C_Exit => true
  | _ => false
  end.

(** What holds while a producer that pushes [xs] and closes runs against
    a consumer that asks for [n] results. *)
Record Inv (xs : list Z) (n : nat) (s : state) : Prop := mkInv {
  inv_mutex : g_Mutex (queue s) =
              if p_holds (calling s) then Some Downloader
              else if pr_holds (consumer s) then Some Processor else None;
  inv_excl : p_holds (calling s) && pr_holds (consumer s) = false;
  inv_p : p_shape (calling s) (todo s);
  inv_flag : g_DownloadFinished (queue s) = closed (calling s) (todo s);
  inv_parked : g_CV (queue s) = true -> consumer s = C_Blocked;
  inv_wake : g_CV (queue s) = true ->
             wait_pred (queue s) = false \/ p_notifying (calling s) = true;
  inv_stop : pops s = O -> stopped (consumer s) = true;
  inv_exit : pr_exited (consumer s) = true ->
             g_DownloadFinished (queue s) = true /\ g_Data (queue s) = [];
  inv_fifo : exists taken,
      results s = map Some taken ++ (if pr_exited (consumer s) then [None] else []) /\
      taken ++ held (consumer s) ++ g_Data (queue s)
        ++ unpushed (calling s) ++ pushes_of (todo s) = xs;
  inv_count : (length (results s) + pops s = n)%nat }.

(** Statements the producer still has to execute in its call, plus two
    for the wakeup its [notify_one] can cause. *)
Definition p_left (c : option dl_pc) : nat :=
  match c with
  | Some (D_Push _) | Some D_SetFlag => 5
  | Some (D_Unlock _) | Some D_UnlockFin => 4
  | Some (D_Notify _) | Some D_NotifyFin => 3
  | _ => 0
  end.

(** Statements the consumer still has to execute up to its next result
    when it is not woken in vain. *)
Definition c_next (pc : pr_pc) (g : shared) : nat :=
  match pc with
  | C_Start => 5
  | C_Lock => 4
  | C_Wait => 3
  | C_Blocked => if g_CV g then 2 else 4
  | C_Inner => if negb (empty g) || g_DownloadFinished g then 2 else 6
  | C_Unlock _ => 1
  | C_Process _ => 8
  | C_Relock => 7
  | C_Check => if g_DownloadFinished g && empty g then 1 else 5
  | C_Exit => 1
  | C_Done => 0
  end.

Definition c_left (pc : pr_pc) (g : shared) (pops : nat) : nat :=
  match pops with
  | O => 0
  | S k => c_next pc g + 8 * k
  end.

Definition budget (s : state) : nat :=
  (p_left (calling s) + 6 * length (todo s) + c_left (consumer s) (queue s) (pops s))%nat.

Definition statements (sched : list actor) : nat :=
  length (filter (fun a => match a with Run _ => true | Spurious => false end) sched).

Definition wakeups (sched : list actor) : nat :=
  length (filter (fun a => match a with Run _ => false | Spurious => true end) sched).

End Scenario.

(** ** The ways out of [Operation] in 8_Thread_promise.cpp *)

Module PromiseErrors.
Import PromiseDemo.

(** What the [std::exception_ptr] stored by [set_exception] can point
    to: an object of a class derived from [std::exception], or an object
    of any other type. *)
Inductive thrown := Derived (e : exn) | Foreign (tag : nat).

(** The [std::promise<int>] that [Operation] is given: the shared state
    that [f.get()] finds, and whether [get_future] has been called on
    the promise before. *)
Inductive shared_state := NotReady | Ready (v : Z) | Failed (x : thrown).

Record promise := mkPromise {
  state : shared_state;
  future_retrieved : bool }.

(** What leaves [Operation] as an exception: the [std::future_error]
    of [get_future], or the stored object rethrown by [get]. *)
Inductive escaped :=
| future_already_retrieved
| uncaught (tag : nat).

Inductive outcome :=
| Returned (r : Z)
| Escaped (x : escaped)
| Waiting.

(** [Operation] (lines 14-41).  [get_future] (line 18) stands before the
    [try] block, so its exception leaves the function.  [f.get()] (line
    24) waits while the state is not ready and rethrows a stored
    exception; the handler (line 36) catches [std::exception&] only. *)
Definition Operation (data : promise) : outcome * promise :=
  if future_retrieved data then (Escaped future_already_retrieved, data)
  else
    let data' := mkPromise (state data) true in
    match state data with
    | NotReady => (Waiting, data')
    | Ready count => (Returned (accumulate count), data')
    | Failed (Derived ex) => (Returned (-1), data')
    | Failed (Foreign tag) => (Escaped (uncaught tag), data')
    end.

(** The promise that a channel of [PromiseDemo] stands for: its errors
    are [std::exception] objects, and its future is valid as long as it
    has not been taken. *)
Definition of_channel (c : channel) : promise :=
  mkPromise match contents c with
            | Empty => NotReady
            | Value v => Ready v
            | Error e => Failed (Derived e)
            end
            (negb (valid c)).

End PromiseErrors.

(** * Proofs *)

Lemma iota_snoc (n : nat) : iota (S n) = iota n ++ [Z.of_nat n].
Proof. unfold iota. rewrite seq_S, map_app. reflexivity. Qed.

Lemma iota_succ (i : Z) : 0 <= i -> iota (Z.to_nat (i + 1)) = iota (Z.to_nat i) ++ [i].
Proof.
  intros Hi. replace (Z.to_nat (i + 1)) with (S (Z.to_nat i)) by lia.
  rewrite iota_snoc, Z2Nat.id by lia. reflexivity.
Qed.

Lemma iota_length (n : nat) : length (iota n) = n.
Proof. unfold iota. rewrite length_map, length_seq. reflexivity. Qed.

Module CVExampleFacts.
Import CVExample.

Lemma pushed_app (a b : list line) : pushed (a ++ b) = pushed a ++ pushed b.
Proof. apply flat_map_app. Qed.

Lemma processed_app (a b : list line) : processed (a ++ b) = processed a ++ processed b.
Proof. apply flat_map_app. Qed.

Lemma Inv_init : Inv init.
Proof. constructor; simpl; auto; discriminate. Qed.

Ltac unstep H :=
  repeat (unfold step, obind, Download, ProcessData, lock, wait_pred, empty in H; simpl in H);
  repeat match type of H with
  | context [match ?x with _ => _ end] => is_var x; destruct x; simpl in H; try discriminate H
  | context [if ?x then _ else _] => is_var x; destruct x; simpl in H; try discriminate H
  | context [?x && _] => is_var x; destruct x; simpl in H; try discriminate H
  | context [?a <? ?b] => destruct (Z.ltb_spec a b); simpl in H
  end;
  try (injection H as <-).

Ltac inv_side :=
  unfold popped, owner, wait_pred, empty in *; simpl in *;
  rewrite ?pushed_app, ?processed_app in *; simpl in *;
  rewrite ?app_nil_r in *;
  try solve [ auto | discriminate | congruence | unfold SIZE in *; lia | tauto
            | intuition (auto; try discriminate; try congruence; try lia)
            | rewrite iota_succ by lia; congruence
            | match goal with H : pushed _ = iota _ |- _ => rewrite H end;
              f_equal; unfold SIZE in *; lia
            | match goal with H : pushed _ = _ ++ _ |- _ => rewrite H end;
              rewrite <- ?app_assoc; reflexivity ].

Lemma Inv_step (a : actor) (s s' : state) : Inv s -> step a s = Some s' -> Inv s'.
Proof.
  intros [Hm Hx Hp Hw Hf Hr Hpu Hfi He] Hs.
  destruct s as [[d f m c o] dl pr]. unfold popped, owner in *. simpl in *.
  destruct a as [[|]|].
  - destruct (pr_holds pr) eqn:Eh; destruct dl; unstep Hs; constructor; unfold owner; simpl; rewrite ?Eh; inv_side.
  - destruct (dl_holds dl) eqn:Eh; destruct pr; unstep Hs; constructor; unfold owner; simpl; rewrite ?Eh; inv_side.
  - unstep Hs; constructor; inv_side.
Qed.

Lemma Inv_reachable (s : state) : reachable s -> Inv s.
Proof.
  induction 1 as [|a s s' _ IH Hs].
  - apply Inv_init.
  - exact (Inv_step a s s' IH Hs).
Qed.

Lemma run_reachable (sched : list actor) (s s' : state) :
  reachable s -> run sched s = Some s' -> reachable s'.
Proof.
  revert s. induction sched as [|a rest IH]; simpl; intros s Hr Hs.
  - injection Hs as <-. exact Hr.
  - destruct (step a s) as [s1|] eqn:E; simpl in Hs; [|discriminate].
    apply (IH s1); [exact (reach_step a s s1 Hr E) | exact Hs].
Qed.

Lemma exec_reachable (sched : list actor) : reachable (exec sched).
Proof.
  unfold exec. destruct (run sched init) as [s|] eqn:E.
  - exact (run_reachable sched init s reach_init E).
  - exact reach_init.
Qed.


(** *** The queue operations *)

Lemma push_eq (v : Z) (g : shared) :
  push v g =
  match g_Mutex g with
  | None => Some (mkShared (g_Data g ++ [v]) (g_DownloadFinished g) None false
                           (cout g ++ [Pushed v]))
  | Some _ => None
  end.
Proof. destruct g as [d f [t|] c o]; reflexivity. Qed.

Lemma close_eq (g : shared) :
  close g =
  match g_Mutex g with
  | None => Some (mkShared (g_Data g) true None false (cout g))
  | Some _ => None
  end.
Proof. destruct g as [d f [t|] c o]; reflexivity. Qed.

Lemma pop_eq (g : shared) :
  pop g =
  match g_Mutex g with
  | Some _ => None
  | None =>
      match g_Data g with
      | value :: rest => Some (Item value, set_Data rest g)
      | [] =>
          if g_DownloadFinished g then Some (NoMoreItems, g)
          else Some (WouldBlock, set_CV true g)
      end
  end.
Proof. destruct g as [[|v d] [|] [t|] c o]; reflexivity. Qed.

Lemma pop_again_eq (g : shared) :
  pop_again g =
  match g_Mutex g with
  | Some _ => None
  | None =>
      match g_Data g with
      | value :: rest => Some (Item value, set_Data rest g)
      | [] =>
          if g_DownloadFinished g then Some (NoMoreItems, g)
          else Some (WouldBlock, set_CV true g)
      end
  end.
Proof. destruct g as [[|v d] [|] [t|] c o]; reflexivity. Qed.

(** C2.  With the mutex free, a pop has exactly three outcomes, decided
    by the list and the flag alone: a non-empty list gives its head and
    leaves the tail; an empty list with the flag set gives "no more
    items" and changes nothing; an empty list without the flag gives no
    result at all (the processor parks itself).  The same holds for a pop
    that starts after an item was processed.  Hence an item is returned
    only from a non-empty list and "no more items" only with the flag set
    and the list empty. *)
Theorem pop_outcomes (g : shared) :
  g_Mutex g = None ->
  match g_Data g with
  | value :: rest =>
      pop g = Some (Item value, set_Data rest g)
  | [] =>
      if g_DownloadFinished g then pop g = Some (NoMoreItems, g)
      else pop g = Some (WouldBlock, set_CV true g)
  end
  /\ pop_again g = pop g
  /\ (forall v g', pop g = Some (Item v, g') ->
        g_Data g = v :: g_Data g' /\
        g_DownloadFinished g' = g_DownloadFinished g)
  /\ (forall g', pop g = Some (NoMoreItems, g') ->
        g_DownloadFinished g = true /\ g_Data g = [] /\ g' = g)
  /\ (g_Data g = [] -> g_DownloadFinished g = false ->
        forall r g', pop g = Some (r, g') -> r = WouldBlock /\ g_Data g' = []).
Proof.
  intros Hm. rewrite pop_again_eq, !pop_eq, Hm.
  destruct g as [[|v d] [|] m c o]; simpl in *; subst m;
    repeat split; intros; try discriminate; try congruence;
    repeat match goal with
    | H : Some _ = Some _ |- _ => inversion H; clear H; subst
    end; simpl; auto; discriminate.
Qed.

Lemma pop_outcomes_witness :
  pop (mkShared [7; 8] false None false []) =
    Some (Item 7, mkShared [8] false None false [])
  /\ pop (mkShared [] true None false []) =
    Some (NoMoreItems, mkShared [] true None false [])
  /\ pop (mkShared [] false None false []) =
    Some (WouldBlock, mkShared [] false None true []).
Proof.
  split; [|split].
  - exact (proj1 (pop_outcomes (mkShared [7; 8] false None false []) eq_refl)).
  - exact (proj1 (pop_outcomes (mkShared [] true None false []) eq_refl)).
  - exact (proj1 (pop_outcomes (mkShared [] false None false []) eq_refl)).
Defined.


Lemma Download_keeps_flag (pc pc' : dl_pc) (g g' : shared) :
  Download pc g = Some (pc', g') ->
  g_DownloadFinished g = true -> g_DownloadFinished g' = true.
Proof.
  intros H Hf. destruct g as [d f m c o]; simpl in *; subst f.
  destruct pc; unstep H; try discriminate; subst; reflexivity.
Qed.

Lemma ProcessData_keeps_flag (pc pc' : pr_pc) (g g' : shared) :
  ProcessData pc g = Some (pc', g') ->
  g_DownloadFinished g' = g_DownloadFinished g.
Proof.
  intros H. destruct g as [d f m c o]; simpl in *.
  destruct pc; unstep H; try discriminate; subst; reflexivity.
Qed.

Lemma step_keeps_flag (a : actor) (s s' : state) :
  step a s = Some s' ->
  g_DownloadFinished (globals s) = true -> g_DownloadFinished (globals s') = true.
Proof.
  intros H Hf. destruct a as [[|]|]; simpl in H.
  - destruct (Download (producer s) (globals s)) as [[pc g]|] eqn:E; [|discriminate].
    injection H as <-. simpl. exact (Download_keeps_flag _ _ _ _ E Hf).
  - destruct (ProcessData (consumer s) (globals s)) as [[pc g]|] eqn:E; [|discriminate].
    injection H as <-. simpl. rewrite (ProcessData_keeps_flag _ _ _ _ E). exact Hf.
  - destruct (g_CV (globals s)); [|discriminate]. injection H as <-. exact Hf.
Qed.




(** *** The program *)

Lemma closed_step (a : actor) (s s' : state) :
  Inv s ->
  g_DownloadFinished (globals s) = true -> g_Data (globals s) = [] ->
  step a s = Some s' ->
  g_DownloadFinished (globals s') = true /\ g_Data (globals s') = [] /\
  (rank s' < rank s)%nat.
Proof.
  intros [Hm Hx Hp Hw Hf Hr Hpu Hfi He] Hflag Hd Hs.
  destruct s as [[d f m c o] dl pr]. unfold rank, owner in *. simpl in *.
  rewrite Hflag in Hf. subst f d. clear Hw Hr Hpu Hfi He Hx Hm.
  destruct a as [[|]|].
  - destruct dl; try discriminate; unstep Hs; simpl;
      repeat split; try reflexivity; try lia; destruct c; simpl; lia.
  - destruct c; [specialize (Hp eq_refl); subst pr; discriminate|].
    destruct pr; unstep Hs; try discriminate; simpl; repeat split; try reflexivity; try lia.
  - unstep Hs; simpl. repeat split; lia.
Qed.

Lemma closed_progress (s : state) :
  Inv s ->
  g_DownloadFinished (globals s) = true -> g_Data (globals s) = [] ->
  consumer s <> C_Done ->
  exists t s', step (Run t) s = Some s'.
Proof.
  intros [Hm Hx Hp Hw Hf Hr Hpu Hfi He] Hflag Hd Hn.
  destruct s as [[d f m c o] dl pr]. unfold owner, wait_pred, empty in *. simpl in *.
  rewrite Hflag in Hf. subst f d. clear Hr Hpu Hfi He Hp.
  destruct dl; try discriminate; simpl in *.
  all: try (exists Downloader; eexists; reflexivity).
  all: destruct pr; simpl in *; try discriminate; try congruence; subst m.
  all: try (exists Processor; eexists; reflexivity).
  all: destruct c; try (exists Processor; eexists; reflexivity).
  all: destruct (Hw eq_refl); discriminate.
Qed.

Lemma closed_finishes (n : nat) (s : state) :
  (rank s < n)%nat -> Inv s ->
  g_DownloadFinished (globals s) = true -> g_Data (globals s) = [] ->
  finishes s.
Proof.
  revert s. induction n as [|n IH]; intros s Hn HI Hf Hd; [lia|].
  assert (Hdec : consumer s = C_Done \/ consumer s <> C_Done).
  { destruct (consumer s); auto; right; discriminate. }
  destruct Hdec as [Hdone|Hnot].
  - apply fin_done. exact Hdone.
  - apply fin_step.
    + exact (closed_progress s HI Hf Hd Hnot).
    + intros a s' Hs.
      destruct (closed_step a s s' HI Hf Hd Hs) as (Hf' & Hd' & Hlt).
      apply IH; [lia | exact (Inv_step a s s' HI Hs) | exact Hf' | exact Hd'].
Qed.


Lemma closed_pushed (s : state) :
  Inv s -> g_DownloadFinished (globals s) = true ->
  pushed (cout (globals s)) = [0; 1; 2; 3; 4; 5; 6; 7; 8; 9].
Proof.
  intros HI Hf. rewrite (inv_pushed s HI).
  rewrite (inv_flag s HI) in Hf.
  destruct (producer s); try discriminate; reflexivity.
Qed.

Lemma closed_run (sched : list actor) (s s' : state) :
  Inv s ->
  g_DownloadFinished (globals s) = true -> g_Data (globals s) = [] ->
  run sched s = Some s' ->
  (length sched + rank s' <= rank s)%nat.
Proof.
  revert s. induction sched as [|a rest IH]; simpl; intros s HI Hf Hd Hs.
  - injection Hs as <-. lia.
  - destruct (step a s) as [s1|] eqn:E; simpl in Hs; [|discriminate].
    destruct (closed_step a s s1 HI Hf Hd E) as (Hf1 & Hd1 & Hlt).
    specialize (IH s1 (Inv_step a s s1 HI E) Hf1 Hd1 Hs). lia.
Qed.

Lemma rank_bound (s : state) : (rank s <= 11)%nat.
Proof.
  unfold rank. destruct (producer s), (consumer s), (g_CV (globals s)); simpl; lia.
Qed.

(** C3.  From a reachable state with the flag set and the list empty, no
    step of the downloader, of the processor or of a spurious wakeup
    changes the list, the flag, the items pushed or the items taken; the
    processor reaches [C_Done] on every path ([finishes]); and no run
    from that state is longer than [rank], which is at most 11 steps. *)
Theorem closed_empty_terminates (s : state) :
  reachable s ->
  g_DownloadFinished (globals s) = true -> g_Data (globals s) = [] ->
  (forall a s', step a s = Some s' ->
     g_Data (globals s') = [] /\ g_DownloadFinished (globals s') = true /\
     pushed (cout (globals s')) = pushed (cout (globals s)) /\
     popped s' = popped s)
  /\ finishes s
  /\ (forall sched s', run sched s = Some s' ->
        (length sched + rank s' <= rank s)%nat /\ (length sched <= 11)%nat).
Proof.
  intros Hr Hf Hd. assert (HI := Inv_reachable s Hr).
  split; [|split].
  - intros a s' Hs.
    destruct (closed_step a s s' HI Hf Hd Hs) as (Hf' & Hd' & _).
    assert (HI' := Inv_step a s s' HI Hs).
    assert (Hp : pushed (cout (globals s')) = pushed (cout (globals s))).
    { rewrite (closed_pushed s HI Hf), (closed_pushed s' HI' Hf'). reflexivity. }
    repeat split; auto.
    assert (E := inv_fifo s HI). assert (E' := inv_fifo s' HI').
    rewrite Hd, app_nil_r in E. rewrite Hd', app_nil_r in E'. congruence.
  - exact (closed_finishes (S (rank s)) s (Nat.lt_succ_diag_r _) HI Hf Hd).
  - intros sched s' Hs.
    assert (H := closed_run sched s s' HI Hf Hd Hs).
    assert (B := rank_bound s). lia.
Qed.

Lemma closed_empty_terminates_witness :
  consumer (exec drained) = C_Unlock 9 /\ finishes (exec drained).
Proof.
  split; [reflexivity|].
  apply (closed_empty_terminates (exec drained)).
  - apply exec_reachable.
  - reflexivity.
  - reflexivity.
Defined.

(** C10.  In every reachable state with [g_DownloadFinished] set, the
    ten items 0..9 have all been pushed, in that order; nothing is pushed
    afterwards; and when the list is empty as well (the processor's exit
    condition) the processor has taken all ten of them. *)
Theorem flag_after_all_pushes (s : state) :
  reachable s ->
  g_DownloadFinished (globals s) = true ->
  pushed (cout (globals s)) = [0; 1; 2; 3; 4; 5; 6; 7; 8; 9]
  /\ (forall a s', step a s = Some s' ->
        pushed (cout (globals s')) = pushed (cout (globals s)))
  /\ (g_Data (globals s) = [] -> popped s = [0; 1; 2; 3; 4; 5; 6; 7; 8; 9]).
Proof.
  intros Hr Hf. assert (HI := Inv_reachable s Hr).
  assert (Hp := closed_pushed s HI Hf).
  split; [exact Hp|]. split.
  - intros a s' Hs. rewrite Hp.
    apply closed_pushed; [exact (Inv_step a s s' HI Hs) | exact (step_keeps_flag a s s' Hs Hf)].
  - intros Hd. assert (E := inv_fifo s HI).
    rewrite Hd, app_nil_r in E. congruence.
Qed.

Lemma flag_after_all_pushes_witness :
  g_Data (globals (exec downloader_alone)) = [0; 1; 2; 3; 4; 5; 6; 7; 8; 9]
  /\ pushed (cout (globals (exec downloader_alone))) = [0; 1; 2; 3; 4; 5; 6; 7; 8; 9].
Proof.
  split; [reflexivity|].
  apply (flag_after_all_pushes (exec downloader_alone)).
  - apply exec_reachable.
  - reflexivity.
Defined.


(** *** Order of delivery *)




(** *** Waiting *)

Lemma asking_step (a : actor) (s s' : state) :
  no_downloader a = true ->
  pr_asking (consumer s) = true ->
  g_Data (globals s) = [] -> g_DownloadFinished (globals s) = false ->
  step a s = Some s' ->
  pr_asking (consumer s') = true /\
  g_Data (globals s') = [] /\ g_DownloadFinished (globals s') = false /\
  cout (globals s') = cout (globals s) \/
  consumer s = C_Start /\ consumer s' = C_Lock /\
  g_Data (globals s') = [] /\ g_DownloadFinished (globals s') = false.
Proof.
  intros Ha Hk Hd Hf Hs.
  destruct s as [[d f m c o] dl pr]. simpl in *. subst d f.
  destruct a as [[|]|]; [discriminate| |].
  - destruct pr; try discriminate; unstep Hs; try discriminate; simpl; auto 10.
  - unstep Hs; simpl; auto.
Qed.

Lemma asking_run (sched : list actor) (s s' : state) :
  forallb no_downloader sched = true ->
  pr_asking (consumer s) = true ->
  g_Data (globals s) = [] -> g_DownloadFinished (globals s) = false ->
  run sched s = Some s' ->
  pr_asking (consumer s') = true /\
  g_Data (globals s') = [] /\ g_DownloadFinished (globals s') = false /\
  processed (cout (globals s')) = processed (cout (globals s)).
Proof.
  revert s. induction sched as [|a rest IH]; simpl; intros s Hn Hk Hd Hf Hs.
  - injection Hs as <-. auto.
  - apply andb_true_iff in Hn. destruct Hn as [Ha Hn].
    destruct (step a s) as [s1|] eqn:E; simpl in Hs; [|discriminate].
    assert (Hp : processed (cout (globals s1)) = processed (cout (globals s))).
    { destruct a as [[|]|]; [discriminate| |].
      - destruct s as [[d f m c o] dl pr]. simpl in *.
        destruct pr; try discriminate; unstep E; try discriminate; simpl;
          rewrite ?processed_app, ?app_nil_r; reflexivity.
      - destruct s as [[d f m c o] dl pr]. unstep E; reflexivity. }
    rewrite <- Hp.
    destruct (asking_step a s s1 Ha Hk Hd Hf E) as [(H1 & H2 & H3 & _)|(_ & H1 & H2 & H3)].
    + apply IH; auto.
    + apply IH; auto. rewrite H1. reflexivity.
Qed.

Lemma taken_was_pushed (s s' : state) :
  Inv s -> step (Run Processor) s = Some s' ->
  (forall v, consumer s' = C_Unlock v ->
     In v (pushed (cout (globals s))) /\
     exists rest, g_Data (globals s) = v :: rest /\ g_Data (globals s') = rest)
  /\ (consumer s' = C_Exit ->
        g_DownloadFinished (globals s) = true /\ g_Data (globals s) = [])
  /\ (consumer s = C_Wait -> wait_pred (globals s) = false ->
        consumer s' = C_Blocked /\ g_Data (globals s') = g_Data (globals s) /\
        cout (globals s') = cout (globals s)).
Proof.
  intros HI Hs. assert (E := inv_fifo s HI). clear HI.
  destruct s as [[d f m c o] dl pr]. unfold popped, wait_pred, empty in *. simpl in *.
  destruct pr; unstep Hs; try discriminate; simpl;
    (split; [|split]); try discriminate; try (intros; discriminate); auto.
  intros v Hv. injection Hv as <-. split; [|eauto].
  rewrite E. apply in_or_app. right. left. reflexivity.
Qed.

Lemma cout_step (a : actor) (s s' : state) :
  step a s = Some s' ->
  cout (globals s') = cout (globals s) \/
  exists l, cout (globals s') = cout (globals s) ++ [l] /\
            forall v, l = Processed v -> consumer s = C_Process v.
Proof.
  intros Hs. destruct s as [[d f m c o] dl pr]. simpl.
  destruct a as [[|]|].
  - destruct dl; unstep Hs; try discriminate; simpl; auto;
      right; eexists; (split; [reflexivity|]); intros; discriminate.
  - destruct pr; unstep Hs; try discriminate; simpl; auto;
      right; eexists; (split; [reflexivity|]); intros v' Hv'; try discriminate.
    congruence.
  - unstep Hs; simpl; auto.
Qed.

Lemma pushed_In (o : list line) (v : Z) : In v (pushed o) -> In (Pushed v) o.
Proof.
  unfold pushed. rewrite in_flat_map. intros (l & Hl & Hv).
  destruct l; simpl in Hv; try contradiction.
  destruct Hv as [->|[]]. exact Hl.
Qed.

Lemma processed_after_pushed (s : state) :
  reachable s ->
  forall pre v post,
    cout (globals s) = pre ++ Processed v :: post -> In (Pushed v) pre.
Proof.
  induction 1 as [|a s s' Hr IH Hs]; intros pre v post Ho.
  - simpl in Ho. destruct pre; discriminate.
  - destruct (cout_step a s s' Hs) as [E|(l & E & Hl)].
    + rewrite E in Ho. exact (IH pre v post Ho).
    + rewrite E in Ho.
      destruct post as [|x post'] using rev_ind.
      * apply app_inj_tail in Ho. destruct Ho as [Hpre Hv].
        rewrite <- Hpre. subst l.
        assert (HI := Inv_reachable s Hr). assert (F := inv_fifo s HI).
        unfold popped in F. rewrite (Hl v eq_refl) in F. simpl in F.
        apply pushed_In. rewrite F. apply in_or_app. left.
        apply in_or_app. right. left. reflexivity.
      * clear IHpost'. rewrite app_comm_cons, app_assoc in Ho.
        apply app_inj_tail in Ho. destruct Ho as [Ho _].
        exact (IH pre v post' Ho).
Qed.


End CVExampleFacts.

Lemma range_snoc (lo : Z) (n : nat) : range lo (S n) = range lo n ++ [lo + Z.of_nat n].
Proof. unfold range. rewrite seq_S, map_app. reflexivity. Qed.

Lemma range_next (i : Z) :
  1 <= i -> range 1 (Z.to_nat i) = range 1 (Z.to_nat (i - 1)) ++ [i].
Proof.
  intros Hi. replace (Z.to_nat i) with (S (Z.to_nat (i - 1))) by lia.
  rewrite range_snoc. f_equal. f_equal. lia.
Qed.

Lemma range_length (lo : Z) (n : nat) : length (range lo n) = n.
Proof. unfold range. rewrite length_map, length_seq. reflexivity. Qed.

Module CondVarFacts.
Import CondVar.

Lemma produced_app (a b : list line) : produced (a ++ b) = produced a ++ produced b.
Proof. apply flat_map_app. Qed.

Lemma consumed_app (a b : list line) : consumed (a ++ b) = consumed a ++ consumed b.
Proof. apply flat_map_app. Qed.

Lemma cv_Inv_init : Inv init.
Proof. constructor; simpl; auto; unfold SIZE; lia. Qed.

Ltac unstep H :=
  repeat (unfold step, obind, Producer, Consumer, lock, empty in H; simpl in H);
  repeat match type of H with
  | context [match ?x with _ => _ end] => is_var x; destruct x; simpl in H; try discriminate H
  | context [if ?x then _ else _] => is_var x; destruct x; simpl in H; try discriminate H
  | context [?a <=? ?b] => destruct (Z.leb_spec a b); simpl in H
  end;
  try discriminate H;
  try (injection H as <-).

Ltac inv_side :=
  unfold owner, empty in *; simpl in *;
  rewrite ?produced_app, ?consumed_app in *; simpl in *;
  rewrite ?app_nil_r in *;
  try solve [ auto | discriminate | congruence | unfold SIZE in *; lia | tauto | eauto
            | rewrite range_next by lia; congruence
            | match goal with H : produced _ = range _ _ |- _ => rewrite H end;
              f_equal; unfold SIZE in *; lia
            | rewrite length_app; simpl; lia
            | match goal with H : produced _ = _ ++ _ |- _ => rewrite H end;
              rewrite <- ?app_assoc; reflexivity ].

Lemma cv_Inv_step (a : actor) (s s' : state) : Inv s -> step a s = Some s' -> Inv s'.
Proof.
  intros [Hm Hx Hpr Hkr Hpu Hco Hfr Hfi] Hs.
  destruct s as [[m c d o] pp kp]. unfold owner in *. simpl in *.
  destruct a as [[|]|].
  - destruct (k_holds kp) eqn:Eh; destruct pp; unstep Hs; constructor;
      unfold owner; simpl; rewrite ?Eh; inv_side.
    destruct kp; simpl in *; auto.
    destruct Hfr as [rest ->]. exists (rest ++ [i]). reflexivity.
  - destruct (p_holds pp) eqn:Eh; destruct kp; unstep Hs; constructor;
      unfold owner; simpl; rewrite ?Eh; inv_side.
    destruct Hfr as [rest ->]. simpl. exact Hfi.
  - unstep Hs; constructor; inv_side.
Qed.

Lemma cv_Inv_reachable (s : state) : reachable s -> Inv s.
Proof.
  induction 1 as [|a s s' _ IH Hs].
  - apply cv_Inv_init.
  - exact (cv_Inv_step a s s' IH Hs).
Qed.

Lemma cv_run_reachable (sched : list actor) (s s' : state) :
  reachable s -> run sched s = Some s' -> reachable s'.
Proof.
  revert s. induction sched as [|a rest IH]; simpl; intros s Hr Hs.
  - injection Hs as <-. exact Hr.
  - destruct (step a s) as [s1|] eqn:E; simpl in Hs; [|discriminate].
    apply (IH s1); [exact (reach_step a s s1 Hr E) | exact Hs].
Qed.

Lemma cv_exec_reachable (sched : list actor) : reachable (exec sched).
Proof.
  unfold exec. destruct (run sched init) as [s|] eqn:E.
  - exact (cv_run_reachable sched init s reach_init E).
  - exact reach_init.
Qed.

Lemma produced_bound (s : state) :
  Inv s -> exists n, (n <= 5)%nat /\ produced (cout (globals s)) = range 1 n.
Proof.
  intros HI. exists (Z.to_nat (p_count (producer s))). split.
  - assert (H := inv_p_range s HI). destruct (producer s); cbv [p_count p_range SIZE] in *; lia.
  - exact (inv_produced s HI).
Qed.

Lemma consumer_done (s : state) :
  Inv s -> consumer s = K_Done ->
  consumed (cout (globals s)) = [1; 2; 3; 4; 5] /\ g_data (globals s) = [].
Proof.
  intros HI Hd.
  destruct (produced_bound s HI) as (n & Hn & Hp).
  assert (Hc := inv_consumed s HI). assert (Hf := inv_fifo s HI).
  rewrite Hd in Hc, Hf. simpl in Hc, Hf. unfold SIZE in Hc.
  assert (Hl : length (produced (cout (globals s))) = n).
  { rewrite Hp. apply range_length. }
  rewrite Hf, length_app in Hl.
  assert (Hn5 : n = 5%nat) by lia. rewrite Hn5 in Hl, Hp.
  assert (Hq : g_data (globals s) = []).
  { destruct (g_data (globals s)); [reflexivity|]. simpl in Hl. lia. }
  split; [|exact Hq]. rewrite Hq, app_nil_r in Hf. rewrite <- Hf, Hp. reflexivity.
Qed.

Lemma cv_asking_step (a : actor) (s s' : state) :
  no_producer a = true ->
  k_asking (consumer s) = true -> g_data (globals s) = [] ->
  step a s = Some s' ->
  k_asking (consumer s') = true /\ g_data (globals s') = [] /\
  cout (globals s') = cout (globals s).
Proof.
  intros Ha Hk Hd Hs.
  destruct s as [[m c d o] pp kp]. simpl in *. subst d.
  destruct a as [[|]|]; [discriminate| |].
  - destruct kp; try discriminate; unstep Hs; simpl; auto.
  - unstep Hs; simpl; auto.
Qed.

Lemma cv_asking_run (sched : list actor) (s s' : state) :
  forallb no_producer sched = true ->
  k_asking (consumer s) = true -> g_data (globals s) = [] ->
  run sched s = Some s' ->
  k_asking (consumer s') = true /\ g_data (globals s') = [] /\
  cout (globals s') = cout (globals s).
Proof.
  revert s. induction sched as [|a rest IH]; simpl; intros s Hn Hk Hd Hs.
  - injection Hs as <-. auto.
  - apply andb_true_iff in Hn. destruct Hn as [Ha Hn].
    destruct (step a s) as [s1|] eqn:E; simpl in Hs; [|discriminate].
    destruct (cv_asking_step a s s1 Ha Hk Hd E) as (H1 & H2 & H3).
    rewrite <- H3. apply IH; auto.
Qed.

Lemma taken_was_produced (s s' : state) :
  Inv s -> step (Run t2) s = Some s' ->
  (forall i item, consumer s' = K_Pop i item ->
     In item (produced (cout (globals s))) /\
     exists rest, g_data (globals s) = item :: rest)
  /\ (forall i, consumer s = K_Wait i -> empty (globals s) = true ->
        consumer s' = K_Blocked i /\ g_data (globals s') = g_data (globals s) /\
        cout (globals s') = cout (globals s)).
Proof.
  intros HI Hs. assert (E := inv_fifo s HI). clear HI.
  destruct s as [[m c d o] pp kp]. unfold empty in *. simpl in *.
  destruct kp; unstep Hs; simpl; split; intros; try discriminate;
    repeat match goal with
    | H : @eq consumer_pc _ _ |- _ => inversion H; clear H; subst
    end; auto.
  split; [|eauto]. rewrite E. apply in_or_app. right. left. reflexivity.
Qed.

End CondVarFacts.

Module MutexDemoFacts.
Import MutexDemo.

Lemma SIZE_val : SIZE = 100000.
Proof. reflexivity. Qed.

Lemma mx_Inv_init : Inv init.
Proof. constructor; unfold main_ok; simpl; auto. Qed.

#[local] Opaque SIZE.

Ltac unstep H :=
  repeat (unfold step, main_step, obind, Download, Download2, worker, lock in H; simpl in H);
  repeat match type of H with
  | context [match ?x with _ => _ end] => is_var x; destruct x; simpl in H; try discriminate H
  | context [if ?x then _ else _] => is_var x; destruct x; simpl in H; try discriminate H
  | context [finished ?x] => destruct (finished x) eqn:?; simpl in H; try discriminate H
  | context [?a <? ?b] => destruct (Z.ltb_spec a b); simpl in H
  end;
  try discriminate H;
  try (injection H as <-).

Ltac inv_side :=
  unfold owner, main_ok in *; simpl in *;
  try solve [ auto | discriminate | congruence | tauto
            | rewrite ?length_app; simpl; lia
            | subst; rewrite ?length_app; simpl; lia
            | intuition (auto; try discriminate; try congruence) ].

Lemma mx_Inv_step (a : actor) (s s' : state) : Inv s -> step a s = Some s' -> Inv s'.
Proof.
  intros [Hm Hx Hr1 Hr2 Hs1 Hs2 Hsz Hmn] Hs.
  destruct s as [[d m] p1 p2 mp o]. unfold owner, main_ok in *. simpl in *.
  destruct a as [|[|]].
  - destruct mp; unstep Hs; decompose [and] Hmn; subst; constructor; inv_side.
  - destruct (holds p2) eqn:Eh; destruct p1 as [[]|]; unstep Hs; constructor;
      unfold owner, main_ok; simpl; rewrite ?Eh; inv_side.
    all: try (destruct mp; inv_side).
    all: destruct p2 as [[]|]; simpl in *; try discriminate; auto.
  - destruct (holds p1) eqn:Eh; destruct p2 as [[]|]; unstep Hs; constructor;
      unfold owner, main_ok; simpl; rewrite ?Eh; inv_side.
    all: try (destruct mp; inv_side).
    all: destruct p1 as [[]|]; simpl in *; try discriminate; auto.
Qed.

Lemma mx_Inv_reachable (s : state) : reachable s -> Inv s.
Proof.
  induction 1 as [|a s s' _ IH Hs].
  - apply mx_Inv_init.
  - exact (mx_Inv_step a s s' IH Hs).
Qed.

Lemma mx_run_reachable (sched : list actor) (s s' : state) :
  reachable s -> run sched s = Some s' -> reachable s'.
Proof.
  revert s. induction sched as [|a rest IH]; simpl; intros s Hr Hs.
  - injection Hs as <-. exact Hr.
  - destruct (step a s) as [s1|] eqn:E; simpl in Hs; [|discriminate].
    apply (IH s1); [exact (reach_step a s s1 Hr E) | exact Hs].
Qed.

(** One thread runs its loop alone: after [k] turns it has appended
    [iota k]. *)
Lemma th1_turns (k : nat) (d : list Z) (p2 : option dl_pc) (mp : main_pc) (o : list Z) :
  Z.of_nat k <= SIZE ->
  reachable (mkState (mkShared d None) (Some (L_Loop 0)) p2 mp o) ->
  reachable (mkState (mkShared (d ++ iota k) None) (Some (L_Loop (Z.of_nat k))) p2 mp o).
Proof.
  intros Hk H0. induction k as [|k IH].
  - simpl. rewrite app_nil_r. exact H0.
  - assert (Hlt : (Z.of_nat k <? SIZE) = true) by (apply Z.ltb_lt; lia).
    apply (mx_run_reachable (repeat (Run thDownloader) 5) _ _ (IH ltac:(lia))).
    simpl. unfold Download, worker, obind. simpl. rewrite Hlt. simpl.
    rewrite iota_snoc, app_assoc. do 4 f_equal. lia.
Qed.

Lemma th2_turns (k : nat) (d : list Z) (p1 : option dl_pc) (mp : main_pc) (o : list Z) :
  Z.of_nat k <= SIZE ->
  reachable (mkState (mkShared d None) p1 (Some (L_Loop 0)) mp o) ->
  reachable (mkState (mkShared (d ++ iota k) None) p1 (Some (L_Loop (Z.of_nat k))) mp o).
Proof.
  intros Hk H0. induction k as [|k IH].
  - simpl. rewrite app_nil_r. exact H0.
  - assert (Hlt : (Z.of_nat k <? SIZE) = true) by (apply Z.ltb_lt; lia).
    apply (mx_run_reachable (repeat (Run thDownloader2) 5) _ _ (IH ltac:(lia))).
    simpl. unfold Download2, worker, obind. simpl. rewrite Hlt. simpl.
    rewrite iota_snoc, app_assoc. do 4 f_equal. lia.
Qed.

Lemma sequential_end_reachable : reachable sequential_end.
Proof.
  assert (Hn : Z.of_nat (Z.to_nat SIZE) = SIZE) by (rewrite SIZE_val; lia).
  assert (Hge : (SIZE <? SIZE) = false) by apply Z.ltb_irrefl.
  assert (R0 : reachable (mkState (mkShared [] None) (Some (L_Loop 0)) (Some (L_Loop 0)) M_Join1 [])).
  { apply (mx_run_reachable [Main; Main] init _ reach_init). reflexivity. }
  assert (R1 := th1_turns (Z.to_nat SIZE) [] _ _ _ ltac:(lia) R0).
  rewrite Hn in R1. simpl app in R1.
  assert (R2 : reachable (mkState (mkShared (iota (Z.to_nat SIZE)) None)
                                  (Some L_Done) (Some (L_Loop 0)) M_Join2 [])).
  { apply (mx_run_reachable [Run thDownloader; Main] _ _ R1).
    simpl. unfold Download, worker, obind. simpl. rewrite Hge. reflexivity. }
  assert (R3 := th2_turns (Z.to_nat SIZE) _ _ _ _ ltac:(lia) R2).
  rewrite Hn in R3.
  apply (mx_run_reachable [Run thDownloader2; Main; Main] _ _ R3).
  simpl. unfold Download2, worker, obind. simpl. rewrite Hge. simpl.
  unfold sequential_end.
  rewrite length_app, iota_length, Nat2Z.inj_add, Hn.
  replace (SIZE + SIZE) with (2 * SIZE) by lia. reflexivity.
Qed.

(** C8.  In every reachable state of the mutex demo the length of
    [g_Data] is the number of appends the two workers have completed,
    and the workers never hold the mutex together; so once both have
    finished, [g_Data] has 2 * SIZE = 200000 elements, SIZE from each
    worker, and that is the only number [main] ever prints. *)
Theorem no_append_lost (s : state) :
  reachable s ->
  Z.of_nat (length (g_Data (globals s))) = appended (th1 s) + appended (th2 s)
  /\ holds (th1 s) && holds (th2 s) = false
  /\ (finished (th1 s) = true -> finished (th2 s) = true ->
        appended (th1 s) = 100000 /\ appended (th2 s) = 100000 /\
        Z.of_nat (length (g_Data (globals s))) = 200000)
  /\ (forall n, In n (cout s) -> n = 200000).
Proof.
  intros Hr. assert (HI := mx_Inv_reachable s Hr).
  assert (Hsz := inv_size s HI). assert (Hmn := inv_main s HI).
  assert (Hdone : forall t, finished t = true -> appended t = 100000).
  { intros [[]|]; simpl; try discriminate. intros _. exact SIZE_val. }
  split; [exact Hsz|]. split; [exact (inv_excl s HI)|]. split.
  - intros H1 H2. rewrite Hsz, (Hdone _ H1), (Hdone _ H2). repeat split; reflexivity.
  - intros n Hn. unfold main_ok in Hmn.
    destruct (main s); decompose [and] Hmn;
      match goal with H : cout s = _ |- _ => rewrite H in Hn end;
      simpl in Hn; try contradiction.
    destruct Hn as [<-|[]].
    rewrite Hsz, (Hdone (th1 s)), (Hdone (th2 s)); auto.
Qed.

Lemma no_append_lost_witness :
  Z.of_nat (length (g_Data (globals sequential_end))) = 200000.
Proof.
  exact (proj2 (proj2 (proj1 (proj2 (proj2
           (no_append_lost sequential_end sequential_end_reachable))) eq_refl eq_refl))).
Defined.

End MutexDemoFacts.


Module PromiseDemoFacts.
Import PromiseDemo.

Lemma wrap_small (z : Z) : INT_MIN <= z <= INT_MAX -> wrap z = z.
Proof.
  unfold wrap, INT_MIN, INT_MAX. intros H.
  rewrite Z.mod_small; lia.
Qed.

Lemma wrap_range (z : Z) : INT_MIN <= wrap z <= INT_MAX.
Proof.
  unfold wrap, INT_MIN, INT_MAX.
  assert (H := Z.mod_pos_bound (z + 2 ^ 31) (2 ^ 32) ltac:(lia)). lia.
Qed.

Lemma triangle_next (i : Z) : (i + 1) * i / 2 = i * (i - 1) / 2 + i.
Proof.
  replace ((i + 1) * i) with (i * (i - 1) + i * 2) by ring.
  apply Z.div_add. lia.
Qed.

Lemma loop_sum (fuel : nat) (count i : Z) :
  0 <= i <= count -> count <= 65536 -> count - i <= Z.of_nat fuel ->
  loop fuel count i (i * (i - 1) / 2) = count * (count - 1) / 2.
Proof.
  revert i. induction fuel as [|f IH]; intros i Hi Hc Hf; simpl.
  - assert (i = count) by lia. subst i. reflexivity.
  - destruct (Z.ltb_spec i count) as [Hlt|Hge].
    + rewrite wrap_small.
      * rewrite <- triangle_next.
        replace ((i + 1) * i) with ((i + 1) * (i + 1 - 1)) by ring.
        apply IH; lia.
      * rewrite <- triangle_next. unfold INT_MIN, INT_MAX.
        assert (0 <= (i + 1) * i / 2) by (apply Z.div_pos; nia).
        assert ((i + 1) * i / 2 <= 65536 * 65535 / 2).
        { apply Z.div_le_mono; nia. }
        change (65536 * 65535 / 2) with 2147450880 in *. lia.
    + assert (i = count) by lia. subst i. reflexivity.
Qed.

Lemma accumulate_sum (count : Z) :
  0 <= count <= 65536 -> accumulate count = count * (count - 1) / 2.
Proof.
  intros H. unfold accumulate.
  change 0 with (0 * (0 - 1) / 2) at 2.
  apply loop_sum; lia.
Qed.

Lemma accumulate_nonpositive (count : Z) : count <= 0 -> accumulate count = 0.
Proof.
  intros H. unfold accumulate. replace (Z.to_nat count) with O by lia. reflexivity.
Qed.

(** C9 as stated does not hold: for [count = 65537] the sum
    0 + ... + 65536 = 2147516416 exceeds [INT_MAX], and the [int]
    that [Operation] returns is a different number. *)
Lemma Operation_sum_overflows :
  0 <= 65537
  /\ Operation (mkChannel (Value 65537) true) =
       Some (-2147450880, mkChannel (Value 65537) false)
  /\ 65537 * (65537 - 1) / 2 = 2147516416
  /\ ~ (forall count, 0 <= count ->
          Operation (mkChannel (Value count) true) =
            Some (count * (count - 1) / 2, mkChannel (Value count) false)).
Proof.
  assert (E : Operation (mkChannel (Value 65537) true) =
              Some (-2147450880, mkChannel (Value 65537) false)).
  { vm_compute. reflexivity. }
  split; [lia|]. split; [exact E|]. split; [reflexivity|].
  intros H. specialize (H 65537 ltac:(lia)). rewrite E in H.
  injection H as H. discriminate H.
Qed.

(** C9, amended.  For every [count] from 0 to 65536 (the counts whose sum
    fits an [int]) [Operation] returns 0 + 1 + ... + (count - 1), that is
    count * (count - 1) / 2, and leaves the future used up; with the
    value 10 set by [main] the sum retrieved by [result.get()] is 45. *)
Theorem Operation_sum (count : Z) :
  0 <= count <= 65536 ->
  Operation (mkChannel (Value count) true) =
    Some (count * (count - 1) / 2, mkChannel (Value count) false)
  /\ option_map (fun r => fst (fst r)) main = Some 45.
Proof.
  intros H. split.
  - unfold Operation, get. simpl. rewrite (accumulate_sum count H). reflexivity.
  - reflexivity.
Qed.

Lemma Operation_sum_witness :
  Operation (mkChannel (Value 65536) true) =
    Some (2147450880, mkChannel (Value 65536) false).
Proof.
  exact (proj1 (Operation_sum 65536 ltac:(lia))).
Defined.

(** C7.  When the producing side has set an error, the next retrieval
    re-raises exactly that error, and [Operation] takes its handler and
    returns -1.  Retrieval works once: after a retrieval that returned
    or raised, the future is no longer valid and a second retrieval has
    no state to read.  The cell is completed at most once. *)
Theorem error_propagates_once (c : channel) (e : exn) :
  contents c = Empty -> valid c = true ->
  (forall c', set_exception e c = Completed c' ->
     get c' = Throws e (mkChannel (Error e) false) /\
     Operation c' = Some (-1, mkChannel (Error e) false))
  /\ (exists c', set_exception e c = Completed c')
  /\ (forall d v d', get d = Returns v d' -> get d' = NoState /\ valid d' = false)
  /\ (forall d x d', get d = Throws x d' -> get d' = NoState /\ valid d' = false)
  /\ (forall c' v x, set_exception e c = Completed c' ->
        set_value v c' = AlreadySatisfied /\ set_exception x c' = AlreadySatisfied).
Proof.
  intros Hc Hv. destruct c as [k b]. simpl in *. subst k b.
  split; [|split; [|split; [|split]]].
  - intros c' H. injection H as <-. split; reflexivity.
  - eexists. reflexivity.
  - intros [k b] v d' H. unfold get in H. simpl in H.
    destruct b; [|discriminate]. destruct k; try discriminate.
    injection H as <- <-. split; reflexivity.
  - intros [k b] x d' H. unfold get in H. simpl in H.
    destruct b; [|discriminate]. destruct k; try discriminate.
    injection H as <- <-. split; reflexivity.
  - intros c' v x H. injection H as <-. split; reflexivity.
Qed.

Lemma error_propagates_once_witness :
  Operation (mkChannel (Error (std_exception 7)) true) =
    Some (-1, mkChannel (Error (std_exception 7)) false).
Proof.
  exact (proj2 (proj1 (error_propagates_once fresh (std_exception 7) eq_refl eq_refl)
                  (mkChannel (Error (std_exception 7)) true) eq_refl)).
Defined.

End PromiseDemoFacts.

(** * The waiting discipline across the two files *)

(** C5.  A pop never returns without a push or the close.  In the
    example file: while the list is empty and the flag is not set, no
    sequence of processor statements and spurious wakeups takes the
    processor out of its pop, changes the list or reports an item; a
    wakeup that finds the predicate false parks the processor again;
    every item the processor takes is the head of the list and was
    pushed before; every "Processed v" in the output comes after
    "Pushed v"; and the processor leaves its loop only with the flag set
    and the list empty.  In 9_Thread_condition_variable.cpp: with the
    queue empty no sequence of consumer statements and spurious wakeups
    takes the consumer past its wait, and every item it takes is the
    head of the queue and was produced before. *)
Theorem no_spurious_return :
  (forall sched s s',
     forallb CVExample.no_downloader sched = true ->
     CVExample.pr_asking (CVExample.consumer s) = true ->
     CVExample.g_Data (CVExample.globals s) = [] ->
     CVExample.g_DownloadFinished (CVExample.globals s) = false ->
     CVExample.run sched s = Some s' ->
     CVExample.pr_asking (CVExample.consumer s') = true /\
     CVExample.g_Data (CVExample.globals s') = [] /\
     CVExample.g_DownloadFinished (CVExample.globals s') = false /\
     CVExample.processed (CVExample.cout (CVExample.globals s')) =
       CVExample.processed (CVExample.cout (CVExample.globals s)))
  /\ (forall s s',
        CVExample.reachable s ->
        CVExample.step (CVExample.Run CVExample.Processor) s = Some s' ->
        (forall v, CVExample.consumer s' = CVExample.C_Unlock v ->
           In v (CVExample.pushed (CVExample.cout (CVExample.globals s))) /\
           exists rest, CVExample.g_Data (CVExample.globals s) = v :: rest /\
                        CVExample.g_Data (CVExample.globals s') = rest)
        /\ (CVExample.consumer s' = CVExample.C_Exit ->
              CVExample.g_DownloadFinished (CVExample.globals s) = true /\
              CVExample.g_Data (CVExample.globals s) = [])
        /\ (CVExample.consumer s = CVExample.C_Wait ->
              CVExample.wait_pred (CVExample.globals s) = false ->
              CVExample.consumer s' = CVExample.C_Blocked /\
              CVExample.g_Data (CVExample.globals s') = CVExample.g_Data (CVExample.globals s) /\
              CVExample.cout (CVExample.globals s') = CVExample.cout (CVExample.globals s)))
  /\ (forall s, CVExample.reachable s ->
        forall pre v post,
          CVExample.cout (CVExample.globals s) = pre ++ CVExample.Processed v :: post ->
          In (CVExample.Pushed v) pre)
  /\ (forall s, CVExample.reachable s ->
        CVExample.pr_exited (CVExample.consumer s) = true ->
        CVExample.g_DownloadFinished (CVExample.globals s) = true /\
        CVExample.g_Data (CVExample.globals s) = [])
  /\ (forall sched s s',
        forallb CondVar.no_producer sched = true ->
        CondVar.k_asking (CondVar.consumer s) = true ->
        CondVar.g_data (CondVar.globals s) = [] ->
        CondVar.run sched s = Some s' ->
        CondVar.k_asking (CondVar.consumer s') = true /\
        CondVar.g_data (CondVar.globals s') = [] /\
        CondVar.cout (CondVar.globals s') = CondVar.cout (CondVar.globals s))
  /\ (forall s s',
        CondVar.reachable s ->
        CondVar.step (CondVar.Run CondVar.t2) s = Some s' ->
        (forall i item, CondVar.consumer s' = CondVar.K_Pop i item ->
           In item (CondVar.produced (CondVar.cout (CondVar.globals s))) /\
           exists rest, CondVar.g_data (CondVar.globals s) = item :: rest)
        /\ (forall i, CondVar.consumer s = CondVar.K_Wait i ->
              CondVar.empty (CondVar.globals s) = true ->
              CondVar.consumer s' = CondVar.K_Blocked i /\
              CondVar.g_data (CondVar.globals s') = CondVar.g_data (CondVar.globals s) /\
              CondVar.cout (CondVar.globals s') = CondVar.cout (CondVar.globals s))).
Proof.
  split; [|split; [|split; [|split; [|split]]]].
  - exact CVExampleFacts.asking_run.
  - intros s s' Hr Hs.
    exact (CVExampleFacts.taken_was_pushed s s' (CVExampleFacts.Inv_reachable s Hr) Hs).
  - exact CVExampleFacts.processed_after_pushed.
  - intros s Hr. exact (CVExample.inv_exit s (CVExampleFacts.Inv_reachable s Hr)).
  - exact CondVarFacts.cv_asking_run.
  - intros s s' Hr Hs.
    exact (CondVarFacts.taken_was_produced s s' (CondVarFacts.cv_Inv_reachable s Hr) Hs).
Qed.

Lemma no_spurious_return_witness :
  CVExample.consumer
    (CVExample.exec [CVExample.Run CVExample.Processor; CVExample.Run CVExample.Processor;
                     CVExample.Run CVExample.Processor; CVExample.Spurious;
                     CVExample.Run CVExample.Processor; CVExample.Run CVExample.Processor])
    = CVExample.C_Blocked
  /\ CVExample.pr_asking
       (CVExample.consumer
          (CVExample.exec [CVExample.Run CVExample.Processor; CVExample.Run CVExample.Processor;
                           CVExample.Run CVExample.Processor; CVExample.Spurious;
                           CVExample.Run CVExample.Processor; CVExample.Run CVExample.Processor]))
     = true.
Proof.
  split; [reflexivity|].
  apply (proj1 no_spurious_return
           [CVExample.Run CVExample.Processor; CVExample.Run CVExample.Processor;
            CVExample.Run CVExample.Processor; CVExample.Spurious;
            CVExample.Run CVExample.Processor; CVExample.Run CVExample.Processor]
           CVExample.init); reflexivity.
Defined.

(** * Further properties of 10_Thread_ConditionVariable_example.cpp *)

Module CVExampleMore.
Import CVExample CVExampleFacts.

Ltac can_move t :=
  right; exists t;
  unfold step, obind, Download, ProcessData, lock, wait_pred, empty; simpl;
  repeat match goal with
  | |- context [match ?x with [] => _ | _ :: _ => _ end] => destruct x; simpl
  | |- context [if ?x then _ else _] => destruct x; simpl
  end;
  eexists; reflexivity.

(** The mutex is held by at most one of the two threads, its owner is
    the thread inside a critical section, and the processor reports an
    item ("unlock while processing", line 61) without holding it. *)
Theorem mutex_exclusive (s : state) :
  reachable s ->
  dl_holds (producer s) && pr_holds (consumer s) = false
  /\ (g_Mutex (globals s) = Some Downloader <-> dl_holds (producer s) = true)
  /\ (g_Mutex (globals s) = Some Processor <-> pr_holds (consumer s) = true)
  /\ (forall v, consumer s = C_Process v -> g_Mutex (globals s) <> Some Processor).
Proof.
  intros Hr. assert (HI := Inv_reachable s Hr).
  assert (Hm := inv_mutex s HI). assert (Hx := inv_excl s HI).
  unfold owner in Hm. split; [exact Hx|].
  destruct (dl_holds (producer s)) eqn:Ed, (pr_holds (consumer s)) eqn:Ep;
    simpl in Hx; try discriminate; rewrite Hm;
    (split; [|split]); try (split; congruence);
    intros v Hv; rewrite Hv in Ep; simpl in Ep; congruence.
Qed.

Lemma mutex_exclusive_witness :
  g_Mutex (globals (exec [Run Downloader; Run Downloader; Run Downloader]))
    = Some Downloader
  /\ pr_holds (consumer (exec [Run Downloader; Run Downloader; Run Downloader])) = false.
Proof.
  split; [reflexivity|].
  assert (H := mutex_exclusive (exec [Run Downloader; Run Downloader; Run Downloader])
                 (exec_reachable _)).
  destruct H as (Hx & _). simpl in Hx. exact Hx.
Defined.

(** The program never deadlocks and no wakeup is lost: in every
    reachable state either both threads have returned, or one of the two
    threads (not only a spurious wakeup) can execute its next statement.
    When both have returned the list is empty, the flag is set, the
    mutex is free and nobody is parked. *)
Theorem never_stuck (s : state) :
  reachable s ->
  (producer s = D_Done /\ consumer s = C_Done /\
   g_Data (globals s) = [] /\ g_DownloadFinished (globals s) = true /\
   g_Mutex (globals s) = None /\ g_CV (globals s) = false)
  \/ exists t s', step (Run t) s = Some s'.
Proof.
  intros Hr. destruct (Inv_reachable s Hr) as [Hm Hx Hp Hw Hf Hr' Hpu Hfi He].
  destruct s as [[d f m c o] dl pr].
  unfold owner, wait_pred, empty in *. simpl in *.
  destruct dl; simpl in *; try (can_move Downloader).
  - destruct pr; simpl in *; subst m; try (can_move Downloader); can_move Processor.
  - destruct pr; simpl in *; subst m; try (can_move Downloader); can_move Processor.
  - destruct pr; simpl in *; subst m f; try (can_move Processor).
    + destruct c; [|can_move Processor].
      destruct (Hw eq_refl) as [H|H]; [|discriminate].
      rewrite orb_true_r in H. discriminate.
    + destruct (He eq_refl) as [_ ->].
      destruct c; [specialize (Hp eq_refl); discriminate|].
      left. auto 10.
Qed.

Lemma never_stuck_witness :
  exists t s', step (Run t) (exec downloader_alone) = Some s'.
Proof.
  destruct (never_stuck (exec downloader_alone) (exec_reachable _)) as [H|H].
  - exfalso. destruct H as (_ & H & _).
    assert (E : consumer (exec downloader_alone) = C_Start) by (vm_compute; reflexivity).
    rewrite E in H. discriminate H.
  - exact H.
Defined.

End CVExampleMore.


(** * A step budget for 10_Thread_ConditionVariable_example.cpp *)

Module CVExampleBoundFacts.
Import CVExample CVExampleFacts CVExampleBound.

#[local] Arguments Z.mul : simpl never.
#[local] Arguments Z.add : simpl never.
#[local] Arguments Z.sub : simpl never.
#[local] Arguments Z.eqb : simpl never.
#[local] Arguments Z.of_nat : simpl never.

Ltac budget_arith :=
  unfold budget, pr_left, from_lock, after_items, dl_range in *; simpl in *;
  unfold SIZE in *;
  rewrite ?length_app in *; simpl in *;
  repeat match goal with
  | |- context [?a =? ?b] => destruct (Z.eqb_spec a b); simpl
  | |- context [?x && _] => is_var x; destruct x; simpl
  | |- context [?x || _] => is_var x; destruct x; simpl
  | |- context [if ?x then _ else _] => is_var x; destruct x; simpl
  end; try lia.

Lemma budget_statement (t : thread) (s s' : state) :
  Inv s -> step (Run t) s = Some s' -> budget s' + 1 <= budget s.
Proof.
  intros HI Hs. assert (Hr := inv_range s HI). clear HI.
  destruct s as [[d f m c o] dl pr]. simpl in *.
  destruct t.
  - destruct dl; unstep Hs; try discriminate; destruct pr; unfold dl_left; budget_arith.
  - destruct pr; unstep Hs; try discriminate; unfold budget; simpl;
      generalize (dl_left dl); intros left; budget_arith.
Qed.

Lemma budget_wakeup (s s' : state) :
  step Spurious s = Some s' -> budget s' <= budget s + 2.
Proof.
  intros Hs. destruct s as [[d f m c o] dl pr].
  unstep Hs. unfold budget; simpl. generalize (dl_left dl); intros left.
  destruct pr; budget_arith.
Qed.

Lemma budget_nonneg (s : state) : Inv s -> 0 <= budget s.
Proof.
  intros HI. assert (Hr := inv_range s HI). clear HI.
  destruct s as [[d f m c o] dl pr]. simpl in *.
  destruct dl, pr; unfold dl_left; budget_arith.
Qed.

Lemma budget_run (sched : list actor) (s s' : state) :
  Inv s -> run sched s = Some s' ->
  statements sched + budget s' <= budget s + 2 * wakeups sched.
Proof.
  revert s. induction sched as [|a rest IH]; simpl; intros s HI Hs.
  - injection Hs as <-. unfold statements, wakeups. simpl. lia.
  - destruct (step a s) as [s1|] eqn:E; simpl in Hs; [|discriminate].
    specialize (IH s1 (Inv_step a s s1 HI E) Hs).
    unfold statements, wakeups in *. simpl.
    destruct a as [t|]; simpl.
    + assert (B := budget_statement t s s1 HI E). lia.
    + assert (B := budget_wakeup s s1 E). lia.
Qed.

(** Every run of the program is bounded: the number of statements the
    two threads execute, plus what the reached state may still need, is
    at most 516 plus two for every spurious wakeup.  A run without
    spurious wakeups therefore has at most 516 steps. *)
Theorem run_is_bounded (sched : list actor) (s : state) :
  run sched init = Some s ->
  0 <= budget s
  /\ statements sched + budget s <= 516 + 2 * wakeups sched
  /\ (wakeups sched = 0 -> (length sched <= 516)%nat).
Proof.
  intros Hs.
  assert (HI : Inv s).
  { apply Inv_reachable. exact (run_reachable sched init s reach_init Hs). }
  assert (B := budget_run sched init s Inv_init Hs).
  assert (N := budget_nonneg s HI).
  change (budget init) with 516 in B.
  split; [exact N|]. split; [exact B|].
  intros Hw. rewrite Hw in B.
  assert (L : Z.of_nat (length sched) = statements sched + wakeups sched).
  { clear. unfold statements, wakeups. induction sched as [|[t|] rest IH]; simpl; lia. }
  lia.
Qed.

Lemma run_is_bounded_witness :
  statements downloader_first + budget (exec downloader_first) <= 516.
Proof.
  assert (E : run downloader_first init = Some (exec downloader_first)).
  { vm_compute. reflexivity. }
  assert (H := proj1 (proj2 (run_is_bounded downloader_first _ E))).
  assert (W : wakeups downloader_first = 0) by (vm_compute; reflexivity).
  rewrite W in H. exact H.
Defined.

End CVExampleBoundFacts.

(** * Further properties of 9_Thread_condition_variable.cpp *)

Module CondVarSafetyFacts.
Import CondVar CondVarFacts CondVarSafety.

Lemma Safe_init : Safe init.
Proof. constructor; simpl; intros; discriminate. Qed.

Lemma Safe_step (a : actor) (s s' : state) : Safe s -> step a s = Some s' -> Safe s'.
Proof.
  intros [Hf Hp Hw] Hs.
  destruct s as [[m c d o] pp kp]. simpl in *.
  destruct a as [[|]|].
  - destruct pp; unstep Hs; constructor; simpl; auto; try discriminate.
    intros _ H. destruct d; discriminate.
  - destruct kp; unstep Hs; constructor; simpl; auto; try discriminate.
    intros Hc. specialize (Hp Hc). discriminate.
  - unstep Hs; constructor; simpl; auto; try discriminate.
Qed.

Lemma Safe_reachable (s : state) : reachable s -> Safe s.
Proof.
  induction 1 as [|a s s' _ IH Hs].
  - apply Safe_init.
  - exact (Safe_step a s s' IH Hs).
Qed.

Ltac can_move t :=
  right; exists t;
  unfold step, obind, Producer, Consumer, lock, empty; simpl;
  repeat match goal with
  | |- context [match ?x with [] => _ | _ :: _ => _ end] => destruct x; simpl
  | |- context [if ?x then _ else _] => destruct x; simpl
  end;
  eexists; reflexivity.

(** [front] and [pop] are never applied to an empty queue: whenever
    [Consumer] is about to read the front the queue is non-empty, and
    between [front] and [pop] the queue still starts with the item read.
    The two threads are never inside their critical sections together. *)
Theorem front_never_on_empty (s : state) :
  reachable s ->
  (forall i, consumer s = K_Front i ->
     exists item rest, g_data (globals s) = item :: rest /\
                       Consumer (K_Front i) (globals s) = Some (K_Pop i item, globals s))
  /\ (forall i item, consumer s = K_Pop i item ->
        exists rest, g_data (globals s) = item :: rest)
  /\ p_holds (producer s) && k_holds (consumer s) = false.
Proof.
  intros Hr. assert (HS := Safe_reachable s Hr). assert (HI := cv_Inv_reachable s Hr).
  split; [|split].
  - intros i Hi. assert (H := safe_front s HS). rewrite Hi in H.
    specialize (H eq_refl). simpl.
    destruct (g_data (globals s)) as [|item rest]; [contradiction|]. eauto.
  - intros i item Hi. assert (H := inv_front s HI). rewrite Hi in H. exact H.
  - exact (inv_excl s HI).
Qed.

Lemma front_never_on_empty_witness :
  exists item rest,
    g_data (globals (exec [Run t1; Run t1; Run t1; Run t1; Run t2; Run t2; Run t2]))
    = item :: rest.
Proof.
  destruct (proj1 (front_never_on_empty _ (cv_exec_reachable
              [Run t1; Run t1; Run t1; Run t1; Run t2; Run t2; Run t2])) 1 eq_refl)
    as (item & rest & H & _).
  exists item, rest. exact H.
Defined.

Lemma produced_length (s : state) :
  Inv s -> Z.of_nat (length (produced (cout (globals s)))) = p_count (producer s).
Proof.
  intros HI. rewrite (inv_produced s HI), range_length.
  assert (H := inv_p_range s HI).
  destruct (producer s); cbv [p_count p_range SIZE] in *; lia.
Qed.

(** The program never deadlocks: in every reachable state either both
    loops have ended, or one of the two threads can execute its next
    statement.  When both have ended, the five items were produced and
    consumed in order, the queue is empty and the mutex is free. *)
Theorem producer_consumer_never_stuck (s : state) :
  reachable s ->
  (producer s = P_Done /\ consumer s = K_Done /\
   g_data (globals s) = [] /\ mtx (globals s) = None /\
   produced (cout (globals s)) = [1; 2; 3; 4; 5] /\
   consumed (cout (globals s)) = [1; 2; 3; 4; 5])
  \/ exists t s', step (Run t) s = Some s'.
Proof.
  intros Hr. assert (HS := Safe_reachable s Hr). assert (HI := cv_Inv_reachable s Hr).
  assert (Hpl := produced_length s HI).
  assert (Hdone := consumer_done s HI).
  destruct HS as [Hf Hp Hw].
  destruct HI as [Hm Hx Hpr Hkr Hpu Hco Hfr Hfi].
  rewrite Hfi, !length_app, !Nat2Z.inj_add, Hco in Hpl.
  destruct s as [[m c d o] pp kp]. unfold owner, empty in *. simpl in *.
  destruct pp; simpl in *; try (can_move t1).
  - destruct kp; simpl in *; subst m; try (can_move t1); try (can_move t2).
    destruct d; [exfalso; apply Hf; reflexivity | can_move t2].
  - destruct kp; simpl in *; subst m; try (can_move t2).
    + destruct c; [|can_move t2].
      destruct (Hw eq_refl) as [->|H]; [|discriminate].
      simpl in Hpl. unfold SIZE in *. lia.
    + destruct d; [|can_move t2]. exfalso. apply Hf; reflexivity.
    + left. destruct (Hdone eq_refl) as [Hc ->].
      rewrite Hpu. repeat split; auto.
Qed.

Lemma producer_consumer_never_stuck_witness :
  consumed (cout (globals (exec lockstep))) = [1; 2; 3; 4; 5].
Proof.
  destruct (producer_consumer_never_stuck _ (cv_exec_reachable lockstep)) as [H|H].
  - exact (proj2 (proj2 (proj2 (proj2 (proj2 H))))).
  - exfalso. destruct H as (t & s' & H).
    assert (E : exec lockstep =
                mkState (mkShared None false []
                           [Produced 1; Consumed 1; Produced 2; Consumed 2; Produced 3;
                            Consumed 3; Produced 4; Consumed 4; Produced 5; Consumed 5])
                        P_Done K_Done) by (vm_compute; reflexivity).
    rewrite E in H. destruct t; discriminate H.
Defined.

End CondVarSafetyFacts.

(** * Further properties of 5_Thread_mutex.cpp *)

Module MutexDemoContentFacts.
Import MutexDemo MutexDemoFacts MutexDemoContent.

#[local] Opaque SIZE.
#[local] Arguments Z.mul : simpl never.
#[local] Arguments Z.add : simpl never.
#[local] Arguments Z.sub : simpl never.

Lemma count_occ_snoc (d : list Z) (i v : Z) :
  count_occ Z.eq_dec (d ++ [i]) v
  = (count_occ Z.eq_dec d v + if Z.eq_dec i v then 1 else 0)%nat.
Proof. rewrite count_occ_app. simpl. destruct (Z.eq_dec i v); reflexivity. Qed.

Ltac below_arith :=
  unfold below in *; simpl in *;
  repeat match goal with
  | |- context [0 <=? ?v] => destruct (Z.leb_spec 0 v); simpl in *
  | |- context [?v <? ?a] => destruct (Z.ltb_spec v a); simpl in *
  | H : context [?v <? ?a] |- _ => destruct (Z.ltb_spec v a); simpl in *
  | |- context [Z.eq_dec ?a ?b] => destruct (Z.eq_dec a b); simpl in *
  end; try lia.

Lemma Counted_init : Counted init.
Proof.
  intros v. unfold below. simpl.
  destruct (Z.leb_spec 0 v), (Z.ltb_spec v 0); simpl; try reflexivity; lia.
Qed.

Lemma Counted_step (a : actor) (s s' : state) :
  Inv s -> Counted s -> step a s = Some s' -> Counted s'.
Proof.
  intros [Hm Hx Hr1 Hr2 Hs1 Hs2 Hsz Hmn] Hc Hs v. specialize (Hc v).
  destruct s as [[d m] p1 p2 mp o]. simpl in *.
  destruct a as [|[|]].
  - destruct mp; unstep Hs; simpl; try exact Hc.
    all: unfold main_ok in Hmn; simpl in Hmn; decompose [and] Hmn; subst; exact Hc.
  - destruct p1 as [[]|]; unstep Hs; simpl in *; try subst seen;
      rewrite ?count_occ_snoc, ?Hc; below_arith.
  - destruct p2 as [[]|]; unstep Hs; simpl in *; try subst seen;
      rewrite ?count_occ_snoc, ?Hc; below_arith.
Qed.

Lemma Counted_reachable (s : state) : reachable s -> Counted s.
Proof.
  induction 1 as [|a s s' Hr IH Hs].
  - apply Counted_init.
  - exact (Counted_step a s s' (mx_Inv_reachable s Hr) IH Hs).
Qed.

(** At every moment a value [v] occurs in [g_Data] once for each worker
    that has already appended it; so when both workers are done, every
    value from 0 to SIZE - 1 occurs exactly twice and nothing else
    occurs. *)
Theorem each_value_twice (s : state) (v : Z) :
  reachable s ->
  count_occ Z.eq_dec (g_Data (globals s)) v = (below v (th1 s) + below v (th2 s))%nat
  /\ (finished (th1 s) = true -> finished (th2 s) = true ->
        count_occ Z.eq_dec (g_Data (globals s)) v
        = if (0 <=? v) && (v <? 100000) then 2%nat else 0%nat).
Proof.
  intros Hr. assert (Hc := Counted_reachable s Hr v). split; [exact Hc|].
  intros H1 H2. rewrite Hc.
  destruct (th1 s) as [[]|]; try discriminate.
  destruct (th2 s) as [[]|]; try discriminate.
  unfold below. simpl. rewrite SIZE_val.
  destruct ((0 <=? v) && (v <? 100000)); reflexivity.
Qed.

Lemma each_value_twice_witness :
  count_occ Z.eq_dec (g_Data (globals sequential_end)) 4711 = 2%nat.
Proof.
  exact (proj2 (each_value_twice sequential_end 4711 sequential_end_reachable)
           eq_refl eq_refl).
Defined.

Lemma started_reachable (s : state) : reachable s -> started s.
Proof.
  induction 1 as [|a s s' _ IH Hs]; [exact I|].
  destruct s as [[d m] p1 p2 mp o]. unfold started in *. simpl in *.
  destruct a as [|[|]].
  - destruct mp; unstep Hs; simpl; intuition discriminate.
  - destruct p1 as [pc|]; [|discriminate]. unfold step in Hs. simpl in Hs.
    destruct (Download pc (mkShared d m)) as [[pc' g]|]; [|discriminate].
    injection Hs as <-. simpl. destruct mp; intuition discriminate.
  - destruct p2 as [pc|]; [|discriminate]. unfold step in Hs. simpl in Hs.
    destruct (Download2 pc (mkShared d m)) as [[pc' g]|]; [|discriminate].
    injection Hs as <-. simpl. destruct mp; intuition discriminate.
Qed.

Lemma steps_left_step (a : actor) (s s' : state) :
  Inv s -> step a s = Some s' -> steps_left s' + 1 = steps_left s.
Proof.
  intros [Hm Hx Hr1 Hr2 Hs1 Hs2 Hsz Hmn] Hs.
  destruct s as [[d m] p1 p2 mp o]. unfold steps_left. simpl in *.
  destruct a as [|[|]].
  - destruct mp; unstep Hs; unfold main_ok in Hmn; simpl in *;
      decompose [and] Hmn; subst; simpl; lia.
  - destruct p1 as [[]|]; unstep Hs; simpl in *; lia.
  - destruct p2 as [[]|]; unstep Hs; simpl in *; lia.
Qed.

Lemma steps_left_nonneg (s : state) : Inv s -> 0 <= steps_left s.
Proof.
  intros HI. assert (H1 := inv_range1 s HI). assert (H2 := inv_range2 s HI).
  assert (V := SIZE_val).
  unfold steps_left. destruct (th1 s) as [[]|], (th2 s) as [[]|], (main s); simpl in *; lia.
Qed.

Ltac can_move a :=
  right; exists a;
  unfold step, main_step, obind, Download, Download2, worker, lock; simpl;
  repeat match goal with
  | |- context [if ?x then _ else _] => destruct x; simpl
  end;
  eexists; reflexivity.

Lemma mutex_demo_progress (s : state) :
  reachable s -> main s = M_Return \/ exists a s', step a s = Some s'.
Proof.
  intros Hr. assert (Hst := started_reachable s Hr).
  destruct (mx_Inv_reachable s Hr) as [Hm Hx Hr1 Hr2 Hs1 Hs2 Hsz Hmn].
  destruct s as [[d m] p1 p2 mp o]. unfold started, owner in *. simpl in *.
  destruct mp; simpl in *; try (can_move Main); try (left; reflexivity).
  - destruct Hst as [H1 H2].
    destruct p1 as [[]|]; [| | | | |can_move Main|contradiction];
      try (can_move (Run thDownloader));
      destruct p2 as [[]|]; simpl in *; subst m; try contradiction;
      try (can_move (Run thDownloader)); can_move (Run thDownloader2).
  - destruct Hst as [H1 H2].
    destruct p2 as [[]|]; [| | | | |can_move Main|contradiction];
      try (can_move (Run thDownloader2));
      destruct p1 as [[]|]; simpl in *; subst m; try contradiction;
      try (can_move (Run thDownloader2)); can_move (Run thDownloader).
Qed.

(** Every run of the mutex demo has a fixed length: each statement of
    [main] or of a worker uses up exactly one of the 1000007 steps the
    program has, no run can get stuck before [main] returns, and [main]
    returns only after printing; so every complete run takes exactly
    1000007 steps and prints 200000. *)
Theorem mutex_demo_terminates (sched : list actor) (s : state) :
  run sched init = Some s ->
  Z.of_nat (length sched) + steps_left s = 1000007
  /\ 0 <= steps_left s
  /\ (main s = M_Return \/ exists a s', step a s = Some s')
  /\ (main s = M_Return -> steps_left s = 0 /\ cout s = [200000]).
Proof.
  intros Hs.
  assert (Hr : reachable s) by exact (mx_run_reachable sched init s reach_init Hs).
  assert (HI := mx_Inv_reachable s Hr).
  split; [|split; [exact (steps_left_nonneg s HI)|split; [exact (mutex_demo_progress s Hr)|]]].
  - assert (G : forall sched s0 s1, Inv s0 -> run sched s0 = Some s1 ->
                Z.of_nat (length sched) + steps_left s1 = steps_left s0).
    { clear. induction sched as [|a rest IH]; intros s0 s1 HI H.
      - simpl in H. injection H as <-. simpl. lia.
      - simpl in H. destruct (step a s0) as [s2|] eqn:E; simpl in H; [|discriminate].
        assert (B := steps_left_step a s0 s2 HI E).
        specialize (IH s2 s1 (mx_Inv_step a s0 s2 HI E) H).
        change (length (a :: rest)) with (S (length rest)). lia. }
    rewrite (G sched init s mx_Inv_init Hs).
    unfold steps_left. simpl. rewrite SIZE_val. reflexivity.
  - intros Hm. assert (Hmn := inv_main s HI). assert (Hsz := inv_size s HI).
    unfold main_ok in Hmn. rewrite Hm in Hmn. destruct Hmn as (H1 & H2 & Ho).
    unfold steps_left. rewrite Hm, Ho, Hsz.
    destruct (th1 s) as [[]|]; try discriminate.
    destruct (th2 s) as [[]|]; try discriminate.
    simpl. rewrite SIZE_val. split; reflexivity.
Qed.

Lemma mutex_demo_terminates_witness :
  3 + steps_left (mkState (mkShared [] None) (Some (L_Lock 0)) (Some (L_Loop 0)) M_Join1 [])
  = 1000007.
Proof.
  assert (E : run [Main; Main; Run thDownloader] init
              = Some (mkState (mkShared [] None) (Some (L_Lock 0)) (Some (L_Loop 0)) M_Join1 [])).
  { unfold run, step, main_step, obind, Download, worker. simpl.
    rewrite SIZE_val. reflexivity. }
  exact (proj1 (mutex_demo_terminates _ _ E)).
Defined.

End MutexDemoContentFacts.


(** * Further properties of the two [Operation] functions *)

Module OperationFacts.
Import PromiseDemo PromiseDemoFacts.

Lemma loop_in_range (fuel : nat) (count i sum : Z) :
  INT_MIN <= sum <= INT_MAX -> INT_MIN <= loop fuel count i sum <= INT_MAX.
Proof.
  revert i sum. induction fuel as [|f IH]; intros i sum H; simpl; [exact H|].
  destruct (i <? count); [|exact H]. apply IH. apply wrap_range.
Qed.

Lemma accumulate_in_range (count : Z) : INT_MIN <= accumulate count <= INT_MAX.
Proof. apply loop_in_range. unfold INT_MIN, INT_MAX. lia. Qed.

Lemma triangle_bounds (count : Z) :
  0 <= count <= 65536 -> 0 <= count * (count - 1) / 2 <= 2147450880.
Proof.
  intros H. split.
  - apply Z.div_pos; nia.
  - change 2147450880 with (65536 * 65535 / 2). apply Z.div_le_mono; nia.
Qed.

Lemma wrap_wrap_add (a b : Z) : wrap (wrap a + b) = wrap (a + b).
Proof.
  unfold wrap. f_equal.
  replace ((a + 2 ^ 31) mod 2 ^ 32 - 2 ^ 31 + b + 2 ^ 31)
    with ((a + 2 ^ 31) mod 2 ^ 32 + b) by ring.
  rewrite Zplus_mod_idemp_l. f_equal. ring.
Qed.

Lemma loop_wraps (fuel : nat) (count i : Z) :
  0 <= i <= count -> count - i <= Z.of_nat fuel ->
  loop fuel count i (wrap (i * (i - 1) / 2)) = wrap (count * (count - 1) / 2).
Proof.
  revert i. induction fuel as [|f IH]; intros i Hi Hf; simpl.
  - assert (i = count) by lia. subst i. reflexivity.
  - destruct (Z.ltb_spec i count) as [Hlt|Hge].
    + rewrite wrap_wrap_add, <- triangle_next.
      replace ((i + 1) * i) with ((i + 1) * (i + 1 - 1)) by ring.
      apply IH; lia.
    + assert (i = count) by lia. subst i. reflexivity.
Qed.

Lemma accumulate_wraps (count : Z) :
  0 <= count -> accumulate count = wrap (count * (count - 1) / 2).
Proof.
  intros H. unfold accumulate.
  change 0 with (wrap (0 * (0 - 1) / 2)) at 2.
  apply loop_wraps; lia.
Qed.

(** For every count that is not negative, [Operation] of the promise
    demo returns the [int] that the true sum 0 + ... + (count - 1) wraps
    to, so its result is right modulo 2^32 even beyond 65536; the result
    always lies in the range of [int]; and a count that is zero or
    negative gives 0 because the loop body is not entered. *)
Theorem Operation_edge_cases (count : Z) :
  (0 <= count ->
     Operation (mkChannel (Value count) true)
     = Some (wrap (count * (count - 1) / 2), mkChannel (Value count) false))
  /\ (count <= 0 ->
        Operation (mkChannel (Value count) true) = Some (0, mkChannel (Value count) false))
  /\ (exists r, Operation (mkChannel (Value count) true)
                = Some (r, mkChannel (Value count) false) /\ INT_MIN <= r <= INT_MAX).
Proof.
  split; [|split].
  - intros H. unfold Operation, get. simpl. rewrite (accumulate_wraps count H). reflexivity.
  - intros H. unfold Operation, get. simpl.
    rewrite (accumulate_nonpositive count H). reflexivity.
  - exists (accumulate count). split; [reflexivity|apply accumulate_in_range].
Qed.

Lemma Operation_edge_cases_witness :
  Operation (mkChannel (Value (-5)) true) = Some (0, mkChannel (Value (-5)) false)
  /\ Operation (mkChannel (Value 100000) true)
     = Some (wrap (100000 * (100000 - 1) / 2), mkChannel (Value 100000) false).
Proof.
  split.
  - exact (proj1 (proj2 (Operation_edge_cases (-5))) ltac:(lia)).
  - exact (proj1 (Operation_edge_cases 100000) ltac:(lia)).
Defined.

(** [Operation] of the launch-policy demo returns 0 + 1 + ... +
    (count - 1) = count * (count - 1) / 2 for every count from 0 to
    65536, the [int] this sum wraps to for every larger count, and 0 for
    a count that is zero or negative; whichever status [wait_until]
    reports, [main] prints three lines, the last of which is the sum of
    the task. *)
Theorem launch_Operation_sum (count : Z) (st : LaunchPolicies.future_status) :
  (0 <= count <= 65536 -> LaunchPolicies.Operation count = count * (count - 1) / 2)
  /\ (0 <= count -> LaunchPolicies.Operation count = wrap (count * (count - 1) / 2))
  /\ (count <= 0 -> LaunchPolicies.Operation count = 0)
  /\ (0 <= count <= 65536 ->
        last (LaunchPolicies.main_with count st) LaunchPolicies.MainContinues
        = LaunchPolicies.FinalSum (count * (count - 1) / 2))
  /\ LaunchPolicies.main st
     = [LaunchPolicies.MainContinues; LaunchPolicies.report st; LaunchPolicies.FinalSum 45].
Proof.
  split; [|split; [|split; [|split]]].
  - exact (accumulate_sum count).
  - exact (accumulate_wraps count).
  - exact (accumulate_nonpositive count).
  - intros H. simpl. f_equal. exact (accumulate_sum count H).
  - reflexivity.
Qed.

Lemma launch_Operation_sum_witness :
  LaunchPolicies.Operation 100 = 4950.
Proof.
  exact (proj1 (launch_Operation_sum 100 LaunchPolicies.timeout) ltac:(lia)).
Defined.

End OperationFacts.

(** * 2_Thread_pass_arguments.cpp *)

Module PassArgumentsFacts.
Import PassArguments.

Lemma pa_SIZE_val : SIZE = 5000000.
Proof. reflexivity. Qed.

Lemma pa_Inv_init : Inv init.
Proof.
  constructor; unfold main_ok; simpl; auto; try discriminate; try tauto.
  split; intros H; discriminate H.
Qed.

#[local] Opaque SIZE.

Ltac unstep H :=
  repeat (unfold step, main_step, obind, Download in H; simpl in H);
  repeat match type of H with
  | context [match ?x with _ => _ end] => is_var x; destruct x; simpl in H; try discriminate H
  | context [if ?x then _ else _] => is_var x; destruct x; simpl in H; try discriminate H
  | context [finished ?x] => destruct (finished x) eqn:?; simpl in H; try discriminate H
  | context [?a <? ?b] => destruct (Z.ltb_spec a b); simpl in H
  end;
  try discriminate H;
  try (injection H as <-).

Ltac atom :=
  match goal with
  | |- ~ In _ (_ ++ [_]) =>
      let Hin := fresh "Hin" in
      intros Hin; apply in_app_or in Hin; destruct Hin as [Hin|[Hin|[]]];
      [contradiction | discriminate Hin]
  | |- In _ (_ ++ [_]) =>
      apply in_or_app; first [left; solve [auto] | right; left; reflexivity]
  | |- _ = iota _ =>
      first [ rewrite iota_succ by lia; congruence
            | match goal with H : _ = iota _ |- _ => rewrite H end; f_equal; lia
            | f_equal; lia ]
  | |- _ <-> _ => split; intros; try discriminate; try congruence
  | |- _ -> _ => intros; atom
  | _ => solve [auto | discriminate | congruence | lia | contradiction | tauto]
  end.

Ltac inv_side :=
  unfold main_ok in *; simpl in *;
  repeat match goal with
  | H : _ /\ _ |- _ => destruct H
  end;
  subst; simpl in *;
  repeat match goal with
  | |- _ /\ _ => split
  end;
  try atom.

Lemma pa_Inv_step (a : actor) (s s' : state) : Inv s -> step a s = Some s' -> Inv s'.
Proof.
  intros [Hr Hd Hf Hc Hs Hret Hm] H.
  destruct s as [d o w mp j fa st]. unfold main_ok in *. simpl in *.
  destruct st; [|unfold step in H; simpl in H; discriminate|exfalso; auto].
  destruct a.
  - destruct mp; unstep H; constructor; inv_side.
  - destruct w as [[]|]; unstep H; destruct mp; constructor; inv_side.
Qed.

Lemma pa_Inv_reachable (s : state) : reachable s -> Inv s.
Proof.
  induction 1 as [|a s s' _ IH Hs].
  - apply pa_Inv_init.
  - exact (pa_Inv_step a s s' IH Hs).
Qed.

Lemma pa_run_reachable (sched : list actor) (s s' : state) :
  reachable s -> run sched s = Some s' -> reachable s'.
Proof.
  revert s. induction sched as [|a rest IH]; simpl; intros s Hr Hs.
  - injection Hs as <-. exact Hr.
  - destruct (step a s) as [s1|] eqn:E; simpl in Hs; [|discriminate].
    apply (IH s1); [exact (reach_step a s s1 Hr E) | exact Hs].
Qed.

Lemma worker_turns (k : nat) (o : list line) (mp : main_pc) (j fa : bool) :
  Z.of_nat k <= SIZE ->
  reachable (mkState [] o (Some (W_Loop 0)) mp j fa Running) ->
  reachable (mkState (iota k) o (Some (W_Loop (Z.of_nat k))) mp j fa Running).
Proof.
  intros Hk H0. induction k as [|k IH]; [exact H0|].
  assert (Hlt : (Z.of_nat k <? SIZE) = true) by (apply Z.ltb_lt; lia).
  apply (pa_run_reachable [Worker; Worker] _ _ (IH ltac:(lia))).
  simpl. unfold step, obind. simpl. rewrite Hlt. simpl.
  rewrite iota_snoc. repeat f_equal. lia.
Qed.

Lemma complete_run_end_reachable : reachable complete_run_end.
Proof.
  assert (Hn : Z.of_nat (Z.to_nat SIZE) = SIZE) by (rewrite pa_SIZE_val; lia).
  assert (Hge : (SIZE <? SIZE) = false) by apply Z.ltb_irrefl.
  assert (R0 : reachable (mkState [] [MainStarted; StringCtor; MainAnother; DownloadStarted]
                                  (Some (W_Loop 0)) M_Join true true Running)).
  { apply (pa_run_reachable [Main; Main; Main; Main; Main; Worker] init _ reach_init).
    reflexivity. }
  assert (R1 := worker_turns (Z.to_nat SIZE) _ _ _ _ ltac:(lia) R0).
  rewrite Hn in R1.
  apply (pa_run_reachable [Worker; Worker; Main; Main; Main] _ _ R1).
  simpl. unfold step, main_step, obind. simpl. rewrite Hge. reflexivity.
Qed.

(** [join] makes [main] wait for the download: once "we are done" is
    printed, [Download] has finished, "[Downloader] Finished download"
    is in the output, and [g_Data] is exactly 0, 1, ..., SIZE - 1.  The
    [String] object outlives the thread that holds a reference to it, it
    is never copied or assigned, and the program never ends in
    [std::terminate]. *)
Theorem join_waits_for_download (s : state) :
  reachable s ->
  (In WeAreDone (cout s) ->
     worker s = Some W_Done /\ In DownloadFinished (cout s) /\
     g_Data s = iota (Z.to_nat SIZE) /\ Z.of_nat (length (g_Data s)) = 5000000)
  /\ (worker s <> None -> finished (worker s) = false -> file_alive s = true)
  /\ (In StringDtor (cout s) -> finished (worker s) = true)
  /\ ~ In StringCopy (cout s) /\ ~ In StringAssign (cout s)
  /\ status s <> Terminated
  /\ exists k, (k <= Z.to_nat SIZE)%nat /\ g_Data s = iota k.
Proof.
  intros Hr. destruct (pa_Inv_reachable s Hr) as [Hrg Hd Hf Hc Hs Hret Hm].
  assert (Hdone : finished (worker s) = true ->
                  worker s = Some W_Done /\ g_Data s = iota (Z.to_nat SIZE)).
  { intros H. rewrite Hd. destruct (worker s) as [[]|]; try discriminate. auto. }
  unfold main_ok in Hm.
  split; [|split; [|split; [|split; [exact (proj1 Hc)|split; [exact (proj2 Hc)|split; [exact Hs|]]]]]].
  - intros Hin.
    assert (Hfin : finished (worker s) = true).
    { destruct (main s); decompose [and] Hm; auto; contradiction. }
    destruct (Hdone Hfin) as [Hw Hg]. repeat split; auto.
    rewrite Hg, iota_length, pa_SIZE_val. lia.
  - intros Hw Hnf. destruct (main s); decompose [and] Hm; auto; congruence.
  - intros Hin. destruct (main s); decompose [and] Hm; auto; contradiction.
  - exists (Z.to_nat (appended (worker s))). split; [|exact Hd].
    destruct (worker s) as [[]|]; simpl in *; lia.
Qed.

Lemma join_waits_for_download_witness :
  Z.of_nat (length (g_Data complete_run_end)) = 5000000.
Proof.
  assert (H := proj1 (join_waits_for_download complete_run_end complete_run_end_reachable)).
  refine (proj2 (proj2 (proj2 (H _)))).
  unfold complete_run_end. simpl. auto 10.
Defined.


End PassArgumentsFacts.

(** * 1_Thread_creation.cpp *)

Module ThreadCreationFacts.
Import ThreadCreation.

Lemma tc_Inv_init : Inv init.
Proof. constructor; unfold main_ok; simpl; auto. Qed.

#[local] Opaque SIZE.

Ltac unstep H :=
  repeat (unfold step, main_step, obind, Download in H; simpl in H);
  repeat match type of H with
  | context [match ?x with _ => _ end] => is_var x; destruct x; simpl in H; try discriminate H
  | context [if ?x then _ else _] => is_var x; destruct x; simpl in H; try discriminate H
  | context [?a <? ?b] => destruct (Z.ltb_spec a b); simpl in H
  end;
  try discriminate H;
  try (injection H as <-).

Ltac inv_side :=
  unfold main_ok in *; simpl in *;
  repeat match goal with
  | H : _ /\ _ |- _ => destruct H
  end;
  subst; simpl in *;
  repeat match goal with
  | |- _ /\ _ => split
  end;
  try solve [ auto | discriminate | congruence | lia
            | rewrite iota_succ by lia; congruence
            | f_equal; lia ].

Lemma tc_Inv_step (a : actor) (s s' : state) : Inv s -> step a s = Some s' -> Inv s'.
Proof.
  intros [Hr Hd Hm] H.
  destruct s as [d o w mp j st]. unfold main_ok in *. simpl in *.
  destruct st; [|unfold step in H; simpl in H; discriminate
                |unfold step in H; simpl in H; discriminate].
  destruct a.
  - destruct mp; unstep H; constructor; inv_side.
  - destruct w as [[]|]; unstep H; destruct mp; constructor; inv_side.
Qed.

Lemma tc_Inv_reachable (s : state) : reachable s -> Inv s.
Proof.
  induction 1 as [|a s s' _ IH Hs].
  - apply tc_Inv_init.
  - exact (tc_Inv_step a s s' IH Hs).
Qed.

Lemma tc_run_reachable (sched : list actor) (s s' : state) :
  reachable s -> run sched s = Some s' -> reachable s'.
Proof.
  revert s. induction sched as [|a rest IH]; simpl; intros s Hr Hs.
  - injection Hs as <-. exact Hr.
  - destruct (step a s) as [s1|] eqn:E; simpl in Hs; [|discriminate].
    apply (IH s1); [exact (reach_step a s s1 Hr E) | exact Hs].
Qed.

(** As written, with [join] and [detach] commented out, the program
    never returns normally: [main] is never blocked, and when it returns
    [threadObj] is still joinable, so every run that reaches the end of
    [main] ends in [std::terminate], after which nothing runs.  What
    [Download] has appended by then is some prefix 0, 1, ..., k - 1 with
    k at most SIZE, and it can be the empty prefix: in the run in which
    [main] goes first the process ends before the download has started. *)
Theorem unjoined_thread_terminates :
  (forall s, reachable s ->
     status s <> Returned
     /\ (main s = M_Exit <-> status s = Terminated)
     /\ (status s = Terminated -> forall a, step a s = None)
     /\ (main s <> M_Exit -> exists s', step Main s = Some s')
     /\ exists k, (k <= Z.to_nat SIZE)%nat /\ g_Data s = iota k)
  /\ run main_only init
     = Some (mkState [] [MainStarted; MainAnother; WeAreDone] (Some W_Start)
                     M_Exit true Terminated).
Proof.
  split; [|reflexivity].
  intros s Hr. destruct (tc_Inv_reachable s Hr) as [Hrg Hd Hm].
  unfold main_ok in Hm.
  split; [|split; [|split; [|split]]].
  - destruct (main s); decompose [and] Hm; congruence.
  - destruct (main s); decompose [and] Hm; split; intros; congruence.
  - intros Ht a. unfold step. rewrite Ht. reflexivity.
  - intros Hne. unfold step, main_step.
    destruct (main s); decompose [and] Hm;
      match goal with H : status s = _ |- _ => rewrite H end; eauto.
    contradiction.
  - exists (Z.to_nat (appended (worker s))). split; [|exact Hd].
    destruct (worker s) as [[]|]; simpl in *; lia.
Qed.

Lemma unjoined_thread_terminates_witness :
  status (mkState [] [MainStarted; MainAnother; WeAreDone] (Some W_Start)
                  M_Exit true Terminated) <> Returned.
Proof.
  apply (proj1 unjoined_thread_terminates).
  exact (tc_run_reachable main_only init _ reach_init (proj2 unjoined_thread_terminates)).
Defined.

End ThreadCreationFacts.

(** * A step budget for 9_Thread_condition_variable.cpp *)

Module CondVarBoundFacts.
Import CondVar CondVarFacts CondVarBound.

#[local] Arguments Z.mul : simpl never.
#[local] Arguments Z.add : simpl never.
#[local] Arguments Z.sub : simpl never.

Ltac budget_arith :=
  unfold budget, k_left, p_left, p_range, k_range in *; simpl in *;
  unfold SIZE in *;
  repeat match goal with
  | |- context [if ?x then _ else _] => is_var x; destruct x; simpl
  end; try lia.

Lemma cv_budget_statement (t : thread) (s s' : state) :
  Inv s -> step (Run t) s = Some s' -> budget s' + 1 <= budget s.
Proof.
  intros HI Hs. assert (Hp := inv_p_range s HI). assert (Hk := inv_k_range s HI). clear HI.
  destruct s as [[m c d o] pp kp]. simpl in *.
  destruct t.
  - destruct pp; unstep Hs; destruct kp; budget_arith.
  - destruct kp; unstep Hs; destruct pp; budget_arith.
Qed.

Lemma cv_budget_wakeup (s s' : state) :
  step Spurious s = Some s' -> budget s' <= budget s + 2.
Proof.
  intros Hs. destruct s as [[m c d o] pp kp].
  unstep Hs. destruct pp, kp; budget_arith.
Qed.

Lemma cv_budget_nonneg (s : state) : Inv s -> 0 <= budget s.
Proof.
  intros HI. assert (Hp := inv_p_range s HI). assert (Hk := inv_k_range s HI). clear HI.
  destruct s as [[m c d o] pp kp]. simpl in *.
  destruct pp, kp; budget_arith.
Qed.

Lemma cv_budget_run (sched : list actor) (s s' : state) :
  Inv s -> run sched s = Some s' ->
  statements sched + budget s' <= budget s + 2 * wakeups sched.
Proof.
  revert s. induction sched as [|a rest IH]; simpl; intros s HI Hs.
  - injection Hs as <-. unfold statements, wakeups. simpl. lia.
  - destruct (step a s) as [s1|] eqn:E; simpl in Hs; [|discriminate].
    specialize (IH s1 (cv_Inv_step a s s1 HI E) Hs).
    unfold statements, wakeups in *. simpl.
    destruct a as [t|]; simpl.
    + assert (B := cv_budget_statement t s s1 HI E). lia.
    + assert (B := cv_budget_wakeup s s1 E). lia.
Qed.

(** Every run of the producer/consumer program is bounded: the number
    of statements the two threads execute, plus what the reached state
    may still need, is at most 114 plus two for every spurious wakeup;
    a run without spurious wakeups has at most 114 steps. *)
Theorem producer_consumer_bounded (sched : list actor) (s : state) :
  run sched init = Some s ->
  0 <= budget s
  /\ statements sched + budget s <= 114 + 2 * wakeups sched
  /\ (wakeups sched = 0 -> (length sched <= 114)%nat).
Proof.
  intros Hs.
  assert (HI : Inv s).
  { apply cv_Inv_reachable. exact (cv_run_reachable sched init s reach_init Hs). }
  assert (B := cv_budget_run sched init s cv_Inv_init Hs).
  assert (N := cv_budget_nonneg s HI).
  change (budget init) with 114 in B.
  split; [exact N|]. split; [exact B|].
  intros Hw. rewrite Hw in B.
  assert (L : Z.of_nat (length sched) = statements sched + wakeups sched).
  { clear. unfold statements, wakeups. induction sched as [|[t|] rest IH]; simpl; lia. }
  lia.
Qed.

Lemma producer_consumer_bounded_witness :
  statements lockstep + budget (exec lockstep) <= 114.
Proof.
  assert (E : run lockstep init = Some (exec lockstep)).
  { vm_compute. reflexivity. }
  assert (H := proj1 (proj2 (producer_consumer_bounded lockstep _ E))).
  assert (W : wakeups lockstep = 0) by (vm_compute; reflexivity).
  rewrite W in H. exact H.
Defined.

End CondVarBoundFacts.

(** * 6_Thread_task_based_concurrency.cpp *)

Module TaskBasedFacts.
Import TaskBased.

Lemma tb_Inv_init (a b : Z) : Inv a b init.
Proof. constructor; simpl; auto; discriminate. Qed.

Ltac unstep H :=
  repeat (unfold step, main_step, obind, Add, mul, say in H; simpl in H);
  repeat match type of H with
  | context [match ?x with _ => _ end] => is_var x; destruct x; simpl in H; try discriminate H
  end;
  try discriminate H;
  try (injection H as <-).

Ltac atom :=
  match goal with
  | |- ~ In _ (_ ++ [_]) =>
      let Hin := fresh "Hin" in
      intros Hin; apply in_app_or in Hin; destruct Hin as [Hin|[Hin|[]]];
      [contradiction | discriminate Hin]
  | |- In _ (_ ++ [_]) =>
      apply in_or_app; first [left; solve [auto] | right; left; reflexivity]
  | |- filter _ (_ ++ [_]) = _ =>
      rewrite filter_app; simpl;
      match goal with H : filter _ _ = _ |- _ => rewrite H end;
      rewrite ?app_nil_r; try reflexivity; congruence
  | _ => solve [auto | discriminate | congruence | contradiction]
  end.

Ltac inv_side :=
  unfold task_ok, main_output in *; simpl in *;
  repeat match goal with
  | H : _ /\ _ |- _ => destruct H
  | H : Some _ = Some _ |- _ => injection H as H
  end;
  try discriminate;
  subst; simpl in *;
  repeat match goal with
  | |- _ /\ _ => split
  end;
  try atom.

Lemma tb_Inv_step (a b : Z) (w : actor) (s s' : state) :
  Inv a b s -> step a b w s = Some s' -> Inv a b s'.
Proof.
  intros [Hm H1 H2 G1 G2] H.
  destruct s as [o t1 t2 r1 r2 mp]. unfold main_output, task_ok in *. simpl in *.
  destruct w.
  - destruct mp; unstep H; destruct t1 as [[]|], t2 as [[]|]; constructor; inv_side.
  - destruct t1 as [[]|]; unstep H; destruct t2 as [[]|]; constructor; inv_side.
  - destruct t2 as [[]|]; unstep H; destruct t1 as [[]|]; constructor; inv_side.
Qed.

Lemma tb_steps_left_step (a b : Z) (w : actor) (s s' : state) :
  Inv a b s -> step a b w s = Some s' -> S (steps_left s') = steps_left s.
Proof.
  intros [Hm H1 H2 G1 G2] E.
  destruct s as [o t1 t2 r1 r2 mp]. unfold steps_left, task_ok in *. simpl in *.
  destruct w.
  - destruct mp; unstep E; simpl; destruct t1 as [[]|], t2 as [[]|]; simpl in *;
      decompose [and] H1; decompose [and] H2; try discriminate; lia.
  - destruct t1 as [[]|]; unstep E; simpl; lia.
  - destruct t2 as [[]|]; unstep E; simpl; lia.
Qed.

Lemma tb_Inv_run (a b : Z) (sched : list actor) (s s' : state) :
  Inv a b s -> run a b sched s = Some s' ->
  Inv a b s' /\ (length sched + steps_left s' = steps_left s)%nat.
Proof.
  revert s. induction sched as [|w rest IH]; simpl; intros s HI Hs.
  - injection Hs as <-. auto.
  - destruct (step a b w s) as [s1|] eqn:E; simpl in Hs; [|discriminate].
    destruct (IH s1 (tb_Inv_step a b w s s1 HI E) Hs) as [HI' Hl].
    split; [exact HI'|]. assert (D := tb_steps_left_step a b w s s1 HI E). lia.
Qed.

Ltac can_move w :=
  right; exists w; unfold step, main_step, obind, Add, mul; simpl; eexists; reflexivity.

Lemma tb_progress (a b : Z) (s : state) :
  Inv a b s -> main s = M_Exit \/ exists w s', step a b w s = Some s'.
Proof.
  intros [Hm H1 H2 G1 G2].
  destruct s as [o t1 t2 r1 r2 mp]. unfold task_ok in *. simpl in *.
  destruct mp; try (can_move Main); try (left; reflexivity).
  - destruct t1 as [[]|]; simpl in *; decompose [and] H1; subst;
      try discriminate; try (can_move Task1); can_move Main.
  - destruct t2 as [[]|]; simpl in *; decompose [and] H2; subst;
      try discriminate; try (can_move Task2); can_move Main.
Qed.

Lemma tb_done_said (t : option task_pc) (r : option Z) (v : Z) (msg : line)
                   (l : bool) (o : list line) :
  task_ok t r v msg l o -> r <> None -> t = Some T_Done /\ r = Some v /\ In msg o.
Proof.
  unfold task_ok. destruct t as [[]|]; intros (H1 & H2 & H3) Hr; try contradiction; auto.
Qed.

(** Whatever the interleaving of [main] with the two tasks and whatever
    the arguments, [main] writes its own lines in the same order with
    the same numbers: the sum after "Addition is", the product after
    "Multiplication is", each only after its task has written its
    message and returned.  [get] is the only statement that can wait and
    it is always served, so no run gets stuck, and a complete run has
    exactly 13 steps.  With the arguments 10 and 20 of the file the
    numbers are 30 and 200. *)
Theorem task_results_in_order (a b : Z) (sched : list actor) (s : state) :
  run a b sched init = Some s ->
  main_output s = written a b (main s)
  /\ (length sched + steps_left s = 13)%nat
  /\ (main s = M_Exit \/ exists w s', step a b w s = Some s')
  /\ (got1 (main s) = true ->
        task1 s = Some T_Done /\ result1 s = Some (Add_value a b) /\ In Adding (cout s))
  /\ (got2 (main s) = true ->
        task2 s = Some T_Done /\ result2 s = Some (mul_value a b) /\ In Multiplying (cout s))
  /\ (main s = M_Exit -> length sched = 13%nat)
  /\ Add_value 10 20 = 30 /\ mul_value 10 20 = 200.
Proof.
  intros Hs.
  destruct (tb_Inv_run a b sched init s (tb_Inv_init a b) Hs) as [HI Hl].
  assert (Hp := tb_progress a b s HI).
  destruct HI as [Hm H1 H2 G1 G2]. change (steps_left init) with 13%nat in Hl.
  assert (D1 := fun H => tb_done_said _ _ _ _ _ _ H1 (G1 H)).
  assert (D2 := fun H => tb_done_said _ _ _ _ _ _ H2 (G2 H)).
  split; [exact Hm|]. split; [exact Hl|]. split; [exact Hp|].
  split; [exact D1|]. split; [exact D2|]. split; [|split; reflexivity].
  intros He. rewrite He in *.
  destruct (D1 eq_refl) as (E1 & _). destruct (D2 eq_refl) as (E2 & _).
  unfold steps_left in Hl. rewrite He, E1, E2 in Hl. simpl in Hl. lia.
Qed.

Lemma task_results_in_order_witness :
  main_output (mkState [MainStarted; Adding; Multiplying; MainAnother; AdditionIs;
                        Number 30; MultiplicationIs; Number 200; WeAreDone]
                       (Some T_Done) (Some T_Done) (Some 30) (Some 200) M_Exit)
  = [MainStarted; MainAnother; AdditionIs; Number (Add_value 10 20);
     MultiplicationIs; Number (mul_value 10 20); WeAreDone].
Proof.
  assert (E : run 10 20 [Main; Main; Main; Task1; Task2; Task1; Task2;
                         Main; Main; Main; Main; Main; Main] init
              = Some (mkState [MainStarted; Adding; Multiplying; MainAnother; AdditionIs;
                               Number 30; MultiplicationIs; Number 200; WeAreDone]
                              (Some T_Done) (Some T_Done) (Some 30) (Some 200) M_Exit)).
  { vm_compute. reflexivity. }
  exact (proj1 (task_results_in_order 10 20 _ _ E)).
Defined.

End TaskBasedFacts.


(** * 3_Thread_return_value_from_thread.cpp *)

Module ReturnValueFacts.
Import ReturnValue.

Lemma rv_Inv_init (a b : Z) : Inv a b init.
Proof. constructor; simpl; auto; discriminate. Qed.

Ltac unstep H :=
  repeat (unfold step, main_step, obind, task1, task2, say in H; simpl in H);
  repeat match type of H with
  | context [match ?x with _ => _ end] => is_var x; destruct x; simpl in H; try discriminate H
  | context [if ?x then _ else _] => is_var x; destruct x; simpl in H; try discriminate H
  end;
  try discriminate H;
  try (injection H as <-).

Ltac atom :=
  match goal with
  | |- ~ In _ (_ ++ [_]) =>
      let Hin := fresh "Hin" in
      intros Hin; apply in_app_or in Hin; destruct Hin as [Hin|[Hin|[]]];
      [contradiction | discriminate Hin]
  | |- In _ (_ ++ [_]) =>
      apply in_or_app; first [left; solve [auto] | right; left; reflexivity]
  | |- filter _ (_ ++ [_]) = _ =>
      rewrite filter_app; simpl;
      match goal with H : filter _ _ = _ |- _ => rewrite H end;
      rewrite ?app_nil_r; try reflexivity; congruence
  | |- _ -> _ => intros; atom
  | _ => solve [auto | discriminate | congruence | contradiction]
  end.

Ltac inv_side :=
  unfold task_ok, main_output in *; simpl in *;
  repeat match goal with
  | H : _ /\ _ |- _ => destruct H
  | H : Some _ = Some _ |- _ => injection H as H
  end;
  try discriminate;
  subst; simpl in *;
  repeat match goal with
  | |- _ /\ _ => split
  end;
  try atom.

Lemma rv_Inv_step (a b : Z) (w : actor) (s s' : state) :
  Inv a b s -> step a b w s = Some s' -> Inv a b s'.
Proof.
  intros [Hm H1 H2 G1 G2 J1 J2 F1 F2 St] H.
  destruct s as [o p1 p2 r1 r2 j1 j2 mp st]. unfold main_output, task_ok in *. simpl in *.
  destruct w, mp, p1 as [[]|], p2 as [[]|]; subst st; simpl in *;
    try (exfalso; intuition discriminate);
    unstep H; constructor; inv_side.
Qed.

Lemma rv_steps_left_step (a b : Z) (w : actor) (s s' : state) :
  Inv a b s -> step a b w s = Some s' -> S (steps_left s') = steps_left s.
Proof.
  intros [Hm H1 H2 G1 G2 J1 J2 F1 F2 St] H.
  destruct s as [o p1 p2 r1 r2 j1 j2 mp st]. unfold steps_left, task_ok in *. simpl in *.
  destruct w, mp, p1 as [[]|], p2 as [[]|]; subst st; simpl in *;
    try (exfalso; intuition discriminate);
    unstep H; simpl; lia.
Qed.

Lemma rv_Inv_run (a b : Z) (sched : list actor) (s s' : state) :
  Inv a b s -> run a b sched s = Some s' ->
  Inv a b s' /\ (length sched + steps_left s' = steps_left s)%nat.
Proof.
  revert s. induction sched as [|w rest IH]; simpl; intros s HI Hs.
  - injection Hs as <-. auto.
  - destruct (step a b w s) as [s1|] eqn:E; simpl in Hs; [|discriminate].
    destruct (IH s1 (rv_Inv_step a b w s s1 HI E) Hs) as [HI' Hl].
    split; [exact HI'|]. assert (D := rv_steps_left_step a b w s s1 HI E). lia.
Qed.

Ltac can_move w :=
  right; exists w; unfold step, main_step, obind, task1, task2; simpl; eexists; reflexivity.

Lemma rv_progress (a b : Z) (s : state) :
  Inv a b s -> main s = M_Exit \/ exists w s', step a b w s = Some s'.
Proof.
  intros [Hm H1 H2 G1 G2 J1 J2 F1 F2 St].
  destruct s as [o p1 p2 r1 r2 j1 j2 mp st]. unfold task_ok in *. simpl in *.
  destruct mp; subst st; try (can_move Main); try (left; reflexivity).
  - destruct p1 as [[]|]; simpl in *; decompose [and] H1; subst;
      try discriminate; try (can_move Thread1); can_move Main.
  - destruct p2 as [[]|]; simpl in *; decompose [and] H2; subst;
      try discriminate; try (can_move Thread2); can_move Main.
  - destruct p1 as [[]|]; simpl in *; decompose [and] H1; subst;
      try discriminate; try (can_move Thread1); try (can_move Main);
      exfalso; apply G1; reflexivity.
  - destruct p2 as [[]|]; simpl in *; decompose [and] H2; subst;
      try discriminate; try (can_move Thread2); try (can_move Main);
      exfalso; apply G2; reflexivity.
Qed.

Lemma rv_said_done (a b : Z) (s : state) :
  Inv a b s -> In WeAreDone (cout s) -> joined2 (main s) = true.
Proof.
  intros HI Hin. assert (Hf : In WeAreDone (main_output s)).
  { unfold main_output. apply filter_In. split; [exact Hin | reflexivity]. }
  rewrite (inv_main a b s HI) in Hf.
  destruct (main s); simpl in *; try reflexivity;
    repeat (destruct Hf as [Hf|Hf]; try discriminate Hf); contradiction.
Qed.

(** In [main], which runs the two packaged tasks in threads of their
    own, whatever the interleaving and whatever the arguments: the lines
    of [main] come in the same order with the same numbers; [get] and
    [join] are the only statements that wait and they are always served,
    so no run gets stuck; "we are done" is written only after both
    threads have ended; both thread objects have been joined when they
    are destroyed, so the program never ends in [std::terminate]; a
    complete run has exactly 17 steps and writes the two numbers that
    [main2], which calls the tasks itself, writes. *)
Theorem threads_joined_before_done (a b : Z) (sched : list actor) (s : state) :
  run a b sched init = Some s ->
  main_output s = written a b (main s)
  /\ (length sched + steps_left s = 17)%nat
  /\ (main s = M_Exit \/ exists w s', step a b w s = Some s')
  /\ (In WeAreDone (cout s) ->
        t1 s = Some T_Done /\ t2 s = Some T_Done
        /\ joinable1 s = false /\ joinable2 s = false
        /\ In Adding (cout s) /\ In Multiplying (cout s))
  /\ status s <> Terminated
  /\ (main s = M_Exit ->
        length sched = 17%nat /\ status s = Returned
        /\ numbers (main_output s) = numbers (main2_with a b)).
Proof.
  intros Hs.
  destruct (rv_Inv_run a b sched init s (rv_Inv_init a b) Hs) as [HI Hl].
  assert (Hp := rv_progress a b s HI).
  assert (Hd := rv_said_done a b s HI).
  destruct HI as [Hm H1 H2 G1 G2 J1 J2 F1 F2 St]. change (steps_left init) with 17%nat in Hl.
  split; [exact Hm|]. split; [exact Hl|]. split; [exact Hp|].
  assert (Hj : joined2 (main s) = true ->
               t1 s = Some T_Done /\ t2 s = Some T_Done
               /\ joinable1 s = false /\ joinable2 s = false
               /\ In Adding (cout s) /\ In Multiplying (cout s)).
  { intros Hj. assert (Hj1 : joined1 (main s) = true) by (destruct (main s); auto).
    specialize (F1 Hj1). specialize (F2 Hj). rewrite Hj1 in J1. rewrite Hj in J2.
    rewrite andb_false_r in J1, J2.
    unfold task_ok in H1, H2.
    destruct (t1 s) as [[]|]; try discriminate F1.
    destruct (t2 s) as [[]|]; try discriminate F2.
    intuition. }
  split; [intros Hin; exact (Hj (Hd Hin))|].
  split; [rewrite St; destruct (main s); discriminate|].
  intros He. rewrite He in *. destruct (Hj eq_refl) as (E1 & E2 & _).
  split; [|split; [exact St|rewrite Hm; reflexivity]].
  unfold steps_left in Hl. rewrite He, E1, E2 in Hl. simpl in Hl. lia.
Qed.

Lemma threads_joined_before_done_witness :
  main_output (mkState [Adding; AdditionIs; Multiplying; Number 30; MultiplicationIs;
                        Number 200; MainWaiting; WeAreDone]
                       (Some T_Done) (Some T_Done) (Some 30) (Some 200)
                       false false M_Exit Returned)
  = [AdditionIs; Number (Add_value 10 20); MultiplicationIs; Number (mul_value 10 20);
     MainWaiting; WeAreDone].
Proof.
  assert (E : run 10 20 [Main; Thread1; Main; Main; Thread2; Thread1; Thread2; Main;
                         Main; Main; Thread1; Main; Thread2; Main; Main; Main; Main] init
              = Some (mkState [Adding; AdditionIs; Multiplying; Number 30; MultiplicationIs;
                               Number 200; MainWaiting; WeAreDone]
                              (Some T_Done) (Some T_Done) (Some 30) (Some 200)
                              false false M_Exit Returned)).
  { vm_compute. reflexivity. }
  exact (proj1 (threads_joined_before_done 10 20 _ _ E)).
Defined.

End ReturnValueFacts.

(** * The ways out of [Operation] in 8_Thread_promise.cpp *)

Module PromiseErrorsFacts.
Import PromiseDemo PromiseDemoFacts OperationFacts PromiseErrors.

Lemma Operation_ready (count : Z) :
  PromiseErrors.Operation (mkPromise (Ready count) false)
  = (Returned (accumulate count), mkPromise (Ready count) true).
Proof. reflexivity. Qed.

Lemma accumulate_not_error (count : Z) : 0 <= count <= 65536 -> accumulate count <> -1.
Proof.
  intros H. rewrite (accumulate_sum count H).
  assert (B := triangle_bounds count H). lia.
Qed.

(** The error code of [Operation] cannot be mistaken for a sum as long
    as the count is between 0 and 65536: then [Operation] returns -1
    exactly when the future had not been taken from the promise before
    and the stored error is a [std::exception], and a sum lies between 0
    and 2147450880.  [Operation] returns at all only on a ready state
    that holds a value or a [std::exception]; on a state that is not
    ready it waits; a stored object of another type and the
    [future_error] of a second [get_future] leave it as exceptions.
    Afterwards the future has been taken, so a second call on the same
    promise never returns.  The bound on the count is needed: with the
    32-bit wrap-around the sum for the count 833855398 is -1.  On the
    promises that the channels of [PromiseDemo] stand for, the two
    embeddings of [Operation] return the same. *)
Theorem error_code_is_unambiguous (p : promise) :
  ((forall count, state p = Ready count -> 0 <= count <= 65536) ->
     (fst (PromiseErrors.Operation p) = Returned (-1)
      <-> future_retrieved p = false /\ exists e, state p = Failed (Derived e))
     /\ (forall r, fst (PromiseErrors.Operation p) = Returned r ->
           r <> -1 -> 0 <= r <= 2147450880))
  /\ ((exists r, fst (PromiseErrors.Operation p) = Returned r)
      <-> future_retrieved p = false
          /\ ((exists count, state p = Ready count)
              \/ exists e, state p = Failed (Derived e)))
  /\ (fst (PromiseErrors.Operation p) = Waiting
      <-> future_retrieved p = false /\ state p = NotReady)
  /\ ((exists x, fst (PromiseErrors.Operation p) = Escaped x)
      <-> future_retrieved p = true \/ exists tag, state p = Failed (Foreign tag))
  /\ (forall tag, future_retrieved p = false -> state p = Failed (Foreign tag) ->
        fst (PromiseErrors.Operation p) = Escaped (uncaught tag))
  /\ state (snd (PromiseErrors.Operation p)) = state p
  /\ future_retrieved (snd (PromiseErrors.Operation p)) = true
  /\ fst (PromiseErrors.Operation (snd (PromiseErrors.Operation p)))
     = Escaped future_already_retrieved
  /\ fst (PromiseErrors.Operation (mkPromise (Ready 833855398) false)) = Returned (-1)
  /\ (forall c r c',
        PromiseDemo.Operation c = Some (r, c')
        <-> PromiseErrors.Operation (of_channel c) = (Returned r, of_channel c')
            /\ contents c' = contents c).
Proof.
  split; [|split; [|split; [|split; [|split; [|split; [|split; [|split; [|split]]]]]]]].
  - intros Hc. destruct p as [st [|]]; simpl in *.
    + split; [split; [discriminate | intros (H & _); discriminate H]|].
      intros r H. discriminate H.
    + destruct st as [|count|[e|tag]]; simpl.
      * split; [split; [discriminate | intros (_ & e & H); discriminate H]|].
        intros r H. discriminate H.
      * split; [split; [|intros (_ & e & H); discriminate H]|].
        -- intros H. injection H as H.
           exfalso. exact (accumulate_not_error count (Hc count eq_refl) H).
        -- intros r H _. injection H as <-.
           rewrite (accumulate_sum count (Hc count eq_refl)).
           exact (triangle_bounds count (Hc count eq_refl)).
      * split; [split; [intros _; split; [reflexivity | eauto] | reflexivity]|].
        intros r H Hn. injection H as <-. contradiction.
      * split; [split; [discriminate | intros (_ & e & H); discriminate H]|].
        intros r H. discriminate H.
  - destruct p as [[|count|[e|tag]] [|]]; simpl; split.
    all: try (intros (r & H); discriminate H).
    all: try (intros (H & _); discriminate H).
    all: try (intros (_ & [(c0 & H)|(e0 & H)]); discriminate H).
    all: try (intros _; eexists; reflexivity).
    all: intros _; split; [reflexivity|]; eauto.
  - destruct p as [[|count|[e|tag]] [|]]; simpl; split.
    all: try (intros H; discriminate H).
    all: try (intros (H & H'); discriminate).
    all: auto.
  - destruct p as [[|count|[e|tag]] [|]]; simpl; split.
    all: try (intros (x & H); discriminate H).
    all: try (intros [H|(t0 & H)]; discriminate H).
    all: try (intros _; eexists; reflexivity).
    all: try (intros _; left; reflexivity).
    all: intros _; right; eauto.
  - intros tag Hf Hs. destruct p as [st b]. simpl in *. subst st b. reflexivity.
  - destruct p as [[|count|[e|tag]] [|]]; reflexivity.
  - destruct p as [[|count|[e|tag]] [|]]; reflexivity.
  - destruct p as [[|count|[e|tag]] [|]]; reflexivity.
  - rewrite Operation_ready. simpl fst.
    rewrite (accumulate_wraps 833855398) by lia. reflexivity.
  - intros [k b] r [k' b'].
    unfold PromiseDemo.Operation, PromiseErrors.Operation, get, of_channel. simpl.
    destruct b; simpl.
    + destruct k as [|v|e]; simpl; split.
      all: try (intros H; discriminate H).
      all: try (intros (H & _); discriminate H).
      * intros H. injection H as <- <- <-. split; reflexivity.
      * intros (H & Hk). simpl in Hk. subst k'.
        destruct b'; simpl in H; [congruence | inversion H; reflexivity].
      * intros H. injection H as <- <- <-. split; reflexivity.
      * intros (H & Hk). simpl in Hk. subst k'.
        destruct b'; simpl in H; [congruence | inversion H; reflexivity].
    + split; [intros H; discriminate H | intros (H & _); discriminate H].
Qed.

Lemma error_code_is_unambiguous_witness :
  fst (PromiseErrors.Operation (mkPromise (Failed (Derived (std_exception 3))) false))
  = Returned (-1).
Proof.
  assert (Hc : forall count,
             state (mkPromise (Failed (Derived (std_exception 3))) false) = Ready count ->
             0 <= count <= 65536) by (intros count H; discriminate H).
  apply (proj1 (proj1 (error_code_is_unambiguous _) Hc)).
  split; [reflexivity | eexists; reflexivity].
Defined.

End PromiseErrorsFacts.

(** * The queue operations used by two threads *)

Module ScenarioFacts.
Import CVExample CVExampleFacts Scenario.

Lemma sc_Inv_init (xs : list Z) (n : nat) : Inv xs n (init (push_all_then_close xs) n).
Proof.
  constructor; simpl; auto; try discriminate.
  - right. exists xs. reflexivity.
  - unfold push_all_then_close. destruct xs; reflexivity.
  - exists []. simpl. split; [reflexivity|].
    unfold push_all_then_close, pushes_of. rewrite flat_map_app. simpl.
    rewrite app_nil_r. induction xs as [|x xs IH]; simpl; [reflexivity | f_equal; exact IH].
Qed.

Ltac sc_unstep H :=
  repeat (unfold step, produce, consume, popped_to, pop_end, call_start, call_ended,
            obind, Download, ProcessData, lock, wait_pred, empty in H; simpl in H);
  repeat match type of H with
  | context [match ?x with _ => _ end] => is_var x; destruct x; simpl in H; try discriminate H
  | context [if ?x then _ else _] => is_var x; destruct x; simpl in H; try discriminate H
  | context [?x && _] => is_var x; destruct x; simpl in H; try discriminate H
  end;
  try discriminate H;
  try (injection H as <-).

Lemma sc_shape_todo (t : list call) :
  (t = [] \/ exists rest, t = push_all_then_close rest) ->
  match t with
  | [] => True
  | Push v :: t' => exists rest, t' = push_all_then_close rest
  | Close :: t' => t' = []
  end.
Proof.
  intros [->|(rest & ->)]; [exact I|].
  destruct rest as [|v rest]; simpl; [reflexivity|]. exists rest. reflexivity.
Qed.

Ltac sc_side :=
  unfold wait_pred, empty in *; simpl in *;
  rewrite ?app_nil_r, ?orb_true_r, ?orb_false_r in *;
  try solve [ auto | discriminate | congruence | tauto | lia | eauto
            | intuition (auto; try discriminate; try congruence; try lia) ].

Ltac sc_fifo taken :=
  try solve [ exists taken; rewrite ?app_nil_r in *; rewrite <- ?app_assoc in *;
              simpl in *; split; try assumption; try congruence ].

Lemma sc_Inv_step (xs : list Z) (n : nat) (a : actor) (s s' : state) :
  Inv xs n s -> step a s = Some s' -> Inv xs n s'.
Proof.
  intros [Hm Hx Hp Hf Hpk Hw Hst He (taken & Hr & Hq) Hn] Hs.
  destruct s as [[d f m cv o] c t p ps rs]. simpl in *.
  destruct p.
  all: destruct a as [[|]|].
  all: try (destruct c as [pc|];
            [destruct pc; simpl in Hp; try contradiction
            | assert (Hp' := sc_shape_todo _ Hp)]).
  all: simpl in Hx; try discriminate Hx.
  all: sc_unstep Hs.
  all: try (simpl in Hp'; try destruct Hp' as (rest & ->); try subst t).
  all: try (destruct Hp as (rest & ->)); try subst t.
  all: try (constructor; simpl; rewrite ?length_app; sc_side; sc_fifo taken).
  all: try (destruct rest; simpl in *; congruence).
  all: exists (taken ++ [value]); rewrite Hr, map_app, ?app_nil_r, <- ?app_assoc; simpl;
       split; [reflexivity | assumption].
Qed.

Lemma sc_Inv_run (xs : list Z) (n : nat) (sched : list actor) (s s' : state) :
  Inv xs n s -> run sched s = Some s' -> Inv xs n s'.
Proof.
  revert s. induction sched as [|a rest IH]; simpl; intros s HI Hs.
  - injection Hs as <-. exact HI.
  - destruct (step a s) as [s1|] eqn:E; simpl in Hs; [|discriminate].
    exact (IH s1 (sc_Inv_step xs n a s s1 HI E) Hs).
Qed.

Ltac sc_can_move t :=
  right; exists t;
  unfold step, produce, consume, popped_to, pop_end, call_start, call_ended,
    obind, Download, ProcessData, lock, wait_pred, empty; simpl;
  repeat match goal with
  | |- context [match ?x with [] => _ | _ :: _ => _ end] => destruct x; simpl
  | |- context [if ?x then _ else _] => destruct x; simpl
  end;
  eexists; reflexivity.

(** No wakeup is lost: unless the producer has made all its calls and
    the consumer has its results or has returned, one of the two threads
    has a statement to execute. *)
Lemma sc_progress (xs : list Z) (n : nat) (s : state) :
  Inv xs n s ->
  finished s = true \/ exists t s', step (Run t) s = Some s'.
Proof.
  intros [Hm Hx Hp Hf Hpk Hw Hst He _ _].
  destruct s as [[d f m cv o] c t p ps rs]. unfold finished. simpl in *.
  destruct c as [pc|].
  - destruct pc; simpl in Hp; try contradiction; sc_can_move Downloader.
  - apply sc_shape_todo in Hp.
    destruct ps as [|ps].
    + specialize (Hst eq_refl).
      destruct p; try discriminate Hst; simpl in *; subst m.
      all: destruct t as [|[v|] t]; [left; reflexivity
                                    | sc_can_move Downloader | sc_can_move Downloader].
    + clear Hst. destruct p; simpl in *; subst m.
      all: try (sc_can_move Processor).
      all: try (destruct t as [|[v|] t]; [|sc_can_move Downloader|sc_can_move Downloader]).
      all: simpl in *; subst f.
      * destruct cv; [|sc_can_move Processor].
        destruct (Hw eq_refl) as [H|H]; [|discriminate].
        unfold wait_pred in H. simpl in H. rewrite orb_true_r in H. discriminate.
      * left. reflexivity.
Qed.

Lemma sc_budget_statement (xs : list Z) (n : nat) (t : thread) (s s' : state) :
  Inv xs n s -> step (Run t) s = Some s' -> (S (budget s') <= budget s)%nat.
Proof.
  intros [Hm Hx Hp Hf Hpk Hw Hst He _ _] Hs.
  destruct s as [[d f m cv o] c tl p ps rs]. unfold budget, c_left. simpl in *.
  destruct p.
  all: destruct t.
  all: try (destruct c as [pc|]; [destruct pc; simpl in Hp; try contradiction|]).
  all: simpl in Hx; try discriminate Hx.
  all: sc_unstep Hs.
  all: unfold c_next, empty, notify_one, set_CV, set_Mutex, set_Data, set_DownloadFinished,
         unlock, print, push_back, set_cout; simpl.
  all: try lia.
  all: repeat match goal with
       | |- context [match ?x with _ => _ end] => is_var x; destruct x; simpl
       | |- context [if ?x then _ else _] => is_var x; destruct x; simpl
       | |- context [?x && _] => is_var x; destruct x; simpl
       | |- context [negb ?x] => is_var x; destruct x; simpl
       end.
  all: try lia.
  all: try (specialize (Hpk eq_refl); discriminate Hpk).
Qed.

Lemma sc_budget_wakeup (xs : list Z) (n : nat) (s s' : state) :
  Inv xs n s -> step Spurious s = Some s' -> (budget s' <= budget s + 2)%nat.
Proof.
  intros HI Hs. assert (Hpk := inv_parked xs n s HI). clear HI.
  destruct s as [[d f m cv o] c tl p ps rs]. unfold budget, c_left. simpl in *.
  destruct cv; [|discriminate]. injection Hs as <-. simpl.
  rewrite (Hpk eq_refl). destruct ps; simpl; lia.
Qed.

Lemma sc_budget_run (xs : list Z) (n : nat) (sched : list actor) (s s' : state) :
  Inv xs n s -> run sched s = Some s' ->
  (statements sched + budget s' <= budget s + 2 * wakeups sched)%nat.
Proof.
  revert s. induction sched as [|a rest IH]; simpl; intros s HI Hs.
  - injection Hs as <-. unfold statements, wakeups. simpl. lia.
  - destruct (step a s) as [s1|] eqn:E; simpl in Hs; [|discriminate].
    specialize (IH s1 (sc_Inv_step xs n a s s1 HI E) Hs).
    unfold statements, wakeups in *. simpl.
    destruct a as [t|]; simpl.
    + assert (B := sc_budget_statement xs n t s s1 HI E). lia.
    + assert (B := sc_budget_wakeup xs n s s1 HI E). lia.
Qed.

Lemma sc_budget_init (xs : list Z) (n : nat) :
  (budget (init (push_all_then_close xs) n) <= 6 * (length xs + 1) + 8 * n)%nat.
Proof.
  unfold budget, init, push_all_then_close, c_left. simpl.
  rewrite length_app, length_map. destruct n; simpl; lia.
Qed.

Lemma sc_closed_nothing_left (xs : list Z) (n : nat) (s : state) :
  Inv xs n s -> g_DownloadFinished (queue s) = true ->
  unpushed (calling s) ++ pushes_of (todo s) = [].
Proof.
  intros HI Hfl. assert (Hf := inv_flag xs n s HI). assert (Hp := inv_p xs n s HI).
  rewrite Hfl in Hf.
  destruct (calling s) as [[]|]; simpl in *; try discriminate; try contradiction;
    try (rewrite Hp; reflexivity).
  destruct (todo s); [reflexivity | discriminate].
Qed.

(** The results so far are the beginning of: the items in the order of
    the pushes, then "no more items". *)
Lemma sc_results_prefix (xs : list Z) (n : nat) (s : state) :
  Inv xs n s ->
  results s = firstn (length (results s)) (map Some xs ++ [None])
  /\ (pr_exited (consumer s) = true -> results s = map Some xs ++ [None]).
Proof.
  intros HI. destruct (inv_fifo xs n s HI) as (taken & Hr & Hq).
  assert (He := inv_exit xs n s HI).
  destruct (pr_exited (consumer s)) eqn:Ex.
  - destruct (He eq_refl) as [Hfl Hd].
    assert (Hh : held (consumer s) = []) by (destruct (consumer s); try discriminate; reflexivity).
    rewrite Hh, Hd, (sc_closed_nothing_left xs n s HI Hfl) in Hq. simpl in Hq.
    rewrite app_nil_r in Hq. subst taken.
    split; [|intros _; exact Hr].
    rewrite Hr at 1. rewrite Hr. symmetry. apply firstn_all.
  - split; [|discriminate]. rewrite app_nil_r in Hr.
    rewrite Hr, length_map, <- Hq, map_app.
    rewrite <- app_assoc, <- (length_map Some taken), firstn_app, firstn_all.
    rewrite Nat.sub_diag. simpl. rewrite app_nil_r. reflexivity.
Qed.

Lemma sc_finished_results (xs : list Z) (n : nat) (s : state) :
  Inv xs n s -> finished s = true ->
  results s = firstn n (map Some xs ++ [None]).
Proof.
  intros HI Hfin. assert (Hn := inv_count xs n s HI).
  destruct (sc_results_prefix xs n s HI) as [P Q].
  unfold finished in Hfin.
  destruct (calling s); [discriminate|]. destruct (todo s); [|discriminate].
  apply orb_true_iff in Hfin. destruct Hfin as [H0|Hd].
  - apply Nat.eqb_eq in H0. rewrite H0, Nat.add_0_r in Hn. rewrite <- Hn. exact P.
  - assert (Ex : pr_exited (consumer s) = true) by (destruct (consumer s); try discriminate; reflexivity).
    specialize (Q Ex). rewrite Q. symmetry. apply firstn_all2.
    rewrite Q in Hn. lia.
Qed.

(** The scenario "push the items, close, pop [n] times" with two
    threads.  Whatever the interleaving of their statements and whatever
    the spurious wakeups: the results so far are a beginning of "the
    items in the order of the pushes, then no more items"; unless the
    producer has made all its calls and the consumer has its results or
    has returned, one of the two threads has a statement to execute, so
    no wakeup is lost; the number of statements executed is at most 6
    per producer call plus 8 per pop plus 2 per spurious wakeup, so the
    run ends; and it ends with exactly the first [n] of those results.
    While the consumer is parked it has no statement to execute. *)
Theorem scenario_completes (xs : list Z) (n : nat) (sched : list actor) (s : state) :
  run sched (init (push_all_then_close xs) n) = Some s ->
  results s = firstn (length (results s)) (map Some xs ++ [None])
  /\ (finished s = true \/ exists t s', step (Run t) s = Some s')
  /\ (statements sched + budget s
      <= 6 * (length xs + 1) + 8 * n + 2 * wakeups sched)%nat
  /\ (finished s = true -> results s = firstn n (map Some xs ++ [None]))
  /\ (g_CV (queue s) = true -> consumer s = C_Blocked /\ consume s = None).
Proof.
  intros Hs.
  assert (HI := sc_Inv_run xs n sched _ s (sc_Inv_init xs n) Hs).
  assert (B := sc_budget_run xs n sched _ s (sc_Inv_init xs n) Hs).
  assert (B0 := sc_budget_init xs n).
  split; [exact (proj1 (sc_results_prefix xs n s HI))|].
  split; [exact (sc_progress xs n s HI)|]. split; [lia|]. split.
  - exact (sc_finished_results xs n s HI).
  - intros Hcv. assert (Hb := inv_parked xs n s HI Hcv). split; [exact Hb|].
    unfold consume. rewrite Hb. simpl. rewrite Hcv. destruct (pops s); reflexivity.
Qed.

Lemma scenario_completes_witness :
  exists t s',
    step (Run t)
      (mkState (mkShared [7] false None true [WaitingForData; Pushed 7])
               (Some (D_Notify 7)) [Push 8; Close] C_Blocked 3 []) = Some s'.
Proof.
  assert (E : run (first_park ++ [Spurious] ++ repeat (Run Processor) 2
                     ++ repeat (Run Downloader) 3)
                (init (push_all_then_close [7; 8]) 3)
              = Some (mkState (mkShared [7] false None true [WaitingForData; Pushed 7])
                              (Some (D_Notify 7)) [Push 8; Close] C_Blocked 3 [])).
  { vm_compute. reflexivity. }
  destruct (proj1 (proj2 (scenario_completes [7; 8] 3 _ _ E))) as [H|H].
  - discriminate H.
  - exact H.
Defined.

(** A pop that follows a push never parks: it returns the oldest item,
    which is the pushed one when the list was empty.  A consumer that
    parked on an empty open queue has no statement to execute; a
    spurious wakeup makes it test the predicate and park again in the
    same state; the [notify_one] of the next push releases it with
    exactly the pushed item, and the [notify_one] of a close releases it
    with "no more items". *)
Theorem push_serves_pop (v : Z) (g g1 : shared) :
  push v g = Some g1 ->
  pop g1 = Some (Item (hd v (g_Data g)), set_Data (tl (g_Data g ++ [v])) g1)
  /\ g_CV g1 = false
  /\ (forall g0, pop g0 = Some (WouldBlock, g) ->
        g_CV g = true
        /\ ProcessData C_Blocked g = None
        /\ resume g = None
        /\ resume (notify_one g) = Some (WouldBlock, g)
        /\ resume g1 = Some (Item v, set_Data [] g1)
        /\ forall g2, close g = Some g2 ->
             g_CV g2 = false /\ resume g2 = Some (NoMoreItems, g2)).
Proof.
  rewrite push_eq. destruct g as [d f m c o]. simpl.
  destruct m; [discriminate|]. intros H. injection H as <-.
  split; [|split].
  - rewrite pop_eq. simpl. destruct d; reflexivity.
  - reflexivity.
  - intros [d0 f0 m0 c0 o0]. rewrite pop_eq. unfold set_CV. simpl.
    destruct m0; [discriminate|]. destruct d0; [|discriminate].
    destruct f0; [discriminate|].
    intros H0. inversion H0. subst.
    split; [reflexivity|]. split; [reflexivity|]. split; [reflexivity|].
    split; [reflexivity|]. split; [reflexivity|].
    intros g2. rewrite close_eq. simpl. intros H1. injection H1 as <-.
    split; reflexivity.
Qed.

Lemma push_serves_pop_witness :
  resume (mkShared [9] false None false [Pushed 9])
  = Some (Item 9, mkShared [] false None false [Pushed 9]).
Proof.
  assert (E : pop (mkShared [] false None false []) =
              Some (WouldBlock, mkShared [] false None true [])) by reflexivity.
  exact (proj1 (proj2 (proj2 (proj2 (proj2
           (proj2 (proj2 (push_serves_pop 9 (mkShared [] false None true []) _ eq_refl))
              _ E)))))).
Defined.

End ScenarioFacts.

(** * The scenario of five items *)

Module CondVarRunFacts.
Import CondVar CondVarFacts CondVarSafety CondVarSafetyFacts.

Lemma cv_progress (s : state) :
  reachable s ->
  (producer s = P_Done /\ consumer s = K_Done)
  \/ exists t s', step (Run t) s = Some s'.
Proof.
  intros Hr. assert (HS := Safe_reachable s Hr). assert (HI := cv_Inv_reachable s Hr).
  assert (Hpl := produced_length s HI).
  destruct HS as [Hf Hp Hw].
  destruct HI as [Hm Hx Hpr Hkr Hpu Hco Hfr Hfi].
  rewrite Hfi, !length_app, !Nat2Z.inj_add, Hco in Hpl.
  destruct s as [[m c d o] pp kp]. unfold owner, empty in *. simpl in *.
  destruct pp; simpl in *; try (can_move t1).
  - destruct kp; simpl in *; subst m; try (can_move t1); try (can_move t2).
    destruct d; [exfalso; apply Hf; reflexivity | can_move t2].
  - destruct kp; simpl in *; subst m; try (can_move t2).
    + destruct c; [|can_move t2].
      destruct (Hw eq_refl) as [->|H]; [|discriminate].
      simpl in Hpl. unfold SIZE in *. lia.
    + destruct d; [|can_move t2]. exfalso. apply Hf; reflexivity.
    + left. split; reflexivity.
Qed.

Lemma prefix_of_firstn {A} (l1 l2 L : list A) (m : nat) :
  l1 ++ l2 = firstn m L -> exists k, l1 = firstn k L.
Proof.
  intros H. exists (Nat.min (length l1) m).
  rewrite <- firstn_firstn, <- H, firstn_app, firstn_all, Nat.sub_diag.
  simpl. rewrite app_nil_r. reflexivity.
Qed.

Lemma cv_consumed_prefix (s : state) :
  Inv s -> exists k, consumed (cout (globals s)) = firstn k [1; 2; 3; 4; 5].
Proof.
  intros HI. assert (Hp := inv_produced s HI). assert (Hr := inv_p_range s HI).
  assert (Hf := inv_fifo s HI).
  apply (prefix_of_firstn _ (in_hand (consumer s) ++ g_data (globals s)) _
           (Z.to_nat (p_count (producer s)))).
  rewrite <- Hf, Hp.
  assert (Hc : (Z.to_nat (p_count (producer s)) <= 5)%nat).
  { destruct (producer s); cbv [p_count p_range SIZE] in *; lia. }
  destruct (Z.to_nat (p_count (producer s))) as [|[|[|[|[|[|k]]]]]]; try reflexivity. lia.
Qed.

End CondVarRunFacts.

(** C4.  The scenario is run by two threads that use the queue of the
    example file: the producer pushes 1, 2, 3, 4, 5 and closes with the
    statements of [Download], the consumer is [ProcessData] stopped
    after six pops, and it waits inside a pop.  Whatever the
    interleaving of the statements and whatever the spurious wakeups,
    the results so far are a beginning of 1, 2, 3, 4, 5, "no more
    items"; a thread can always go on until both are through; at most 81
    statements are executed, plus two for each spurious wakeup; and when
    both are through the six results are exactly 1, 2, 3, 4, 5 and "no
    more items".  The program of 9_Thread_condition_variable.cpp pushes
    the same five items, has no close and pops five times: in each of
    its runs the items consumed so far are a beginning of 1, 2, 3, 4, 5,
    a thread can always go on until both are done, at most 114
    statements are executed, plus two for each spurious wakeup, and the
    consumer ends with exactly 1, 2, 3, 4, 5 and an empty queue. *)
Theorem push_close_pop_scenario :
  (forall sched s,
     Scenario.run sched
       (Scenario.init (CVExample.push_all_then_close [1; 2; 3; 4; 5]) 6) = Some s ->
     (exists k, Scenario.results s
                = firstn k [Some 1; Some 2; Some 3; Some 4; Some 5; None])
     /\ (Scenario.finished s = true
         \/ exists t s', Scenario.step (CVExample.Run t) s = Some s')
     /\ (Scenario.statements sched <= 81 + 2 * Scenario.wakeups sched)%nat
     /\ (Scenario.finished s = true ->
         Scenario.results s = [Some 1; Some 2; Some 3; Some 4; Some 5; None]))
  /\ (forall sched s,
        CondVar.run sched CondVar.init = Some s ->
        (exists k, CondVar.consumed (CondVar.cout (CondVar.globals s))
                   = firstn k [1; 2; 3; 4; 5])
        /\ ((CondVar.producer s = CondVar.P_Done /\ CondVar.consumer s = CondVar.K_Done)
            \/ exists t s', CondVar.step (CondVar.Run t) s = Some s')
        /\ CondVarBound.statements sched <= 114 + 2 * CondVarBound.wakeups sched
        /\ (CondVar.consumer s = CondVar.K_Done ->
            CondVar.consumed (CondVar.cout (CondVar.globals s)) = [1; 2; 3; 4; 5] /\
            CondVar.g_data (CondVar.globals s) = [])).
Proof.
  split.
  - intros sched s Hs.
    assert (HI := ScenarioFacts.sc_Inv_run [1; 2; 3; 4; 5] 6 sched _ s
                    (ScenarioFacts.sc_Inv_init _ _) Hs).
    assert (B := ScenarioFacts.sc_budget_run [1; 2; 3; 4; 5] 6 sched _ s
                   (ScenarioFacts.sc_Inv_init _ _) Hs).
    change (Scenario.budget
              (Scenario.init (CVExample.push_all_then_close [1; 2; 3; 4; 5]) 6))
      with 81%nat in B.
    split; [eexists; exact (proj1 (ScenarioFacts.sc_results_prefix _ _ s HI))|].
    split; [exact (ScenarioFacts.sc_progress _ _ s HI)|].
    split; [lia|].
    exact (ScenarioFacts.sc_finished_results _ _ s HI).
  - intros sched s Hs.
    assert (Hr := CondVarFacts.cv_run_reachable sched _ s CondVar.reach_init Hs).
    assert (HI := CondVarFacts.cv_Inv_reachable s Hr).
    assert (B := CondVarBoundFacts.cv_budget_run sched _ s CondVarFacts.cv_Inv_init Hs).
    assert (N := CondVarBoundFacts.cv_budget_nonneg s HI).
    change (CondVarBound.budget CondVar.init) with 114 in B.
    split; [exact (CondVarRunFacts.cv_consumed_prefix s HI)|].
    split; [exact (CondVarRunFacts.cv_progress s Hr)|].
    split; [lia|].
    exact (CondVarFacts.consumer_done s HI).
Qed.

Lemma push_close_pop_scenario_witness :
  Scenario.run (Scenario.parked_each_time 5)
    (Scenario.init (CVExample.push_all_then_close [1; 2; 3; 4; 5]) 6)
  = Some (Scenario.mkState
            (CVExample.mkShared [] true None false
               [CVExample.WaitingForData;
                CVExample.Pushed 1; CVExample.Processed 1;
                CVExample.Pushed 2; CVExample.Processed 2;
                CVExample.Pushed 3; CVExample.Processed 3;
                CVExample.Pushed 4; CVExample.Processed 4;
                CVExample.Pushed 5; CVExample.Processed 5])
            None [] CVExample.C_Exit O [Some 1; Some 2; Some 3; Some 4; Some 5; None])
  /\ Scenario.results
       (Scenario.mkState
          (CVExample.mkShared [] true None false
             [CVExample.WaitingForData;
              CVExample.Pushed 1; CVExample.Processed 1;
              CVExample.Pushed 2; CVExample.Processed 2;
              CVExample.Pushed 3; CVExample.Processed 3;
              CVExample.Pushed 4; CVExample.Processed 4;
              CVExample.Pushed 5; CVExample.Processed 5])
          None [] CVExample.C_Exit O [Some 1; Some 2; Some 3; Some 4; Some 5; None])
     = [Some 1; Some 2; Some 3; Some 4; Some 5; None]
  /\ CondVar.consumed (CondVar.cout (CondVar.globals (CondVar.exec CondVar.lockstep)))
     = [1; 2; 3; 4; 5].
Proof.
  assert (E : Scenario.run (Scenario.parked_each_time 5)
                (Scenario.init (CVExample.push_all_then_close [1; 2; 3; 4; 5]) 6)
              = Some (Scenario.mkState
                        (CVExample.mkShared [] true None false
                           [CVExample.WaitingForData;
                            CVExample.Pushed 1; CVExample.Processed 1;
                            CVExample.Pushed 2; CVExample.Processed 2;
                            CVExample.Pushed 3; CVExample.Processed 3;
                            CVExample.Pushed 4; CVExample.Processed 4;
                            CVExample.Pushed 5; CVExample.Processed 5])
                        None [] CVExample.C_Exit O
                        [Some 1; Some 2; Some 3; Some 4; Some 5; None])).
  { vm_compute. reflexivity. }
  assert (F : CondVar.run CondVar.lockstep CondVar.init
              = Some (CondVar.exec CondVar.lockstep)).
  { vm_compute. reflexivity. }
  split; [exact E|]. split.
  - exact (proj2 (proj2 (proj2 (proj1 push_close_pop_scenario _ _ E))) eq_refl).
  - apply (proj2 (proj2 (proj2 (proj2 push_close_pop_scenario _ _ F)))).
    vm_compute. reflexivity.
Defined.
